(** * Grid: a DIM-dimensional uniform grid (learner/Grid.cpp)

    A shallow embedding of the class [Grid] and the verification of its index
    arithmetic, its raster, its neighbourhood enumeration and its containment
    test.

    Conventions of the embedding.
    - [uint] is a 32-bit unsigned integer: a [Z] in [0, 2^32) whose arithmetic
      wraps ([wrap]).
    - [double] is IEEE 754 binary64: the kernel's primitive [float], every
      operation rounded on its own (to nearest, ties to even).  The
      arithmetic the class uses is gathered in the interface [Double], with
      the instance [binary64], what the program runs on.
    - A [QVector] is a list; reading or writing outside of it, dividing an
      integer by zero and casting a [double] that does not fit to [int] are
      undefined in the source: the embedding returns [None] there.
    - The member [_idx] is scratch state that [const] methods overwrite and
      hand out by pointer; methods that write it return the new state. *)

From Stdlib Require Import ZArith Floats Uint63 Lia Permutation.
From stdpp Require Import base option list.

Local Open Scope Z_scope.

(** ** Machine integers *)

(** Reduction of an integer result to [uint]. *)
Definition wrap (z : Z) : Z := z mod 4294967296.

Definition is_uint (z : Z) : Prop := 0 ≤ z < 4294967296.

(** The cast [(int)u] of a [uint]. *)
Definition to_int (u : Z) : Z := if u <? 2147483648 then u else u - 4294967296.

(** The values of [int]. *)
Definition is_intb (z : Z) : bool := (-2147483648 <=? z) && (z <? 2147483648).

(** Qt's [qBound(min, val, max)] is [qMax(min, qMin(max, val))]. *)
Definition qBound (lo v hi : Z) : Z := Z.max lo (Z.min hi v).

(** ** The arithmetic of [double] *)

Class Double (F : Type) := {
  d_zero : F;                  (* a value-initialised double *)
  d_one : F;                   (* the literal 1.0 *)
  d_of_uint : Z → F;           (* the implicit conversion uint -> double *)
  d_add : F → F → F;
  d_sub : F → F → F;
  d_mul : F → F → F;
  d_div : F → F → F;
  d_ltb : F → F → bool;        (* a < b; a > b is [d_ltb b a] *)
  d_to_int : F → option Z      (* the cast (int)a: truncation towards zero *)
}.

(** Truncation of a binary64 value towards zero, where it has one. *)
Definition SF_trunc (f : spec_float) : option Z :=
  match f with
  | S754_zero _ => Some 0
  | S754_finite s m e =>
      let a := if 0 <=? e then Z.pos m * 2 ^ e else Z.pos m / 2 ^ (- e) in
      Some (if s then - a else a)
  | _ => None
  end.

Definition float_to_int (a : float) : option Z :=
  z ← SF_trunc (Prim2SF a);
  if is_intb z then Some z else None.

#[export] Instance binary64 : Double float := {
  d_zero := 0%float;
  d_one := 1%float;
  d_of_uint := λ u, of_uint63 (Uint63.of_Z u);
  d_add := PrimFloat.add;
  d_sub := PrimFloat.sub;
  d_mul := PrimFloat.mul;
  d_div := PrimFloat.div;
  d_ltb := PrimFloat.ltb;
  d_to_int := float_to_int
}.

(** ** Vectors and loops *)

(** [v[i] = a]: a write inside the vector, undefined outside. *)
Definition store {A} (v : list A) (i : nat) (a : A) : option (list A) :=
  if decide (i < length v)%nat then Some (<[i := a]> v) else None.

(** [for (uint d = a; d < a + n; d++) s = body(d, s)]. *)
Fixpoint for_loop {St} (n d : nat) (body : nat → St → option St) (s : St) : option St :=
  match n with
  | O => Some s
  | S n' => s' ← body d s; for_loop n' (S d) body s'
  end.

(** ** The class *)

Section Grid.
Context {F : Type} `{Double F}.

(** The members of [Grid], as Grid.cpp uses them (Grid.h declares them):
    counts and indices are [uint]s, bounds and coordinates [double]s. *)
Record Grid := mkGrid {
  DIM : nat;
  N : list Z;
  max : list F;
  min : list F;
  raster : list (list F);
  cumN : list Z;
  stride : list F;
  strideinv : list F;
  nodeCount : Z;
  _idx : list Z;
  _x : list F
}.

Definition with_idx (g : Grid) (ix : list Z) : Grid :=
  mkGrid (DIM g) (N g) (max g) (min g) (raster g) (cumN g) (stride g)
         (strideinv g) (nodeCount g) ix (_x g).

(** [Grid::Grid()].  The constructor sets [nodeCount] alone; the grid starts
    without axes. *)
Definition Grid_new : Grid := mkGrid 0 [] [] [] [] [] [] [] 0 [] [].

(** [Grid::setDim(uint d)]. *)
Definition setDim (g : Grid) (d : nat) : Grid :=
  mkGrid d (resize d 0 (N g)) (resize d d_zero (max g)) (resize d d_zero (min g))
         (resize d [] (raster g)) (resize d 0 (cumN g)) (resize d d_zero (stride g))
         (resize d d_zero (strideinv g)) (nodeCount g) (resize d 0 (_idx g))
         (resize d d_zero (_x g)).

(** [Grid::setMin(const double* minn)]. *)
Definition setMin (g : Grid) (minn : list F) : option Grid :=
  m ← for_loop (DIM g) 0 (λ d m, a ← minn !! d; store m d a) (min g);
  Some (mkGrid (DIM g) (N g) (max g) m (raster g) (cumN g) (stride g)
               (strideinv g) (nodeCount g) (_idx g) (_x g)).

(** [Grid::setMax(const double* maxx)]. *)
Definition setMax (g : Grid) (maxx : list F) : option Grid :=
  m ← for_loop (DIM g) 0 (λ d m, a ← maxx !! d; store m d a) (max g);
  Some (mkGrid (DIM g) (N g) m (min g) (raster g) (cumN g) (stride g)
               (strideinv g) (nodeCount g) (_idx g) (_x g)).

(** [Grid::setN(const uint* N_)]. *)
Definition setN (g : Grid) (N_ : list Z) : option Grid :=
  n ← for_loop (DIM g) 0 (λ d n, a ← N_ !! d; store n d a) (N g);
  Some (mkGrid (DIM g) n (max g) (min g) (raster g) (cumN g) (stride g)
               (strideinv g) (nodeCount g) (_idx g) (_x g)).

(** The nodes of one axis: [raster[d].resize(N[d])] and the loop over [n]. *)
Definition rasterize_axis (nd : Z) (mn sd : F) (rd : list F) : option (list F) :=
  for_loop (Z.to_nat nd) 0
    (λ n rd, store rd n (d_add mn (d_mul (d_of_uint (Z.of_nat n)) sd)))
    (resize (Z.to_nat nd) d_zero rd).

(** [Grid::rasterize()]. *)
Definition rasterize (g : Grid) : option Grid :=
  n0 ← N g !! 0%nat;
  nc ← for_loop (DIM g - 1) 1 (λ d nc, nd ← N g !! d; Some (wrap (nc * nd))) n0;
  cum ← store (cumN g) 0 1;
  cum ← for_loop (DIM g - 1) 1
         (λ d cum, c ← cum !! (d - 1)%nat; n ← N g !! (d - 1)%nat;
                   store cum d (wrap (c * n))) cum;
  '(st, sti, ra) ← for_loop (DIM g) 0
         (λ d '(st, sti, ra),
            mx ← max g !! d; mn ← min g !! d; nd ← N g !! d;
            let l := d_sub mx mn in
            st ← store st d (d_div l (d_of_uint (wrap (nd - 1))));
            sd ← st !! d;
            sti ← store sti d (d_div d_one sd);
            rd ← ra !! d;
            rd ← rasterize_axis nd mn sd rd;
            ra ← store ra d rd;
            Some (st, sti, ra))
         (stride g, strideinv g, raster g);
  Some (mkGrid (DIM g) (N g) (max g) (min g) ra cum st sti nc (_idx g) (_x g)).

(** [uint Grid::convertIndex(const uint* idx)]: dim index to flat index. *)
Definition convertIndex_dim (g : Grid) (idx : list Z) : option Z :=
  k ← idx !! 0%nat;
  for_loop (DIM g - 1) 1
    (λ d k, i ← idx !! d; c ← cumN g !! d; Some (wrap (k + wrap (i * c)))) k.

(** [const uint* Grid::convertIndex(uint idx)]: flat index to dim index.
    The pointer returned is [_idx] of the state returned. *)
Definition convertIndex_flat (g : Grid) (idx : Z) : option Grid :=
  '(v, ix) ← for_loop (DIM g) 0
         (λ d '(v, ix),
            n ← N g !! d;
            if decide (n = 0) then None else
            ix ← store ix d (v mod n);
            Some (v / n, ix))
         (idx, _idx g);
  Some (with_idx g ix).

(** [Grid::getNodeIndexBl(const double* x)]; the pointer returned is [_idx]
    of the state returned. *)
Definition getNodeIndexBl (g : Grid) (x : list F) : option Grid :=
  ix ← for_loop (DIM g) 0
         (λ d ix,
            xd ← x !! d; mn ← min g !! d; si ← strideinv g !! d; nd ← N g !! d;
            v ← d_to_int (d_mul (d_sub xd mn) si);
            let hi := to_int nd - 2 in
            if is_intb hi then store ix d (wrap (qBound 0 v hi)) else None)
         (_idx g);
  Some (with_idx g ix).

(** The odometer step at the end of both enumeration loops:
    [uint d = 0; while (d < DIM) { _idx[d]++; if (_idx[d] <= bmax[d]) break;
    _idx[d] = bmin[d]; d++; }], with [n] the number of axes left. *)
Fixpoint advance (n d : nat) (bmin bmax ix : list Z) : option (list Z) :=
  match n with
  | O => Some ix
  | S n' =>
      v ← ix !! d;
      ix ← store ix d (wrap (v + 1));
      v ← ix !! d; hi ← bmax !! d;
      if v <=? hi then Some ix else
      lo ← bmin !! d;
      ix ← store ix d lo;
      advance n' (S d) bmin bmax ix
  end.

(** The product of the box's extents, [neighbors *= bmax[d]-bmin[d]+1]. *)
Definition count_box (dim : nat) (bmin bmax : list Z) : option Z :=
  for_loop dim 0
    (λ d nb, hi ← bmax !! d; lo ← bmin !! d;
             Some (wrap (nb * wrap (wrap (hi - lo) + 1)))) 1.

(** [for (uint d = 0; d < DIM; d++) _idx[d] = bmin[d];] *)
Definition reset_idx (dim : nat) (bmin ix : list Z) : option (list Z) :=
  for_loop dim 0 (λ d ix, lo ← bmin !! d; store ix d lo) ix.

(** [QVector<uint> Grid::enumerateNeighborHood(const uint* idx, uint radius)].
    [idx] may point to [_idx] (the overload below passes it); it is read
    for the last time before [_idx] is first written, so it is passed by
    value here. *)
Definition enumerateNeighborHood (g : Grid) (idx : list Z) (radius : Z)
  : option (list Z * Grid) :=
  center ← convertIndex_dim g idx;
  '(bmin, bmax) ← for_loop (DIM g) 0
         (λ d '(bmin, bmax),
            i ← idx !! d; n ← N g !! d;
            bmin ← store bmin d (if i <? radius then 0 else wrap (i - radius));
            bmax ← store bmax d (Z.min (wrap (i + radius)) (wrap (n - 1)));
            Some (bmin, bmax))
         (replicate (DIM g) 0, replicate (DIM g) 0);
  neighbors ← count_box (DIM g) bmin bmax;
  ix ← reset_idx (DIM g) bmin (_idx g);
  '(neighborhood, ix) ← for_loop (Z.to_nat neighbors) 0
         (λ _ '(neighborhood, ix),
            c ← convertIndex_dim g ix;
            let neighborhood :=
              if decide (c ≠ center) then neighborhood ++ [c] else neighborhood in
            ix ← advance (DIM g) 0 bmin bmax ix;
            Some (neighborhood, ix))
         ([], ix);
  Some (neighborhood, with_idx g ix).

(** [QVector<uint> Grid::enumerateNeighborHood(uint n, uint radius)]. *)
Definition enumerateNeighborHood_flat (g : Grid) (n radius : Z)
  : option (list Z * Grid) :=
  g' ← convertIndex_flat g n;
  enumerateNeighborHood g' (_idx g') radius.

(** [QVector<uint> Grid::getEnvelopingNodes(const double* x, uint radius)].
    [idx] points to [_idx] as [getNodeIndexBl] left it. *)
Definition getEnvelopingNodes (g : Grid) (x : list F) (radius : Z)
  : option (list Z * Grid) :=
  g' ← getNodeIndexBl g x;
  let idx := _idx g' in
  '(bmin, bmax) ← for_loop (DIM g) 0
         (λ d '(bmin, bmax),
            i ← idx !! d; n ← N g !! d;
            bmin ← store bmin d (Z.max (wrap (i - radius)) 0);
            bmax ← store bmax d (Z.min (wrap (wrap (i + radius) + 1)) (wrap (n - 1)));
            Some (bmin, bmax))
         (replicate (DIM g) 0, replicate (DIM g) 0);
  neighbors ← count_box (DIM g) bmin bmax;
  ix ← reset_idx (DIM g) bmin (_idx g');
  '(neighborhood, ix) ← for_loop (Z.to_nat neighbors) 0
         (λ _ '(neighborhood, ix),
            c ← convertIndex_dim g ix;
            ix ← advance (DIM g) 0 bmin bmax ix;
            Some (neighborhood ++ [c], ix))
         ([], ix);
  Some (neighborhood, with_idx g ix).

(** [bool Grid::containsPoint(const double* x)], with [n] the number of axes
    left and [d] the axis under test. *)
Fixpoint containsPoint_from (n d : nat) (g : Grid) (x : list F) : option bool :=
  match n with
  | O => Some true
  | S n' =>
      xd ← x !! d; mx ← max g !! d;
      if d_ltb mx xd then Some false else
      mn ← min g !! d;
      if d_ltb xd mn then Some false
      else containsPoint_from n' (S d) g x
  end.

Definition containsPoint (g : Grid) (x : list F) : option bool :=
  containsPoint_from (DIM g) 0 g x.

(** The class invariant that [setDim] establishes: every member vector has
    [DIM] entries, and the entries of [N] are [uint]s. *)
Record sized (g : Grid) : Prop := mkSized {
  sized_N : length (N g) = DIM g;
  sized_max : length (max g) = DIM g;
  sized_min : length (min g) = DIM g;
  sized_raster : length (raster g) = DIM g;
  sized_cumN : length (cumN g) = DIM g;
  sized_stride : length (stride g) = DIM g;
  sized_strideinv : length (strideinv g) = DIM g;
  sized_idx : length (_idx g) = DIM g;
  sized_x : length (_x g) = DIM g;
  sized_uint : Forall is_uint (N g)
}.

(** A grid is finalized when [rasterize] produced it. *)
Definition finalized (g : Grid) : Prop :=
  ∃ g0, sized g0 ∧ rasterize g0 = Some g.

(** A dim index that names a node of the grid. *)
Definition in_range (g : Grid) (idx : list Z) : Prop :=
  length idx = DIM g ∧
  ∀ d i n, idx !! d = Some i → N g !! d = Some n → 0 ≤ i < n.

End Grid.

Arguments Grid F : clear implicits.

(** The grid obtained by the calls of the header comment of Grid.cpp:
    [setDim], [setN], [setMin], [setMax], [rasterize]. *)
Definition build {F} `{Double F} (dim : nat) (n : list Z) (lo hi : list F)
  : option (Grid F) :=
  g ← setN (setDim Grid_new dim) n;
  g ← setMin g lo;
  g ← setMax g hi;
  rasterize g.

(** ** The other methods of the class *)

Section GridMore.
Context {F : Type} `{Double F}.

Definition with_x (g : Grid F) (x : list F) : Grid F :=
  mkGrid (DIM g) (N g) (max g) (min g) (raster g) (cumN g) (stride g)
         (strideinv g) (nodeCount g) (_idx g) x.

(** [Grid::setMin(double minn)] and [Grid::setMax(double maxx)]: the one
    statement of each body is commented out in the source. *)
Definition setMin_all (g : Grid F) (minn : F) : Grid F := g.

Definition setMax_all (g : Grid F) (maxx : F) : Grid F := g.

(** [Grid::setN(uint N_)]: fills a local array of [DIM] entries and hands it
    to the other overload. *)
Definition setN_all (g : Grid F) (N_ : Z) : option (Grid F) :=
  N__ ← for_loop (DIM g) 0 (λ d v, store v d N_) (replicate (DIM g) 0);
  setN g N__.

(** [Grid::getNodeIndex(const double* x)].  [qRound] is Qt's, not part of
    the sources: it is a parameter, undefined where it says so. *)
Definition getNodeIndex (qRound : F → option Z) (g : Grid F) (x : list F)
  : option (Grid F) :=
  ix ← for_loop (DIM g) 0
         (λ d ix,
            xd ← x !! d; mn ← min g !! d; si ← strideinv g !! d; nd ← N g !! d;
            v ← qRound (d_mul (d_sub xd mn) si);
            let hi := to_int nd - 1 in
            if is_intb hi then store ix d (wrap (qBound 0 v hi)) else None)
         (_idx g);
  Some (with_idx g ix).

(** [uint Grid::getNodeFlatIndexBl(const double* x)]. *)
Definition getNodeFlatIndexBl (g : Grid F) (x : list F) : option (Z * Grid F) :=
  ix ← for_loop (DIM g) 0
         (λ d ix,
            xd ← x !! d; mn ← min g !! d; si ← strideinv g !! d; nd ← N g !! d;
            v ← d_to_int (d_mul (d_sub xd mn) si);
            let hi := to_int nd - 2 in
            if is_intb hi then store ix d (wrap (qBound 0 v hi)) else None)
         (_idx g);
  k ← convertIndex_dim g ix;
  Some (k, with_idx g ix).

(** [uint Grid::getNodeFlatIndex(const double* x)]. *)
Definition getNodeFlatIndex (qRound : F → option Z) (g : Grid F) (x : list F)
  : option (Z * Grid F) :=
  ix ← for_loop (DIM g) 0
         (λ d ix,
            xd ← x !! d; mn ← min g !! d; si ← strideinv g !! d; nd ← N g !! d;
            v ← qRound (d_mul (d_sub xd mn) si);
            let hi := to_int nd - 1 in
            if is_intb hi then store ix d (wrap (qBound 0 v hi)) else None)
         (_idx g);
  k ← convertIndex_dim g ix;
  Some (k, with_idx g ix).

(** The loop of both overloads of [getNodeCoordinates]:
    [_x[d] = raster[d][idx[d]]]. *)
Definition read_nodes (g : Grid F) (idx : list Z) : option (list F) :=
  for_loop (DIM g) 0
    (λ d x, i ← idx !! d; rd ← raster g !! d; c ← rd !! Z.to_nat i; store x d c)
    (_x g).

(** [const double* Grid::getNodeCoordinates(const uint* idx)]; the pointer
    returned is [_x] of the state returned. *)
Definition getNodeCoordinates_dim (g : Grid F) (idx : list Z) : option (Grid F) :=
  x ← read_nodes g idx;
  Some (with_x g x).

(** [const double* Grid::getNodeCoordinates(uint n)]. *)
Definition getNodeCoordinates_flat (g : Grid F) (n : Z) : option (Grid F) :=
  g' ← convertIndex_flat g n;
  x ← read_nodes g' (_idx g');
  Some (with_x g' x).

End GridMore.

(** ** Closed forms of the loops *)

(** The product of a list of node counts, before any reduction to [uint]. *)
Definition prod (l : list Z) : Z := foldr Z.mul 1 l.
Arguments prod : simpl never.

(** Mixed-radix digits of [v], axis 0 first. *)
Fixpoint digits (v : Z) (ns : list Z) : list Z :=
  match ns with
  | [] => []
  | n :: ns' => v mod n :: digits (v / n) ns'
  end.

(** The value of a mixed-radix numeral, axis 0 first. *)
Fixpoint horner (idx ns : list Z) : Z :=
  match idx, ns with
  | i :: idx', n :: ns' => i + n * horner idx' ns'
  | _, _ => 0
  end.

Section Closed.
Context {F : Type} `{Double F}.

Definition cumN_closed (ns : list Z) : list Z :=
  map (λ d, wrap (prod (take d ns))) (seq 0 (length ns)).

Definition stride_closed (g : Grid F) : list F :=
  zip_with (λ '(mx, mn) nd, d_div (d_sub mx mn) (d_of_uint (wrap (nd - 1))))
           (zip (max g) (min g)) (N g).

Definition axis_nodes (nd : Z) (mn sd : F) : list F :=
  map (λ n, d_add mn (d_mul (d_of_uint (Z.of_nat n)) sd)) (seq 0 (Z.to_nat nd)).

Definition raster_closed (g : Grid F) : list (list F) :=
  zip_with (λ '(mn, sd) nd, axis_nodes nd mn sd)
           (zip (min g) (stride_closed g)) (N g).

(** What [rasterize] leaves in the members, as a function of the configuration. *)
Definition derived (g : Grid F) : Grid F :=
  mkGrid (DIM g) (N g) (max g) (min g) (raster_closed g) (cumN_closed (N g))
         (stride_closed g) (map (d_div d_one) (stride_closed g))
         (wrap (prod (N g))) (_idx g) (_x g).

(** A sequence of coordinates that increases strictly, in the order of [F]. *)
Definition strictly_increasing (l : list F) : Prop :=
  ∀ i j a b, (i < j)%nat → l !! i = Some a → l !! j = Some b → d_ltb a b = true.

End Closed.

(** Binary64 values that are neither infinite nor NaN. *)
Definition finite64 (a : float) : bool :=
  match Prim2SF a with
  | S754_zero _ | S754_finite _ _ _ => true
  | _ => false
  end.

(** ** Concrete grids *)

(** The 3 x 3 grid on [0,2] x [0,2], configured and not yet rasterized. *)
Definition config33 : Grid float :=
  mkGrid 2 [3; 3] [2; 2]%float [0; 0]%float [[]; []] [0; 0] [0; 0]%float
         [0; 0]%float 0 [0; 0] [0; 0]%float.

Definition grid33 : Grid float := derived config33.

(** A grid of 256 x 256 x 256 x 257 nodes: more than a [uint] can count. *)
Definition config4 : Grid float :=
  mkGrid 4 [256; 256; 256; 257] [1; 1; 1; 1]%float [0; 0; 0; 0]%float
         [[]; []; []; []] [0; 0; 0; 0] [0; 0; 0; 0]%float [0; 0; 0; 0]%float 0
         [0; 0; 0; 0] [0; 0; 0; 0]%float.

Definition grid4 : Grid float := derived config4.

(** The grid of 2 nodes on [-2^1023, 2^1023], whose extent overflows. *)
Definition configBig : Grid float :=
  mkGrid 1 [2] [0x1p1023]%float [-0x1p1023]%float [[]] [0] [0]%float [0]%float
         0 [0] [0]%float.

Definition gridBig : Grid float := derived configBig.

(** The grid of 3 nodes on [2^53, 2^53+2], whose stride is one half of the
    spacing of binary64 there. *)
Definition configUlp : Grid float :=
  mkGrid 1 [3] [0x1.0000000000001p53]%float [0x1p53]%float [[]] [0] [0]%float
         [0]%float 0 [0] [0]%float.

Definition gridUlp : Grid float := derived configUlp.

(** The grid of 3 nodes with lower bound 0 and a NaN for upper bound. *)
Definition configNan : Grid float :=
  mkGrid 1 [3] [nan]%float [0]%float [[]] [0] [0]%float [0]%float 0 [0] [0]%float.

Definition gridNan : Grid float := derived configNan.

(** The grid of 50 nodes on [0,1]. *)
Definition config50 : Grid float :=
  mkGrid 1 [50] [1]%float [0]%float [[]] [0] [0]%float [0]%float 0 [0] [0]%float.

Definition grid50 : Grid float := derived config50.

(** The grid of 2 nodes on the interval [0,0]. *)
Definition config2 : Grid float :=
  mkGrid 1 [2] [0]%float [0]%float [[]] [0] [0]%float [0]%float 0 [0] [0]%float.

Definition grid2 : Grid float := derived config2.

(** The grid of a single node, with bounds 0 and 1. *)
Definition config1 : Grid float :=
  mkGrid 1 [1] [1]%float [0]%float [[]] [0] [0]%float [0]%float 0 [0] [0]%float.

Definition grid1 : Grid float := derived config1.

(** ** Auxiliary definitions *)

(** Binary64 values other than NaN. *)
Definition not_nan (a : float) : Prop := is_nan a = false.

(** The bounds of the box around [idx], as the first loop of
    [enumerateNeighborHood] computes them. *)
Definition nb_bmin (idx : list Z) (radius : Z) : list Z :=
  map (λ i, if i <? radius then 0 else wrap (i - radius)) idx.

Definition nb_bmax (idx ns : list Z) (radius : Z) : list Z :=
  zip_with (λ i n, Z.min (wrap (i + radius)) (wrap (n - 1))) idx ns.

(** The bounds of the box around [idx], as the first loop of
    [getEnvelopingNodes] computes them. *)
Definition env_bmin (idx : list Z) (radius : Z) : list Z :=
  map (λ i, Z.max (wrap (i - radius)) 0) idx.

Definition env_bmax (idx ns : list Z) (radius : Z) : list Z :=
  zip_with (λ i n, Z.min (wrap (wrap (i + radius) + 1)) (wrap (n - 1))) idx ns.

(** The number of nodes of a box along each axis. *)
Definition extents (lo hi : list Z) : list Z :=
  zip_with (λ l h, h - l + 1) lo hi.

(** The [k]-th node of the box from [lo] with extents [es], axis 0 running
    fastest, and the nodes of the box in that order. *)
Definition box_point (lo es : list Z) (k : Z) : list Z :=
  zip_with Z.add lo (digits k es).

Definition box_points (lo es : list Z) : list (list Z) :=
  map (λ k, box_point lo es (Z.of_nat k)) (seq 0 (Z.to_nat (prod es))).

(** The loop that both enumerations end with, [push] being what they do with
    the flat index of the node reached. *)
Definition enum_loop {F : Type} `{Double F} (push : list Z → Z → list Z)
    (g : Grid F) (bmin bmax : list Z) (nb : nat) (ix0 : list Z)
  : option (list Z * list Z) :=
  for_loop nb 0
    (λ _ '(neighborhood, ix),
       c ← convertIndex_dim g ix;
       ix' ← advance (DIM g) 0 bmin bmax ix;
       Some (push neighborhood c, ix'))
    ([], ix0).

(** Proves [sized] of a grid written out in full. *)
(** ** Binary64 rounding, on integers *)

(** Values of binary64 numbers, and products of two of them, are integers
    in units of 2^-2148. *)
Definition unit_exp : Z := 2148.

(** The value at which rounding overflows, 2^1024, in units. *)
Definition overflow64 : Z := 2 ^ (emax + unit_exp).

(** [v / 2^k] rounded to the nearest integer, ties to even. *)
Definition rne (v k : Z) : Z :=
  let q := v / 2 ^ k in
  match 2 * (v mod 2 ^ k) ?= 2 ^ k with
  | Lt => q
  | Eq => if Z.even q then q else q + 1
  | Gt => q + 1
  end.

(** The exponent, in units, at which a value is rounded. *)
Definition rexp (v : Z) : Z :=
  Z.max (Z.log2 v + 1 - prec) (SpecFloat.emin prec emax + unit_exp).

(** Rounding of a non-negative value to binary64, before overflow. *)
Definition RN (v : Z) : Z := rne v (rexp v) * 2 ^ rexp v.

(** The state of the shift register after [n >= 1] shifts of [m]: the
    quotient, the last bit shifted out and whether a bit before it was set. *)
Definition shr_state (m n : Z) : shr_record :=
  {| shr_m := m / 2 ^ n;
     shr_r := Z.odd (m / 2 ^ (n - 1));
     shr_s := negb (m mod 2 ^ (n - 1) =? 0) |}.

(** A magnitude with a sign bit. *)
Definition signed (s : bool) (v : Z) : Z := if s then - v else v.

(** The value of a binary64 number, in units of [2^-2148]; an infinity has
    the value at which rounding overflows. *)
Definition ival (x : spec_float) : Z :=
  match x with
  | S754_zero _ | S754_nan => 0
  | S754_infinity s => signed s overflow64
  | S754_finite s m e => signed s (Z.pos m * 2 ^ (e + unit_exp))
  end.

(** A number, not a NaN, with the sign bit [s]. *)
Definition has_sign (s : bool) (x : spec_float) : Prop :=
  match x with
  | S754_zero s' | S754_infinity s' | S754_finite s' _ _ => s' = s
  | S754_nan => False
  end.

(** Rounding of a value of either sign, infinities included. *)
Definition round64 (v : Z) : Z :=
  if 0 <=? v then Z.min overflow64 (RN v) else - Z.min overflow64 (RN (- v)).

(** Zero or a positive finite number. *)
Definition SF_nonneg_fin (x : spec_float) : Prop :=
  match x with
  | S754_zero _ | S754_finite false _ _ => True
  | _ => False
  end.

(** Zero, a positive finite number or the positive infinity. *)
Definition SF_nonneg (x : spec_float) : Prop :=
  match x with
  | S754_zero _ | S754_finite false _ _ | S754_infinity false => True
  | _ => False
  end.

(** Zero or a finite number of either sign. *)
Definition SF_fin (x : spec_float) : Prop :=
  match x with
  | S754_zero _ | S754_finite _ _ _ => True
  | _ => False
  end.

(** A sequence of binary64 coordinates that never decreases and holds no
    NaN. *)
Definition nondecreasing (l : list float) : Prop :=
  ∀ i j a b, (i ≤ j)%nat → l !! i = Some a → l !! j = Some b →
             (a <=? b)%float = true.

Ltac sized_tac :=
  constructor; simpl; try reflexivity; repeat constructor; unfold is_uint; lia.

(** ** Loops and vectors *)

Lemma store_Some {A} (v : list A) i a :
  (i < length v)%nat → store v i a = Some (<[i := a]> v).
Proof. intros Hi. unfold store. by rewrite decide_True. Qed.

Lemma store_inv {A} (v v' : list A) i a :
  store v i a = Some v' → (i < length v)%nat ∧ v' = <[i := a]> v.
Proof. unfold store. case_decide; naive_solver. Qed.

(** A loop whose body preserves an invariant runs to its end and
    establishes the invariant there. *)
Lemma for_loop_inv {St} (I : nat → St → Prop) n d body (s : St) :
  I d s →
  (∀ k s, (d ≤ k < d + n)%nat → I k s → ∃ s', body k s = Some s' ∧ I (S k) s') →
  ∃ s', for_loop n d body s = Some s' ∧ I (d + n)%nat s'.
Proof.
  revert d s. induction n as [|n IH]; intros d s Hd Hstep; simpl.
  - exists s. by rewrite Nat.add_0_r.
  - destruct (Hstep d s ltac:(lia) Hd) as (s1 & -> & H1). simpl.
    destruct (IH (S d) s1 H1) as (s2 & -> & H2).
    + intros k s' Hk. apply Hstep. lia.
    + exists s2. split; [done|]. by replace (d + S n)%nat with (S d + n)%nat by lia.
Qed.

(** What a loop that ran to its end establishes, when its body preserves an
    invariant wherever it is defined. *)
Lemma for_loop_inv_Some {St} (I : nat → St → Prop) n d body (s s' : St) :
  I d s →
  (∀ k s s', (d ≤ k < d + n)%nat → I k s → body k s = Some s' → I (S k) s') →
  for_loop n d body s = Some s' → I (d + n)%nat s'.
Proof.
  revert d s. induction n as [|n IH]; intros d s Hd Hstep; simpl.
  - intros [= <-]. by rewrite Nat.add_0_r.
  - destruct (body d s) as [s1|] eqn:Hb; simpl; [|done]. intros Hl.
    replace (d + S n)%nat with (S d + n)%nat by lia.
    apply (IH (S d) s1); [| |done].
    + apply (Hstep d s s1); [lia | done | done].
    + intros k s2 s3 Hk. apply Hstep. lia.
Qed.

(** The loop of the setters: the vector keeps its size, and a property of
    the entries that holds of what is copied in is kept. *)
Lemma copy_loop_inv {A} (P : A → Prop) dim (src v0 v : list A) :
  for_loop dim 0 (λ d m, a ← src !! d; store m d a) v0 = Some v →
  Forall P src → Forall P v0 → length v = length v0 ∧ Forall P v.
Proof.
  intros Hl Hsrc H0.
  refine (for_loop_inv_Some (λ _ m, length m = length v0 ∧ Forall P m)
            _ _ _ _ _ _ _ Hl); [done|].
  intros k m m' _ [Hlen HP] Hb.
  destruct (src !! k) as [a|] eqn:Ha; simpl in Hb; [|done].
  apply store_inv in Hb as [_ ->]. rewrite length_insert. split; [done|].
  apply Forall_insert; [done|]. exact (Forall_lookup_1 _ _ _ _ Hsrc Ha).
Qed.

Lemma take_store {A} (v w : list A) d a :
  (d < length v)%nat → w !! d = Some a → take d v = take d w →
  take (S d) (<[d := a]> v) = take (S d) w.
Proof.
  intros Hv Hw Ht.
  rewrite (take_S_r _ _ a); [| by rewrite list_lookup_insert_eq].
  rewrite take_insert_ge by lia. rewrite (take_S_r w _ a) by done. by rewrite Ht.
Qed.

Lemma take_all_eq {A} (v w : list A) n :
  length v = n → length w = n → take n v = take n w → v = w.
Proof. intros Hv Hw. rewrite !take_ge by lia. done. Qed.

(** ** Arithmetic of [uint] *)

Lemma wrap_uint z : is_uint z → wrap z = z.
Proof. unfold is_uint, wrap. intros Hz. by apply Z.mod_small. Qed.

Lemma wrap_is_uint z : is_uint (wrap z).
Proof. unfold is_uint, wrap. apply Z.mod_pos_bound. lia. Qed.

Lemma wrap_mul_l a b : wrap (wrap a * b) = wrap (a * b).
Proof. unfold wrap. by rewrite Z.mul_mod_idemp_l. Qed.

Lemma wrap_mul_r a b : wrap (a * wrap b) = wrap (a * b).
Proof. unfold wrap. by rewrite Z.mul_mod_idemp_r. Qed.

Lemma wrap_add_l a b : wrap (wrap a + b) = wrap (a + b).
Proof. unfold wrap. by rewrite Z.add_mod_idemp_l. Qed.

Lemma wrap_add_r a b : wrap (a + wrap b) = wrap (a + b).
Proof. unfold wrap. by rewrite Z.add_mod_idemp_r. Qed.

Lemma wrap_le z : 0 ≤ z → wrap z ≤ z.
Proof. unfold wrap. intros Hz. apply Z.mod_le; lia. Qed.

(** ** Products of node counts *)

Lemma prod_nil : prod [] = 1.
Proof. done. Qed.

Lemma prod_cons x l : prod (x :: l) = x * prod l.
Proof. done. Qed.

Lemma prod_app l k : prod (l ++ k) = prod l * prod k.
Proof.
  induction l as [|x l IH].
  - rewrite app_nil_l, prod_nil. lia.
  - rewrite <- app_comm_cons, !prod_cons, IH. lia.
Qed.

Lemma prod_take_S l d x :
  l !! d = Some x → prod (take (S d) l) = prod (take d l) * x.
Proof.
  intros Hd. rewrite (take_S_r _ _ x) by done.
  rewrite prod_app, prod_cons, prod_nil. lia.
Qed.

Lemma prod_nonneg l : Forall is_uint l → 0 ≤ prod l.
Proof.
  unfold is_uint. induction 1 as [|x l Hx _ IH]; [done|].
  rewrite prod_cons. apply Z.mul_nonneg_nonneg; lia.
Qed.

Lemma prod_pos_all l : Forall is_uint l → 0 < prod l → Forall (λ n, 0 < n) l.
Proof.
  induction 1 as [|x l Hx Hl IH]; [done|]. rewrite prod_cons. intros Hp.
  assert (0 ≤ prod l) by by apply prod_nonneg. unfold is_uint in Hx.
  assert (x ≠ 0 ∧ prod l ≠ 0) as [??] by (split; intros Hz; rewrite Hz in Hp; lia).
  constructor; [lia|]. apply IH. lia.
Qed.

(** ** [rasterize] in closed form *)

Section Rasterize.
Context {F : Type} `{Double F}.
Implicit Types g : Grid F.

Lemma cumN_closed_length ns : length (cumN_closed ns) = length ns.
Proof. unfold cumN_closed. by rewrite length_map, length_seq. Qed.

Lemma cumN_closed_lookup ns d :
  (d < length ns)%nat → cumN_closed ns !! d = Some (wrap (prod (take d ns))).
Proof.
  intros Hd. unfold cumN_closed. rewrite list_lookup_fmap, lookup_seq_lt by done.
  done.
Qed.

Lemma stride_closed_length g : sized g → length (stride_closed g) = DIM g.
Proof.
  intros [].  unfold stride_closed. rewrite length_zip_with, length_zip. lia.
Qed.

Lemma stride_closed_lookup g d mx mn nd :
  max g !! d = Some mx → min g !! d = Some mn → N g !! d = Some nd →
  stride_closed g !! d
  = Some (d_div (d_sub mx mn) (d_of_uint (wrap (nd - 1)))).
Proof.
  intros Hmx Hmn Hnd. unfold stride_closed.
  rewrite lookup_zip_with, lookup_zip_with, Hmx, Hmn, Hnd. done.
Qed.

Lemma axis_nodes_length nd (mn sd : F) :
  length (axis_nodes nd mn sd) = Z.to_nat nd.
Proof. unfold axis_nodes. by rewrite length_map, length_seq. Qed.

Lemma axis_nodes_lookup nd (mn sd : F) n :
  (n < Z.to_nat nd)%nat →
  axis_nodes nd mn sd !! n = Some (d_add mn (d_mul (d_of_uint (Z.of_nat n)) sd)).
Proof.
  intros Hn. unfold axis_nodes. by rewrite list_lookup_fmap, lookup_seq_lt.
Qed.

Lemma raster_closed_length g : sized g → length (raster_closed g) = DIM g.
Proof.
  intros Hg. pose proof (stride_closed_length g Hg). destruct Hg.
  unfold raster_closed. rewrite length_zip_with, length_zip. lia.
Qed.

Lemma raster_closed_lookup g d mn sd nd :
  min g !! d = Some mn → stride_closed g !! d = Some sd → N g !! d = Some nd →
  raster_closed g !! d = Some (axis_nodes nd mn sd).
Proof.
  intros Hmn Hsd Hnd. unfold raster_closed.
  rewrite lookup_zip_with, lookup_zip_with, Hmn, Hsd, Hnd. done.
Qed.

Lemma rasterize_axis_closed nd (mn sd : F) rd :
  rasterize_axis nd mn sd rd = Some (axis_nodes nd mn sd).
Proof.
  unfold rasterize_axis.
  edestruct (for_loop_inv
    (λ k (v : list F), length v = Z.to_nat nd ∧
                       take k v = take k (axis_nodes nd mn sd)))
    as (v & -> & Hl & Ht).
  - split; [by rewrite length_resize | done].
  - intros k v Hk [Hl Ht]. rewrite store_Some by lia. eexists. split; [done|].
    split; [by rewrite length_insert|].
    apply take_store; [lia | by apply axis_nodes_lookup; lia | done].
  - f_equal. simpl in Ht. eapply take_all_eq; [done | apply axis_nodes_length | done].
Qed.

Lemma sized_derived g : sized g → sized (derived g).
Proof.
  intros Hg. pose proof (stride_closed_length g Hg).
  pose proof (raster_closed_length g Hg). destruct Hg.
  constructor; simpl; try done.
  - by rewrite cumN_closed_length.
  - by rewrite length_map.
Qed.

Lemma derived_idem g : derived (derived g) = derived g.
Proof. done. Qed.

(** On a grid with at least one axis, [rasterize] runs to its end and leaves
    the closed forms in the members. *)
Lemma rasterize_derived g :
  sized g → (0 < DIM g)%nat → rasterize g = Some (derived g).
Proof.
  intros Hg Hdim. pose proof (stride_closed_length g Hg) as Hsl.
  pose proof (raster_closed_length g Hg) as Hrl. destruct Hg.
  unfold rasterize.
  destruct (lookup_lt_is_Some_2 (N g) 0%nat ltac:(lia)) as [n0 Hn0].
  rewrite Hn0. simpl.
  (* nodeCount *)
  edestruct (for_loop_inv (λ k nc, nc = wrap (prod (take k (N g)))))
    as (nc & -> & Hnc); simpl.
  { rewrite (prod_take_S _ _ n0) by done. simpl. rewrite Z.mul_1_l.
    symmetry. apply wrap_uint. eapply Forall_lookup_1; eauto. }
  { intros k nc Hk ->.
    destruct (lookup_lt_is_Some_2 (N g) k ltac:(lia)) as [nd Hnd].
    rewrite Hnd. simpl. eexists. split; [done|].
    by rewrite (prod_take_S _ _ nd), wrap_mul_l. }
  replace (1 + (DIM g - 1))%nat with (DIM g) in Hnc by lia.
  rewrite take_ge in Hnc by lia. subst nc.
  (* cumN *)
  rewrite store_Some by lia. simpl.
  edestruct (for_loop_inv
    (λ k (cum : list Z), length cum = DIM g ∧
                         take k cum = take k (cumN_closed (N g))))
    as (cum & -> & Hcl & Hct); simpl.
  { split; [by rewrite length_insert|].
    apply take_store; [lia | by apply cumN_closed_lookup; lia | done]. }
  { intros k cum Hk [Hcl Hct].
    assert (cum !! (k - 1)%nat = Some (wrap (prod (take (k - 1) (N g))))) as ->.
    { rewrite <- (lookup_take_lt _ k) by lia. rewrite Hct, lookup_take_lt by lia.
      apply cumN_closed_lookup. lia. }
    destruct (lookup_lt_is_Some_2 (N g) (k - 1)%nat ltac:(lia)) as [nd Hnd].
    rewrite Hnd. simpl. rewrite store_Some by lia. eexists. split; [done|].
    split; [by rewrite length_insert|].
    apply take_store; [lia | | done].
    rewrite cumN_closed_lookup by lia. f_equal.
    replace k with (S (k - 1)) at 1 by lia.
    by rewrite (prod_take_S _ _ nd), wrap_mul_l. }
  replace (1 + (DIM g - 1))%nat with (DIM g) in Hct by lia.
  eapply take_all_eq in Hct; [| done | by rewrite cumN_closed_length].
  subst cum.
  (* stride, strideinv, raster *)
  edestruct (for_loop_inv
    (λ k '(st, sti, ra),
       (length st = DIM g ∧ take k st = take k (stride_closed g)) ∧
       (length sti = DIM g ∧
        take k sti = take k (map (d_div d_one) (stride_closed g))) ∧
       (length ra = DIM g ∧ take k ra = take k (raster_closed g))))
    as ([[st sti] ra] & -> & (Hs1 & Hs2) & (Hi1 & Hi2) & (Hr1 & Hr2)); simpl.
  { done. }
  { intros k [[st sti] ra] Hk ((Hs1 & Hs2) & (Hi1 & Hi2) & (Hr1 & Hr2)).
    destruct (lookup_lt_is_Some_2 (max g) k ltac:(lia)) as [mx Hmx].
    destruct (lookup_lt_is_Some_2 (min g) k ltac:(lia)) as [mn Hmn].
    destruct (lookup_lt_is_Some_2 (N g) k ltac:(lia)) as [nd Hnd].
    destruct (lookup_lt_is_Some_2 ra k ltac:(lia)) as [rd Hrd].
    rewrite Hmx, Hmn, Hnd. simpl. rewrite store_Some by lia. simpl.
    rewrite list_lookup_insert_eq by lia. simpl.
    rewrite store_Some by lia. simpl. rewrite Hrd. simpl.
    rewrite rasterize_axis_closed. simpl. rewrite store_Some by lia. simpl.
    eexists. split; [done|].
    pose proof (stride_closed_lookup g k _ _ _ Hmx Hmn Hnd) as Hsk.
    cbv beta iota. rewrite !length_insert. split_and!; try done.
    - by apply take_store; [lia | |].
    - apply take_store; [lia | | done]. by rewrite list_lookup_fmap, Hsk.
    - apply take_store; [lia | | done]. by apply raster_closed_lookup. }
  eapply take_all_eq in Hs2; [| done | done].
  eapply take_all_eq in Hi2; [| done | by rewrite length_map].
  eapply take_all_eq in Hr2; [| done | done].
  by subst.
Qed.

Lemma rasterize_inv g g' :
  sized g → rasterize g = Some g' → (0 < DIM g)%nat ∧ g' = derived g.
Proof.
  intros Hg Hr. destruct (DIM g) as [|n] eqn:Hd.
  - exfalso. unfold rasterize in Hr. destruct Hg.
    destruct (N g) as [|??]; simpl in *; [done | lia].
  - split; [lia|]. rewrite rasterize_derived in Hr by (done || lia). congruence.
Qed.

Lemma finalized_inv g :
  finalized g → ∃ g0, sized g0 ∧ (0 < DIM g0)%nat ∧ g = derived g0.
Proof.
  intros (g0 & Hs & Hr). exists g0. apply rasterize_inv in Hr as [??]; done.
Qed.

Lemma finalized_sized g : finalized g → sized g ∧ (0 < DIM g)%nat.
Proof.
  intros (g0 & Hs & Hd & ->)%finalized_inv. split; [by apply sized_derived | done].
Qed.

(** The calls of the header comment of Grid.cpp lead to a finalized grid. *)
Lemma sized_setDim g d : Forall is_uint (N g) → sized (setDim g d).
Proof.
  intros Hu. constructor; simpl; rewrite ?length_resize; try done.
  apply Forall_resize; [|done]. unfold is_uint. lia.
Qed.

Lemma build_finalized dim n (lo hi : list F) g :
  Forall is_uint n → build dim n lo hi = Some g → finalized g.
Proof.
  intros Hn Hb. unfold build in Hb.
  pose proof (sized_setDim Grid_new dim ltac:(constructor)) as H0.
  set (g0 := setDim Grid_new dim) in *.
  destruct (setN g0 n) as [g1|] eqn:H1; simpl in Hb; [|done].
  destruct (setMin g1 lo) as [g2|] eqn:H2; simpl in Hb; [|done].
  destruct (setMax g2 hi) as [g3|] eqn:H3; simpl in Hb; [|done].
  exists g3. split; [|done].
  unfold setN in H1. destruct (for_loop _ _ _ (N g0)) as [n1|] eqn:L1; [|done].
  unfold setMin in H2. destruct (for_loop _ _ _ (min g1)) as [m2|] eqn:L2; [|done].
  unfold setMax in H3. destruct (for_loop _ _ _ (max g2)) as [m3|] eqn:L3; [|done].
  simplify_eq/=. destruct H0.
  apply (copy_loop_inv is_uint) in L1 as [??]; [|done..].
  apply (copy_loop_inv (λ _, True)) in L2 as [? _]; [|by apply Forall_true..].
  apply (copy_loop_inv (λ _, True)) in L3 as [? _]; [|by apply Forall_true..].
  constructor; simpl in *; congruence.
Qed.

End Rasterize.

(** ** Mixed-radix numerals *)

Lemma prod_pos l : Forall (λ n, 0 < n) l → 0 < prod l.
Proof.
  induction 1 as [|x l Hx _ IH]; [done|]. rewrite prod_cons. lia.
Qed.

Lemma digits_length v ns : length (digits v ns) = length ns.
Proof. revert v. induction ns as [|n ns IH]; intros v; simpl; [done|]. by rewrite IH. Qed.

Lemma digits_in_range v ns :
  Forall (λ n, 0 < n) ns → Forall2 (λ i n, 0 ≤ i < n) (digits v ns) ns.
Proof.
  intros Hns. revert v. induction Hns as [|n ns Hn _ IH]; intros v; simpl.
  - constructor.
  - constructor; [|apply IH]. apply Z.mod_pos_bound. lia.
Qed.

Lemma horner_digits v ns :
  Forall (λ n, 0 < n) ns → horner (digits v ns) ns = v mod prod ns.
Proof.
  intros Hns. revert v. induction Hns as [|n ns Hn Hns IH]; intros v; simpl.
  - rewrite prod_nil. by rewrite Z.mod_1_r.
  - rewrite IH, prod_cons. rewrite Z.rem_mul_r; [done | lia | by apply prod_pos].
Qed.

Lemma horner_bound idx ns :
  Forall2 (λ i n, 0 ≤ i < n) idx ns → 0 ≤ horner idx ns < prod ns.
Proof.
  induction 1 as [|i n idx ns Hi _ IH]; simpl.
  - rewrite prod_nil. lia.
  - rewrite prod_cons. nia.
Qed.

Lemma digits_horner idx ns :
  Forall2 (λ i n, 0 ≤ i < n) idx ns → digits (horner idx ns) ns = idx.
Proof.
  induction 1 as [|i n idx ns Hi _ IH]; simpl; [done|].
  rewrite (Z.mul_comm n), Z_mod_plus_full, Z.mod_small by lia.
  rewrite Z.div_add by lia. rewrite Z.div_small by lia. rewrite Z.add_0_l. by rewrite IH.
Qed.

Lemma horner_snoc idx ns i n :
  length idx = length ns →
  horner (idx ++ [i]) (ns ++ [n]) = horner idx ns + prod ns * i.
Proof.
  revert ns. induction idx as [|j idx IH]; intros [|m ns] Hl; simplify_eq/=.
  - rewrite prod_nil. lia.
  - rewrite IH by done. rewrite prod_cons. lia.
Qed.

Lemma horner_take_S idx ns k i n :
  idx !! k = Some i → ns !! k = Some n →
  horner (take (S k) idx) (take (S k) ns)
  = horner (take k idx) (take k ns) + prod (take k ns) * i.
Proof.
  intros Hi Hn. rewrite (take_S_r _ _ i), (take_S_r _ _ n) by done.
  apply horner_snoc. apply lookup_lt_Some in Hi, Hn.
  rewrite !length_take. lia.
Qed.

(** ** The index conversions in closed form *)

Section Index.
Context {F : Type} `{Double F}.
Implicit Types g : Grid F.

(** The dim-to-flat conversion reads [idx] and [cumN] inside their bounds
    whenever both have [DIM] entries and there is an axis. *)
Lemma convertIndex_dim_total g idx :
  (0 < DIM g)%nat → length idx = DIM g → length (cumN g) = DIM g →
  ∃ k, convertIndex_dim g idx = Some k.
Proof.
  intros Hd Hi Hc. unfold convertIndex_dim.
  destruct (lookup_lt_is_Some_2 idx 0%nat ltac:(lia)) as [i0 ->]. simpl.
  edestruct (for_loop_inv (λ _ (_ : Z), True)) as (k & -> & _); [done | | by eexists].
  intros k acc Hk _.
  destruct (lookup_lt_is_Some_2 idx k ltac:(lia)) as [i ->].
  destruct (lookup_lt_is_Some_2 (cumN g) k ltac:(lia)) as [c ->].
  simpl. by eexists.
Qed.

Lemma convertIndex_dim_closed g idx :
  (0 < DIM g)%nat → length idx = DIM g → length (N g) = DIM g →
  cumN g = cumN_closed (N g) → Forall is_uint idx →
  convertIndex_dim g idx = Some (wrap (horner idx (N g))).
Proof.
  intros Hd Hi Hn Hc Hu. unfold convertIndex_dim.
  destruct (lookup_lt_is_Some_2 idx 0%nat ltac:(lia)) as [i0 Hi0].
  destruct (lookup_lt_is_Some_2 (N g) 0%nat ltac:(lia)) as [n0 Hn0].
  rewrite Hi0. simpl.
  edestruct (for_loop_inv
    (λ k acc, acc = wrap (horner (take k idx) (take k (N g)))))
    as (k & -> & Hk).
  - rewrite (horner_take_S _ _ _ i0 n0) by done. rewrite !take_0. simpl.
    rewrite prod_nil. rewrite Z.mul_1_l.
    symmetry. apply wrap_uint. eapply Forall_lookup_1; eauto.
  - intros k acc Hk ->.
    destruct (lookup_lt_is_Some_2 idx k ltac:(lia)) as [i Hik].
    destruct (lookup_lt_is_Some_2 (N g) k ltac:(lia)) as [n Hnk].
    rewrite Hik, Hc, cumN_closed_lookup by lia. simpl. eexists. split; [done|].
    rewrite (horner_take_S _ _ _ i n) by done.
    rewrite wrap_mul_r, wrap_add_r, wrap_add_l.
    f_equal. lia.
  - replace (1 + (DIM g - 1))%nat with (DIM g) in Hk by lia.
    rewrite !take_ge in Hk by lia. by subst.
Qed.

Lemma convertIndex_flat_closed g v :
  length (N g) = DIM g → length (_idx g) = DIM g → Forall (λ n, 0 < n) (N g) →
  convertIndex_flat g v = Some (with_idx g (digits v (N g))).
Proof.
  intros Hn Hi Hpos. unfold convertIndex_flat.
  edestruct (for_loop_inv
    (λ k '(v', ix),
       length ix = DIM g ∧ take k ix = take k (digits v (N g)) ∧
       drop k (digits v (N g)) = digits v' (drop k (N g))))
    as ([v' ix] & -> & Hl & Ht & _); simpl.
  - done.
  - intros k [v' ix] Hk (Hl & Ht & Hdr).
    destruct (lookup_lt_is_Some_2 (N g) k ltac:(lia)) as [n Hnk].
    rewrite Hnk. simpl.
    assert (0 < n) by (eapply (Forall_lookup_1 _ _ _ _ Hpos); eauto).
    rewrite decide_False by lia. rewrite store_Some by lia. simpl.
    eexists. split; [done|]. cbv beta iota.
    rewrite (drop_S (N g) n k) in Hdr by done. simpl in Hdr.
    rewrite length_insert. split_and!; [done | |].
    + apply take_store; [lia | | done].
      rewrite <- (Nat.add_0_r k), <- lookup_drop, Hdr. done.
    + replace (S k) with (k + 1)%nat by lia.
      rewrite <- (drop_drop (digits v (N g)) 1 k), Hdr. simpl.
      rewrite drop_0. f_equal. by rewrite Nat.add_1_r.
  - f_equal. f_equal. eapply take_all_eq; [done | | done].
    by rewrite digits_length.
Qed.

(** Both directions of the conversion, on a finalized grid.  The first holds
    of every [uint] below the number of nodes, also where that number is
    too large for [nodeCount]. *)
Lemma flat_dim_flat_prod g flat :
  finalized g → is_uint flat → flat < prod (N g) →
  Forall2 (λ i n, 0 ≤ i < n) (digits flat (N g)) (N g) ∧
  convertIndex_flat g flat = Some (with_idx g (digits flat (N g))) ∧
  convertIndex_dim (with_idx g (digits flat (N g))) (digits flat (N g)) = Some flat.
Proof.
  intros (g0 & Hs & Hd & ->)%finalized_inv Hu Hf. simpl in *. destruct Hs.
  unfold is_uint in Hu.
  assert (Forall (λ n, 0 < n) (N g0)) as Hpos by (apply prod_pos_all; [done | lia]).
  pose proof (digits_in_range flat _ Hpos) as Hr.
  split; [done|]. split; [by apply (convertIndex_flat_closed (derived g0))|].
  rewrite convertIndex_dim_closed; simpl; try done.
  - rewrite horner_digits by done. rewrite Z.mod_small by lia.
    f_equal. apply wrap_uint. unfold is_uint. lia.
  - by rewrite digits_length.
  - apply Forall2_Forall_l with (Q := is_uint) in Hr; [done|].
     eapply Forall_impl; [apply sized_uint0|]. unfold is_uint. intros; lia.
Qed.

Lemma nodeCount_le_prod g flat :
  finalized g → 0 ≤ flat < nodeCount g → is_uint flat ∧ flat < prod (N g).
Proof.
  intros (g0 & Hs & Hd & ->)%finalized_inv Hf. simpl in *. destruct Hs.
  assert (0 ≤ prod (N g0)) by by apply prod_nonneg.
  pose proof (wrap_le (prod (N g0)) ltac:(done)).
  pose proof (wrap_is_uint (prod (N g0))) as Hw. unfold is_uint in *. lia.
Qed.

Lemma flat_dim_flat g flat :
  finalized g → 0 ≤ flat < nodeCount g →
  Forall2 (λ i n, 0 ≤ i < n) (digits flat (N g)) (N g) ∧
  convertIndex_flat g flat = Some (with_idx g (digits flat (N g))) ∧
  convertIndex_dim (with_idx g (digits flat (N g))) (digits flat (N g)) = Some flat.
Proof.
  intros Hg Hf. destruct (nodeCount_le_prod g flat Hg Hf).
  by apply flat_dim_flat_prod.
Qed.

Lemma in_range_Forall2 g idx :
  in_range g idx → length (N g) = DIM g →
  Forall2 (λ i n, 0 ≤ i < n) idx (N g).
Proof.
  intros [Hl Hr] Hn. apply Forall2_same_length_lookup. split; [lia | eauto].
Qed.

Lemma dim_flat_dim g idx :
  finalized g → in_range g idx → prod (N g) ≤ 4294967296 →
  convertIndex_dim g idx = Some (horner idx (N g)) ∧
  convertIndex_flat g (horner idx (N g)) = Some (with_idx g idx).
Proof.
  intros (g0 & Hs & Hd & ->)%finalized_inv Hr Hp.
  pose proof (in_range_Forall2 _ _ Hr) as H2.
  destruct Hr as [Hl _]. simpl in *. destruct Hs.
  specialize (H2 ltac:(done)).
  pose proof (horner_bound _ _ H2) as Hb.
  assert (Forall (λ n, 0 < n) (N g0)) as Hpos.
  { eapply Forall2_Forall_r; [apply H2|]. apply Forall_true. intros; lia. }
  split.
  - rewrite convertIndex_dim_closed; simpl; try done.
    + f_equal. apply wrap_uint. unfold is_uint. lia.
    + eapply Forall2_Forall_l; [apply H2|].
      eapply Forall_impl; [apply sized_uint0|]. unfold is_uint. intros; lia.
  - rewrite (convertIndex_flat_closed (derived g0)); simpl; try done.
    by rewrite digits_horner.
Qed.

End Index.

(** ** The enumeration of a neighbourhood *)

Lemma nb_bmin_0 idx : Forall is_uint idx → nb_bmin idx 0 = idx.
Proof.
  unfold nb_bmin. induction 1 as [|i idx Hi _ IH]; simpl; [done|].
  rewrite IH. f_equal. unfold is_uint in Hi.
  rewrite (proj2 (Z.ltb_ge i 0)) by lia. rewrite Z.sub_0_r. by apply wrap_uint.
Qed.

Lemma nb_bmax_0 idx ns :
  Forall is_uint ns → Forall2 (λ i n, 0 ≤ i < n) idx ns → nb_bmax idx ns 0 = idx.
Proof.
  unfold nb_bmax. intros Hu H2. induction H2 as [|i n idx ns Hi _ IH]; simpl; [done|].
  inversion_clear Hu as [|?? Hn Hns]. rewrite IH by done. f_equal.
  unfold is_uint in Hn. rewrite Z.add_0_r.
  rewrite !wrap_uint by (unfold is_uint; lia). lia.
Qed.

Lemma advance_total n d (bmin bmax ix : list Z) :
  (d + n ≤ length ix)%nat → (d + n ≤ length bmin)%nat → (d + n ≤ length bmax)%nat →
  ∃ ix', advance n d bmin bmax ix = Some ix' ∧ length ix' = length ix.
Proof.
  revert d ix. induction n as [|n IH]; intros d ix Hi Hlo Hhi; simpl.
  - by exists ix.
  - destruct (lookup_lt_is_Some_2 ix d ltac:(lia)) as [v ->]. simpl.
    rewrite store_Some by lia. simpl. rewrite list_lookup_insert_eq by lia. simpl.
    destruct (lookup_lt_is_Some_2 bmax d ltac:(lia)) as [hi ->]. simpl.
    destruct (wrap (v + 1) <=? hi).
    + eexists. split; [done|]. by rewrite length_insert.
    + destruct (lookup_lt_is_Some_2 bmin d ltac:(lia)) as [lo ->]. simpl.
      rewrite store_Some by (rewrite length_insert; lia). simpl.
      destruct (IH (S d) (<[d:=lo]> (<[d:=wrap (v + 1)]> ix)))
        as (ix' & -> & Hl); rewrite ?length_insert; try lia.
      exists ix'. split; [done|]. by rewrite Hl, !length_insert.
Qed.

Lemma count_box_total dim (bmin bmax : list Z) :
  (dim ≤ length bmin)%nat → (dim ≤ length bmax)%nat →
  ∃ nb, count_box dim bmin bmax = Some nb.
Proof.
  intros Hlo Hhi. unfold count_box.
  edestruct (for_loop_inv (λ _ (_ : Z), True)) as (nb & -> & _); [done | | by eexists].
  intros k nb Hk _.
  destruct (lookup_lt_is_Some_2 bmax k ltac:(lia)) as [hi ->].
  destruct (lookup_lt_is_Some_2 bmin k ltac:(lia)) as [lo ->].
  simpl. by eexists.
Qed.

(** A box that is one node wide on every axis has one node. *)
Lemma count_box_point dim (b : list Z) :
  (dim ≤ length b)%nat → count_box dim b b = Some 1.
Proof.
  intros Hb. unfold count_box.
  edestruct (for_loop_inv (λ _ nb, nb = 1)) as (nb & -> & ->); [done | | done].
  intros k nb Hk ->.
  destruct (lookup_lt_is_Some_2 b k ltac:(lia)) as [i ->]. simpl.
  eexists. split; [done|]. by rewrite Z.sub_diag.
Qed.

Lemma reset_idx_closed dim (bmin ix : list Z) :
  length bmin = dim → length ix = dim → reset_idx dim bmin ix = Some bmin.
Proof.
  intros Hb Hi. unfold reset_idx.
  edestruct (for_loop_inv
    (λ k (v : list Z), length v = dim ∧ take k v = take k bmin))
    as (v & -> & Hl & Ht); [done | |].
  - intros k v Hk [Hl Ht].
    destruct (lookup_lt_is_Some_2 bmin k ltac:(lia)) as [lo Hlo].
    rewrite Hlo. simpl. rewrite store_Some by lia. eexists. split; [done|].
    split; [by rewrite length_insert|]. apply take_store; [lia | done | done].
  - f_equal. simpl in Ht. by eapply take_all_eq.
Qed.

Section Neighborhood.
Context {F : Type} `{Double F}.
Implicit Types g : Grid F.

Lemma nb_box_closed g idx radius :
  length idx = DIM g → length (N g) = DIM g →
  for_loop (DIM g) 0
    (λ d '(bmin, bmax),
       i ← idx !! d; n ← N g !! d;
       bmin ← store bmin d (if i <? radius then 0 else wrap (i - radius));
       bmax ← store bmax d (Z.min (wrap (i + radius)) (wrap (n - 1)));
       Some (bmin, bmax))
    (replicate (DIM g) 0, replicate (DIM g) 0)
  = Some (nb_bmin idx radius, nb_bmax idx (N g) radius).
Proof.
  intros Hi Hn.
  edestruct (for_loop_inv
    (λ k '(bmin, bmax),
       (length bmin = DIM g ∧ take k bmin = take k (nb_bmin idx radius)) ∧
       (length bmax = DIM g ∧ take k bmax = take k (nb_bmax idx (N g) radius))))
    as ([bmin bmax] & -> & (Hl1 & Ht1) & (Hl2 & Ht2)).
  - cbv beta iota. by rewrite length_replicate.
  - intros k [bmin bmax] Hk ((Hl1 & Ht1) & (Hl2 & Ht2)).
    destruct (lookup_lt_is_Some_2 idx k ltac:(lia)) as [i Hik].
    destruct (lookup_lt_is_Some_2 (N g) k ltac:(lia)) as [n Hnk].
    rewrite Hik, Hnk. simpl. rewrite !store_Some by lia. simpl.
    eexists. split; [done|]. cbv beta iota. rewrite !length_insert.
    split_and!; try done.
    + apply take_store; [lia | | done].
      unfold nb_bmin. by rewrite list_lookup_fmap, Hik.
    + apply take_store; [lia | | done].
      unfold nb_bmax. by rewrite lookup_zip_with, Hik, Hnk.
  - simpl in Ht1, Ht2. f_equal. f_equal.
    + eapply take_all_eq; [done | | done]. unfold nb_bmin. by rewrite length_map.
    + eapply take_all_eq; [done | | done]. unfold nb_bmax.
      rewrite length_zip_with. lia.
Qed.

(** The enumeration runs to its end and leaves the centre out. *)
Lemma enumerateNeighborHood_excl g idx radius :
  (0 < DIM g)%nat → length (N g) = DIM g → length (cumN g) = DIM g →
  length (_idx g) = DIM g → length idx = DIM g →
  ∃ c nbh g', convertIndex_dim g idx = Some c ∧
              enumerateNeighborHood g idx radius = Some (nbh, g') ∧ c ∉ nbh.
Proof.
  intros Hd Hn Hc Hx Hi. unfold enumerateNeighborHood.
  destruct (convertIndex_dim_total g idx) as [c Hcen]; [done..|].
  rewrite Hcen. simpl. rewrite nb_box_closed by done. simpl.
  set (bmin := nb_bmin idx radius). set (bmax := nb_bmax idx (N g) radius).
  assert (length bmin = DIM g) as Hlo by (unfold bmin, nb_bmin; by rewrite length_map).
  assert (length bmax = DIM g) as Hhi
    by (unfold bmax, nb_bmax; rewrite length_zip_with; lia).
  destruct (count_box_total (DIM g) bmin bmax) as [nb ->]; [lia..|]. simpl.
  rewrite reset_idx_closed by done. simpl.
  edestruct (for_loop_inv
    (λ (_ : nat) (s : list Z * list Z), length (s.2) = DIM g ∧ c ∉ s.1))
    as ([nbh ix] & -> & Hl & Hnot).
  - split; [done|]. apply not_elem_of_nil.
  - intros k [nbh ix] _ [Hl Hnot]. simpl in Hl, Hnot.
    destruct (convertIndex_dim_total g ix) as [c' ->]; [done..|]. simpl.
    destruct (advance_total (DIM g) 0 bmin bmax ix) as (ix' & -> & Hl'); [lia..|].
    simpl. eexists. split; [done|]. simpl. split; [lia|].
    case_decide; [|done]. rewrite elem_of_app, list_elem_of_singleton.
    intros [?| ->]; done.
  - simpl. exists c, nbh, (with_idx g ix). done.
Qed.

(** With radius 0 the box is the centre alone, and nothing is returned. *)
Lemma enumerateNeighborHood_zero g idx :
  (0 < DIM g)%nat → length (N g) = DIM g → length (cumN g) = DIM g →
  length (_idx g) = DIM g → Forall is_uint (N g) → in_range g idx →
  ∃ g', enumerateNeighborHood g idx 0 = Some ([], g').
Proof.
  intros Hd Hn Hc Hx Hu Hr. pose proof (in_range_Forall2 _ _ Hr Hn) as H2.
  destruct Hr as [Hi _]. unfold enumerateNeighborHood.
  destruct (convertIndex_dim_total g idx) as [c Hcen]; [done..|].
  rewrite Hcen. simpl. rewrite nb_box_closed by done. simpl.
  assert (Forall is_uint idx) as Hui.
  { eapply Forall2_Forall_l; [apply H2|].
    eapply Forall_impl; [apply Hu|]. unfold is_uint. intros; lia. }
  rewrite nb_bmin_0, nb_bmax_0 by done.
  rewrite count_box_point by lia. simpl. rewrite reset_idx_closed by done.
  simpl. rewrite Hcen. simpl.
  destruct (advance_total (DIM g) 0 idx idx idx) as (ix' & -> & _); [lia..|].
  simpl. rewrite decide_False by naive_solver. by eexists.
Qed.

End Neighborhood.

(** ** Facts about the concrete grids *)

Lemma sized_config33 : sized config33.
Proof. sized_tac. Qed.

Lemma build_grid33 : build 2 [3; 3] [0; 0]%float [2; 2]%float = Some grid33.
Proof. vm_compute. reflexivity. Qed.

Lemma finalized_grid33 : finalized grid33.
Proof. exists config33. split; [apply sized_config33 | vm_compute; reflexivity]. Qed.

Lemma in_range_grid33_corner : in_range grid33 [0; 0].
Proof.
  split; [reflexivity|]. intros [|[|d]] i n; simpl; intros Hi Hn; simplify_eq; lia.
Qed.

Lemma sized_config4 : sized config4.
Proof. sized_tac. Qed.

Lemma build_grid4 :
  build 4 [256; 256; 256; 257] [0; 0; 0; 0]%float [1; 1; 1; 1]%float = Some grid4.
Proof. vm_compute. reflexivity. Qed.

Lemma finalized_grid4 : finalized grid4.
Proof. exists config4. split; [apply sized_config4 | vm_compute; reflexivity]. Qed.

Lemma in_range_grid4 : in_range grid4 [0; 0; 0; 256].
Proof.
  split; [reflexivity|].
  intros [|[|[|[|d]]]] i n; simpl; intros Hi Hn; simplify_eq; lia.
Qed.

(** ** The index conversions are inverse to each other *)

Section IndexTheorems.
Context {F : Type} `{Double F}.
Implicit Types g : Grid F.

(** C1. On a finalized grid, a flat index below [nodeCount] converted to a
    dim index (left in [_idx]) and converted back is the flat index again;
    neither conversion leaves its vectors or divides by zero. *)
Theorem convertIndex_flat_dim_flat g flat :
  finalized g → 0 ≤ flat < nodeCount g →
  ∃ g', convertIndex_flat g flat = Some g' ∧
        convertIndex_dim g' (_idx g') = Some flat.
Proof.
  intros Hg Hf. destruct (flat_dim_flat g flat Hg Hf) as (_ & H1 & H2).
  eexists. split; [exact H1 | exact H2].
Qed.

(** C10, amended. On a finalized grid whose number of nodes, the product of
    the entries of [N], is at most 2^32, a dim index inside the grid
    converted to a flat index and converted back is the dim index again. *)
Theorem convertIndex_dim_flat_dim g idx :
  finalized g → in_range g idx → prod (N g) ≤ 4294967296 →
  ∃ flat g', convertIndex_dim g idx = Some flat ∧
             convertIndex_flat g flat = Some g' ∧ _idx g' = idx.
Proof.
  intros Hg Hr Hp. destruct (dim_flat_dim g idx Hg Hr Hp) as [H1 H2].
  eexists _, _. split; [exact H1|]. split; [exact H2 | done].
Qed.

End IndexTheorems.

Lemma convertIndex_flat_dim_flat_witness :
  finalized grid33 ∧ 0 ≤ 4 < nodeCount grid33 ∧
  ∃ g', convertIndex_flat grid33 4 = Some g' ∧
        convertIndex_dim g' (_idx g') = Some 4.
Proof.
  split; [exact finalized_grid33|]. split; [vm_compute; split; [discriminate | reflexivity]|].
  apply (convertIndex_flat_dim_flat grid33 4 finalized_grid33).
  vm_compute. split; [discriminate | reflexivity].
Defined.

Lemma convertIndex_dim_flat_dim_witness :
  finalized grid33 ∧ in_range grid33 [0; 0] ∧ prod (N grid33) ≤ 4294967296 ∧
  ∃ flat g', convertIndex_dim grid33 [0; 0] = Some flat ∧
             convertIndex_flat grid33 flat = Some g' ∧ _idx g' = [0; 0].
Proof.
  split; [exact finalized_grid33|]. split; [exact in_range_grid33_corner|].
  split; [vm_compute; discriminate|].
  apply (convertIndex_dim_flat_dim grid33 [0; 0] finalized_grid33
           in_range_grid33_corner).
  vm_compute. discriminate.
Defined.

(** C10 as stated fails where the node count overflows [uint]: on the grid
    of 256 x 256 x 256 x 257 nodes the dim index [0,0,0,256] is inside the
    grid, its flat index 256 * 2^24 wraps to 0, and 0 converts back to
    [0,0,0,0]. *)
Lemma convertIndex_dim_flat_dim_overflow :
  finalized grid4 ∧ in_range grid4 [0; 0; 0; 256] ∧
  convertIndex_dim grid4 [0; 0; 0; 256] = Some 0 ∧
  ∃ g', convertIndex_flat grid4 0 = Some g' ∧ _idx g' = [0; 0; 0; 0] ∧
        _idx g' ≠ [0; 0; 0; 256].
Proof.
  split; [exact finalized_grid4|]. split; [exact in_range_grid4|].
  split; [vm_compute; reflexivity|].
  eexists. split; [vm_compute; reflexivity|]. split; [reflexivity | discriminate].
Qed.

(** ** The neighbourhood of a node *)

Section NeighborhoodTheorems.
Context {F : Type} `{Double F}.
Implicit Types g : Grid F.

Lemma finalized_with_idx g ix :
  finalized g → length ix = DIM g → finalized (with_idx g ix).
Proof.
  intros (g0 & Hs & Hr) Hl. apply rasterize_inv in Hr as [Hd ->]; [|done].
  exists (with_idx g0 ix). split.
  - destruct Hs. constructor; simpl in *; done.
  - rewrite rasterize_derived; [done | | done].
    destruct Hs. constructor; simpl in *; done.
Qed.

(** C3. On a finalized grid, for a centre inside the grid, given by its dim
    index or by its flat index: with radius 0 the enumeration returns the
    empty sequence, and with any radius it returns a sequence that does not
    contain the flat index of the centre. *)
Theorem enumerateNeighborHood_excludes_center g idx radius :
  finalized g → in_range g idx → is_uint radius →
  (∃ g', enumerateNeighborHood g idx 0 = Some ([], g')) ∧
  (∃ c nbh g', convertIndex_dim g idx = Some c ∧
               enumerateNeighborHood g idx radius = Some (nbh, g') ∧ c ∉ nbh) ∧
  (∀ n, 0 ≤ n < nodeCount g →
     (∃ g', enumerateNeighborHood_flat g n 0 = Some ([], g')) ∧
     (∃ nbh g', enumerateNeighborHood_flat g n radius = Some (nbh, g') ∧ n ∉ nbh)).
Proof.
  intros Hg Hr _. pose proof (finalized_sized g Hg) as [Hs Hd].
  split; [|split].
  - destruct Hs. by apply enumerateNeighborHood_zero.
  - destruct Hs, Hr. by apply enumerateNeighborHood_excl.
  - intros n Hn. destruct (flat_dim_flat g n Hg Hn) as (H2 & Hflat & Hdim).
    unfold enumerateNeighborHood_flat. rewrite Hflat. simpl.
    set (g' := with_idx g (digits n (N g))) in *.
    assert (length (digits n (N g)) = DIM g) as Hl
      by (rewrite digits_length; by destruct Hs).
    assert (finalized g') as Hg' by by apply finalized_with_idx.
    pose proof (finalized_sized g' Hg') as [Hs' Hd'].
    split.
    + destruct Hs'. apply enumerateNeighborHood_zero; try done.
      split; [done|]. intros d i m Hi Hm.
      by apply (Forall2_lookup_lr _ _ _ _ _ _ H2 Hi Hm).
    + destruct Hs'.
      destruct (enumerateNeighborHood_excl g' (digits n (N g)) radius)
        as (c & nbh & g'' & Hc & He & Hnot); try done.
      rewrite Hdim in Hc. simplify_eq. by exists nbh, g''.
Qed.

End NeighborhoodTheorems.

Lemma enumerateNeighborHood_excludes_center_witness :
  finalized grid33 ∧ in_range grid33 [0; 0] ∧ is_uint 1 ∧
  (∃ g', enumerateNeighborHood grid33 [0; 0] 0 = Some ([], g')) ∧
  (∃ c nbh g', convertIndex_dim grid33 [0; 0] = Some c ∧
               enumerateNeighborHood grid33 [0; 0] 1 = Some (nbh, g') ∧ c ∉ nbh) ∧
  (∀ n, 0 ≤ n < nodeCount grid33 →
     (∃ g', enumerateNeighborHood_flat grid33 n 0 = Some ([], g')) ∧
     (∃ nbh g', enumerateNeighborHood_flat grid33 n 1 = Some (nbh, g') ∧ n ∉ nbh)).
Proof.
  split; [exact finalized_grid33|]. split; [exact in_range_grid33_corner|].
  assert (is_uint 1) as Hu by (unfold is_uint; lia). split; [exact Hu|].
  exact (enumerateNeighborHood_excludes_center grid33 [0; 0] 1 finalized_grid33
           in_range_grid33_corner Hu).
Defined.

(** C6. On the 3 x 3 grid, the neighbourhood of radius 1 of the corner
    [0,0] is the three nodes [1,0], [0,1] and [1,1], by their flat indices
    1, 3 and 4, axis 0 running fastest. *)
Theorem enumerateNeighborHood_corner :
  build 2 [3; 3] [0; 0]%float [2; 2]%float = Some grid33 ∧
  (∃ g', enumerateNeighborHood grid33 [0; 0] 1 = Some ([1; 3; 4], g')) ∧
  convertIndex_dim grid33 [1; 0] = Some 1 ∧
  convertIndex_dim grid33 [0; 1] = Some 3 ∧
  convertIndex_dim grid33 [1; 1] = Some 4.
Proof.
  split; [exact build_grid33|]. split; [eexists; vm_compute; reflexivity|].
  repeat split; vm_compute; reflexivity.
Qed.

(** C7. The 3 x 3 grid on [0,2] x [0,2]: the nodes of axis 0 are 0, 1, 2, the
    strides are 1, there are 9 nodes, the dim index [1,1] is the flat index
    4 and the flat index 4 is the dim index [1,1]. *)
Theorem rasterize_example :
  ∃ g, build 2 [3; 3] [0; 0]%float [2; 2]%float = Some g ∧
       raster g !! 0%nat = Some [0; 1; 2]%float ∧
       stride g = [1; 1]%float ∧
       nodeCount g = 9 ∧
       convertIndex_dim g [1; 1] = Some 4 ∧
       ∃ g', convertIndex_flat g 4 = Some g' ∧ _idx g' = [1; 1].
Proof.
  exists grid33. split; [exact build_grid33|].
  repeat split; try (vm_compute; reflexivity).
  eexists. split; vm_compute; reflexivity.
Qed.

(** C2 fails on the code: on the 3 x 3 grid, for the point (0.5, 0.5), whose
    bottom left node is [0,0], and radius 1, [idx[d]-radius] wraps to
    2^32-1 and [qMax] with 0 keeps it.  The box of the claim is
    [0,2] x [0,2], the nine nodes 0 ... 8; the code returns sixteen
    entries, some of them no node of the grid.  With radius 0 nothing wraps
    and the four nodes of the cell are returned. *)
Theorem getEnvelopingNodes_radius_wraps :
  (∃ g', getNodeIndexBl grid33 [0.5; 0.5]%float = Some g' ∧ _idx g' = [0; 0]) ∧
  nodeCount grid33 = 9 ∧
  (∃ g', getEnvelopingNodes grid33 [0.5; 0.5]%float 1
         = Some ([4294967292; 4294967293; 4294967294; 4294967295;
                  4294967295; 0; 1; 2; 2; 3; 4; 5; 5; 6; 7; 8], g')) ∧
  (∃ g', getEnvelopingNodes grid33 [0.5; 0.5]%float 0 = Some ([0; 1; 3; 4], g')).
Proof.
  split; [eexists; split; vm_compute; reflexivity|].
  split; [reflexivity|]. split; eexists; vm_compute; reflexivity.
Qed.

(** ** [rasterize] is idempotent *)

(** C9. On a configuration on which [rasterize] runs to its end, running it
    again on the result changes nothing: every member, and with it every
    derived member, is as the first run left it. *)
Theorem rasterize_idempotent {F : Type} `{Double F} (g g1 : Grid F) :
  sized g → rasterize g = Some g1 → rasterize g1 = Some g1.
Proof.
  intros Hs Hr. apply rasterize_inv in Hr as [Hd ->]; [|done].
  rewrite rasterize_derived; [done | by apply sized_derived | done].
Qed.

Lemma rasterize_idempotent_witness :
  sized config33 ∧ rasterize config33 = Some grid33 ∧
  rasterize grid33 = Some grid33.
Proof.
  assert (rasterize config33 = Some grid33) as Hr by (vm_compute; reflexivity).
  split; [exact sized_config33|]. split; [exact Hr|].
  exact (rasterize_idempotent config33 grid33 sized_config33 Hr).
Defined.

(** ** Binary64 comparisons *)

Lemma SFcompare_antisym x y :
  SFcompare y x = CompOpp <$> SFcompare x y.
Proof.
  destruct x as [[]|[]| |[] mx ex], y as [[]|[]| |[] my ey]; simpl; try done.
  - rewrite (Z.compare_antisym ex ey). destruct (ex ?= ey); simpl; try done.
    f_equal. rewrite CompOpp_involutive.
    change (CompOpp (Pos.compare_cont Eq my mx)
            = Pos.compare_cont (CompOpp Eq) mx my).
    apply Pos.compare_cont_antisym.
  - rewrite (Z.compare_antisym ex ey). destruct (ex ?= ey); simpl; try done.
    f_equal.
    change (Pos.compare_cont (CompOpp Eq) my mx
            = CompOpp (Pos.compare_cont Eq mx my)).
    symmetry. apply Pos.compare_cont_antisym.
Qed.

Lemma SFcompare_None x y :
  SFcompare x y = None → x = S754_nan ∨ y = S754_nan.
Proof.
  destruct x as [[]|[]| |[] mx ex], y as [[]|[]| |[] my ey]; simpl;
    intros Hc; try discriminate; auto.
Qed.

Lemma SFeqb_refl x : x ≠ S754_nan → SFeqb x x = true.
Proof.
  unfold SFeqb. destruct x as [[]|[]| |[] mx ex]; simpl; intros Hx; try done.
  all: rewrite Z.compare_refl.
  all: change (PosDef.Pos.compare_cont Eq mx mx) with (Pos.compare_cont Eq mx mx);
    rewrite Pos.compare_cont_refl; done.
Qed.

Lemma not_nan_SF a : not_nan a → Prim2SF a ≠ S754_nan.
Proof.
  unfold not_nan, is_nan. rewrite FloatAxioms.eqb_spec. intros Hn Ha. rewrite Ha in Hn.
  discriminate.
Qed.

(** For operands that are not NaN, [a > b] fails exactly when [a <= b]. *)
Lemma ltb_false_leb a b :
  not_nan a → not_nan b → (b <? a)%float = negb (a <=? b)%float.
Proof.
  intros Ha%not_nan_SF Hb%not_nan_SF. rewrite FloatAxioms.ltb_spec, FloatAxioms.leb_spec.
  unfold SFltb, SFleb. rewrite (SFcompare_antisym (Prim2SF a) (Prim2SF b)).
  destruct (SFcompare (Prim2SF a) (Prim2SF b)) as [[]|] eqn:Hc; simpl; try done.
  apply SFcompare_None in Hc as [?|?]; done.
Qed.

(** ** Containment *)

Lemma containsPoint_from_spec (g : Grid float) (x : list float) n d :
  (d + n = DIM g)%nat → length x = DIM g →
  length (min g) = DIM g → length (max g) = DIM g →
  Forall not_nan x → Forall not_nan (min g) → Forall not_nan (max g) →
  ∃ b, containsPoint_from n d g x = Some b ∧
       (b = true ↔
        ∀ k xd mn mx, (d ≤ k)%nat → x !! k = Some xd → min g !! k = Some mn →
                      max g !! k = Some mx →
                      (mn <=? xd)%float = true ∧ (xd <=? mx)%float = true).
Proof.
  intros Hdn Hx Hmn Hmx Nx Nmn Nmx. revert d Hdn.
  induction n as [|n IH]; intros d Hdn; simpl.
  - exists true. split; [done|]. split; [|done]. intros _ k xd mn mx Hk Hxk.
    apply lookup_lt_Some in Hxk. lia.
  - destruct (lookup_lt_is_Some_2 x d ltac:(lia)) as [xd Hxd].
    destruct (lookup_lt_is_Some_2 (max g) d ltac:(lia)) as [mx Hmxd].
    destruct (lookup_lt_is_Some_2 (min g) d ltac:(lia)) as [mn Hmnd].
    rewrite Hxd, Hmxd. simpl.
    pose proof (Forall_lookup_1 _ _ _ _ Nx Hxd) as Nxd.
    pose proof (Forall_lookup_1 _ _ _ _ Nmx Hmxd) as Nmxd.
    pose proof (Forall_lookup_1 _ _ _ _ Nmn Hmnd) as Nmnd.
    rewrite (ltb_false_leb xd mx) by done.
    destruct (xd <=? mx)%float eqn:E1; simpl.
    + rewrite Hmnd. simpl. rewrite (ltb_false_leb mn xd) by done.
      destruct (mn <=? xd)%float eqn:E2; simpl.
      * destruct (IH (S d) ltac:(lia)) as (b & -> & Hb). exists b. split; [done|].
        rewrite Hb. split.
        -- intros Hall k xk mnk mxk Hk Hxk Hmnk Hmxk.
           destruct (decide (k = d)) as [->|Hne].
           ++ by simplify_eq.
           ++ apply (Hall k xk mnk mxk); [lia | done..].
        -- intros Hall k xk mnk mxk Hk. apply Hall. lia.
      * exists false. split; [done|]. split; [done|]. intros Hall.
        destruct (Hall d xd mn mx ltac:(lia) Hxd Hmnd Hmxd) as [? _]. congruence.
    + exists false. split; [done|]. split; [done|]. intros Hall.
      destruct (Hall d xd mn mx ltac:(lia) Hxd Hmnd Hmxd) as [_ ?]. congruence.
Qed.

(** C8, amended. On a finalized grid whose bounds are not NaN, for a point
    of [DIM] coordinates none of which is NaN, [containsPoint] returns true
    exactly when every coordinate lies between the bounds of its axis, both
    bounds included. *)
Theorem containsPoint_iff (g : Grid float) (x : list float) :
  finalized g → length x = DIM g →
  Forall not_nan x → Forall not_nan (min g) → Forall not_nan (max g) →
  ∃ b, containsPoint g x = Some b ∧
       (b = true ↔
        ∀ d xd mn mx, x !! d = Some xd → min g !! d = Some mn →
                      max g !! d = Some mx →
                      (mn <=? xd)%float = true ∧ (xd <=? mx)%float = true).
Proof.
  intros [Hs _]%finalized_sized Hx Nx Nmn Nmx. destruct Hs.
  destruct (containsPoint_from_spec g x (DIM g) 0) as (b & Hb & Hiff); try done.
  exists b. split; [done|]. rewrite Hiff. split.
  - intros Hall d xd mn mx. apply Hall. lia.
  - intros Hall d xd mn mx _. apply Hall.
Qed.

Lemma not_nan_grid33 :
  Forall not_nan [2; 2]%float ∧ Forall not_nan (min grid33) ∧
  Forall not_nan (max grid33).
Proof. repeat split; repeat constructor. Qed.

Lemma containsPoint_iff_witness :
  finalized grid33 ∧ length [2; 2]%float = DIM grid33 ∧
  Forall not_nan [2; 2]%float ∧ Forall not_nan (min grid33) ∧
  Forall not_nan (max grid33) ∧
  ∃ b, containsPoint grid33 [2; 2]%float = Some b ∧
       (b = true ↔
        ∀ d xd mn mx, [2; 2]%float !! d = Some xd → min grid33 !! d = Some mn →
                      max grid33 !! d = Some mx →
                      (mn <=? xd)%float = true ∧ (xd <=? mx)%float = true).
Proof.
  destruct not_nan_grid33 as (N1 & N2 & N3).
  split; [exact finalized_grid33|]. split; [reflexivity|].
  split; [exact N1|]. split; [exact N2|]. split; [exact N3|].
  exact (containsPoint_iff grid33 [2; 2]%float finalized_grid33 eq_refl N1 N2 N3).
Defined.

(** C8 as stated fails on a NaN coordinate: both comparisons of the loop are
    false on it, so the point (NaN, 0) is reported inside the 3 x 3 grid,
    while [lowerBound <= NaN] does not hold.  It fails on a NaN bound in the
    same way: in the grid of 3 nodes with bounds 0 and NaN the point 5 is
    reported inside. *)
Lemma containsPoint_nan :
  (finalized grid33 ∧ length [nan; 0]%float = DIM grid33 ∧
   containsPoint grid33 [nan; 0]%float = Some true ∧
   min grid33 !! 0%nat = Some 0%float ∧ (0 <=? nan)%float = false) ∧
  (finalized gridNan ∧ length [5]%float = DIM gridNan ∧
   containsPoint gridNan [5]%float = Some true ∧
   max gridNan !! 0%nat = Some nan ∧ (5 <=? nan)%float = false).
Proof.
  split.
  - split; [exact finalized_grid33|]. repeat split; vm_compute; reflexivity.
  - split; [exists configNan; split; [sized_tac | vm_compute; reflexivity]|].
    repeat split; vm_compute; reflexivity.
Qed.

(** ** The raster in binary64 *)

Lemma SF_first_node m s b :
  m ≠ S754_nan →
  SFeqb (SF64add m (SF64mul (S754_zero b) s)) m
  = match s with S754_zero _ | S754_finite _ _ _ => true | _ => false end.
Proof.
  intros Hm. destruct s as [[]|[]| |[] ms es], b, m as [[]|[]| |[] mm em];
    try done; simpl; try done.
  all: unfold SFeqb; simpl.
  all: rewrite Z.compare_refl.
  all: change (PosDef.Pos.compare_cont Eq mm mm) with (Pos.compare_cont Eq mm mm);
    rewrite Pos.compare_cont_refl; done.
Qed.

(** The first node of an axis, [min + 0 * stride], is the lower bound when
    the stride is finite. *)
Lemma first_node_eq (mn s : float) :
  not_nan mn → finite64 s = true →
  (mn + of_uint63 (Uint63.of_Z 0) * s =? mn)%float = true.
Proof.
  intros Hmn%not_nan_SF Hs. unfold finite64 in Hs.
  rewrite FloatAxioms.eqb_spec, FloatAxioms.add_spec, FloatAxioms.mul_spec.
  change (Prim2SF (of_uint63 (Uint63.of_Z 0))) with (S754_zero false).
  by rewrite SF_first_node.
Qed.

(** A finite stride [(max - min) / k] comes from a lower bound that is no NaN. *)
Lemma stride_finite_not_nan (mx mn k : float) :
  finite64 ((mx - mn) / k)%float = true → not_nan mn.
Proof.
  unfold finite64. rewrite FloatAxioms.div_spec, FloatAxioms.sub_spec.
  intros Hf. unfold not_nan, is_nan. rewrite FloatAxioms.eqb_spec.
  rewrite SFeqb_refl; [done|]. intros Hn. rewrite Hn in Hf.
  destruct (Prim2SF mx) as [[]|[]| |[] ??]; simpl in Hf; discriminate.
Qed.

Lemma finalized_grid50 : finalized grid50.
Proof. exists config50. split; [sized_tac | vm_compute; reflexivity]. Qed.

(** X21. In binary64, on a finalized grid, on an axis with at least one node
    and a finite stride, the first node of the axis equals the lower
    bound. *)
Theorem raster_first_node_exact (g : Grid float) d n mn s :
  finalized g → N g !! d = Some n → 1 ≤ n → min g !! d = Some mn →
  stride g !! d = Some s → finite64 s = true →
  ∃ r x, raster g !! d = Some r ∧ r !! 0%nat = Some x ∧ (x =? mn)%float = true.
Proof.
  intros (g0 & Hs & Hd & ->)%finalized_inv Hn H1 Hmn Hst Hfin. simpl in *.
  pose proof (raster_closed_lookup g0 d mn s n Hmn Hst Hn) as Hr.
  exists (axis_nodes n mn s). eexists. split; [exact Hr|].
  split; [apply axis_nodes_lookup; lia|].
  apply first_node_eq; [|done].
  destruct (lookup_lt_is_Some_2 (max g0) d) as [mx Hmx].
  { destruct Hs. apply lookup_lt_Some in Hn. lia. }
  rewrite (stride_closed_lookup g0 d mx mn n Hmx Hmn Hn) in Hst.
  simplify_eq. by eapply stride_finite_not_nan.
Qed.

Lemma raster_first_node_exact_witness :
  finalized grid50 ∧ N grid50 !! 0%nat = Some 50 ∧ 1 ≤ 50 ∧
  min grid50 !! 0%nat = Some 0%float ∧
  stride grid50 !! 0%nat = Some (1 / 49)%float ∧ finite64 (1 / 49)%float = true ∧
  ∃ r x, raster grid50 !! 0%nat = Some r ∧ r !! 0%nat = Some x ∧
         (x =? 0)%float = true.
Proof.
  assert (stride grid50 !! 0%nat = Some (1 / 49)%float) as Hst
    by (vm_compute; reflexivity).
  assert (finite64 (1 / 49)%float = true) as Hfin by (vm_compute; reflexivity).
  assert (1 ≤ 50) as H1 by lia.
  split; [exact finalized_grid50|]. split; [reflexivity|]. split; [exact H1|].
  split; [reflexivity|]. split; [exact Hst|]. split; [exact Hfin|].
  exact (raster_first_node_exact grid50 0 50 0%float (1 / 49)%float finalized_grid50
           eq_refl H1 eq_refl Hst Hfin).
Defined.

(** C5. The comments of Grid.cpp place the last node at the maximum, and
    [rasterize] computes it as [min + (N-1) * stride] in binary64: on the
    grid of 50 nodes on [0,1] the stride is 1/49 rounded, and 0 + 49 * stride
    is the binary64 number just below 1, not the upper bound 1.  The first
    node misses the minimum where [max - min] overflows: on the grid of 2
    nodes on [-2^1023, 2^1023] the stride is infinite and the first node,
    [min + 0 * stride], is NaN. *)
Lemma raster_last_node_rounds :
  (finalized grid50 ∧ N grid50 = [50] ∧ max grid50 = [1]%float ∧
   ∃ r y, raster grid50 !! 0%nat = Some r ∧ r !! 49%nat = Some y ∧
          y = 0x1.fffffffffffffp-1%float ∧ (y =? 1)%float = false) ∧
  (finalized gridBig ∧ N gridBig = [2] ∧ min gridBig = [-0x1p1023]%float ∧
   stride gridBig = [infinity] ∧
   ∃ r x, raster gridBig !! 0%nat = Some r ∧ r !! 0%nat = Some x ∧
          (x =? -0x1p1023)%float = false).
Proof.
  split.
  - split; [exact finalized_grid50|]. split; [reflexivity|]. split; [reflexivity|].
    eexists _, _. split; [reflexivity|]. split; [vm_compute; reflexivity|].
    split; vm_compute; reflexivity.
  - split; [exists configBig; split; [sized_tac | vm_compute; reflexivity]|].
    split; [reflexivity|]. split; [reflexivity|]. split; [vm_compute; reflexivity|].
    eexists _, _. split; [reflexivity|]. split; vm_compute; reflexivity.
Qed.

(** ** The order of the nodes in binary64 *)

(** The rounding of the kernel's specification of binary64, read on the
    integer values of the numbers: what the operations of [rasterize]
    return is the rounding of the exact result, and rounding keeps the
    order. *)

Lemma rne_bounds v k : 0 ≤ k → v / 2 ^ k ≤ rne v k ≤ v / 2 ^ k + 1.
Proof. intros Hk. unfold rne. destruct (_ ?= _); [destruct (Z.even _)|..]; lia. Qed.

Lemma rne_mono v1 v2 k : 0 ≤ k → v1 ≤ v2 → rne v1 k ≤ rne v2 k.
Proof.
  intros Hk Hv. assert (0 < 2 ^ k) as Hp by (apply Z.pow_pos_nonneg; lia).
  pose proof (Z.div_le_mono v1 v2 (2 ^ k) Hp Hv) as Hq.
  destruct (decide (v1 / 2 ^ k = v2 / 2 ^ k)) as [He|Hne].
  - pose proof (Z.div_mod v1 (2 ^ k) ltac:(lia)) as H1.
    pose proof (Z.div_mod v2 (2 ^ k) ltac:(lia)) as H2.
    assert (v1 mod 2 ^ k ≤ v2 mod 2 ^ k) as Hr by nia.
    unfold rne. rewrite He.
    destruct (Z.compare_spec (2 * (v1 mod 2 ^ k)) (2 ^ k));
      destruct (Z.compare_spec (2 * (v2 mod 2 ^ k)) (2 ^ k));
      destruct (Z.even (v2 / 2 ^ k)); lia.
  - pose proof (rne_bounds v1 k Hk). pose proof (rne_bounds v2 k Hk). lia.
Qed.

Lemma rne_exact m k : 0 ≤ k → rne (m * 2 ^ k) k = m.
Proof.
  intros Hk. assert (0 < 2 ^ k) as Hp by (apply Z.pow_pos_nonneg; lia).
  unfold rne. rewrite Z.mod_mul, Z.div_mul by lia.
  destruct (Z.compare_spec (2 * 0) (2 ^ k)); lia.
Qed.

Lemma rne_scale v k j : 0 ≤ k → 0 ≤ j → rne (v * 2 ^ j) (k + j) = rne v k.
Proof.
  intros Hk Hj. assert (0 < 2 ^ k) as Hpk by (apply Z.pow_pos_nonneg; lia).
  assert (0 < 2 ^ j) as Hpj by (apply Z.pow_pos_nonneg; lia).
  unfold rne. rewrite Z.pow_add_r by lia.
  rewrite Z.div_mul_cancel_r by lia.
  rewrite Zmult_mod_distr_r.
  replace (2 * (v mod 2 ^ k * 2 ^ j)) with (2 * (v mod 2 ^ k) * 2 ^ j) by ring.
  rewrite <- Zmult_compare_compat_r by lia. done.
Qed.

Lemma emin_unit : SpecFloat.emin prec emax + unit_exp = 1074.
Proof. reflexivity. Qed.

Lemma rexp_ge v : 1074 ≤ rexp v.
Proof. unfold rexp. rewrite emin_unit. lia. Qed.

Lemma rexp_mono v1 v2 : v1 ≤ v2 → rexp v1 ≤ rexp v2.
Proof.
  intros Hv. unfold rexp. pose proof (Z.log2_le_mono v1 v2 Hv). lia.
Qed.

Lemma pow2_pos k : 0 ≤ k → 0 < 2 ^ k.
Proof. intros. apply Z.pow_pos_nonneg; lia. Qed.

Lemma pow2_le j k : 0 ≤ j ≤ k → 2 ^ j ≤ 2 ^ k.
Proof. intros. apply Z.pow_le_mono_r; lia. Qed.

Lemma pow2_lt j k : 0 ≤ j < k → 2 ^ j < 2 ^ k.
Proof. intros. apply Z.pow_lt_mono_r; lia. Qed.

Lemma RN_nonneg v : 0 ≤ v → 0 ≤ RN v.
Proof.
  intros Hv. unfold RN. pose proof (rexp_ge v).
  pose proof (pow2_pos (rexp v) ltac:(lia)).
  pose proof (rne_bounds v (rexp v) ltac:(lia)).
  pose proof (Z.div_pos v (2 ^ rexp v) Hv ltac:(lia)). nia.
Qed.

Lemma RN_0 : RN 0 = 0.
Proof. reflexivity. Qed.

(** A value below [2^(k+53)] rounds, at exponent [k], to at most [2^(k+53)]. *)
Lemma rne_le_pow v k p : 0 ≤ k → 0 ≤ p → v ≤ 2 ^ (k + p) → rne v k ≤ 2 ^ p.
Proof.
  intros Hk Hp Hv. rewrite <- (rne_exact (2 ^ p) k Hk).
  apply rne_mono; [done|]. by rewrite <- Z.pow_add_r, (Z.add_comm p k) by lia.
Qed.

Lemma rne_ge_pow v k p : 0 ≤ k → 0 ≤ p → 2 ^ (k + p) ≤ v → 2 ^ p ≤ rne v k.
Proof.
  intros Hk Hp Hv. rewrite <- (rne_exact (2 ^ p) k Hk) at 1.
  apply rne_mono; [done|]. by rewrite <- Z.pow_add_r, (Z.add_comm p k) by lia.
Qed.

Lemma RN_mono v1 v2 : 0 ≤ v1 ≤ v2 → RN v1 ≤ RN v2.
Proof.
  intros [H1 H2]. unfold RN.
  pose proof (rexp_ge v1) as G1. pose proof (rexp_mono v1 v2 H2) as Hk.
  set (k1 := rexp v1) in *. set (k2 := rexp v2) in *.
  pose proof (pow2_pos k1 ltac:(lia)) as P1.
  destruct (decide (k1 = k2)) as [<-|Hne].
  - pose proof (rne_mono v1 v2 k1 ltac:(lia) H2). nia.
  - assert (k2 = Z.log2 v2 + 1 - 53) as E2.
    { unfold k2, k1, rexp in *. rewrite emin_unit in *. unfold prec in *. lia. }
    assert (0 < v2) as Hv2.
    { destruct (decide (v2 = 0)) as [->|]; [|lia].
      unfold k2, k1, rexp in *. rewrite emin_unit in *. simpl in *. lia. }
    pose proof (Z.log2_spec v2 Hv2) as [L2 _].
    assert (2 ^ 52 ≤ rne v2 k2) as R2.
    { apply rne_ge_pow; [lia | lia |]. by replace (k2 + 52) with (Z.log2 v2) by lia. }
    assert (rne v1 k1 ≤ 2 ^ 53) as R1.
    { apply rne_le_pow; [lia | lia |].
      destruct (decide (v1 = 0)) as [->|].
      - pose proof (pow2_pos (k1 + 53) ltac:(lia)). lia.
      - pose proof (Z.log2_spec v1 ltac:(lia)) as [_ L1].
        assert (Z.log2 v1 + 1 ≤ k1 + 53) as Hle.
        { unfold k1, rexp. unfold prec. lia. }
        pose proof (pow2_le (Z.succ (Z.log2 v1)) (k1 + 53)
                      ltac:(pose proof (Z.log2_nonneg v1); lia)). lia. }
    assert (2 ^ 53 * 2 ^ k1 ≤ 2 ^ 52 * 2 ^ k2) as Hp.
    { rewrite <- !Z.pow_add_r by lia. apply pow2_le. lia. }
    pose proof (pow2_pos k2 ltac:(lia)). nia.
Qed.

Lemma RN_exact m j : 0 ≤ m → rexp (m * 2 ^ j) ≤ j → RN (m * 2 ^ j) = m * 2 ^ j.
Proof.
  intros Hm Hj. unfold RN. set (k := rexp (m * 2 ^ j)) in *.
  pose proof (rexp_ge (m * 2 ^ j)). fold k in H.
  assert (m * 2 ^ j = m * 2 ^ (j - k) * 2 ^ k) as E.
  { rewrite <- Z.mul_assoc, <- Z.pow_add_r by lia. do 2 f_equal. lia. }
  rewrite E at 1. rewrite rne_exact by lia. by rewrite <- E.
Qed.

(** ** Digits *)

Lemma digits2_log2 p : Z.pos (digits2_pos p) = Z.log2 (Z.pos p) + 1.
Proof.
  assert (∀ q, digits2_pos q = Pos.size q) as Hs.
  { induction q as [q IH|q IH|]; simpl; by rewrite ?IH. }
  rewrite Hs. destruct p; simpl; lia.
Qed.

Lemma digits2_bounds p :
  2 ^ (Z.pos (digits2_pos p) - 1) ≤ Z.pos p < 2 ^ Z.pos (digits2_pos p).
Proof.
  rewrite digits2_log2. pose proof (Z.log2_spec (Z.pos p) ltac:(lia)).
  replace (Z.log2 (Z.pos p) + 1 - 1) with (Z.log2 (Z.pos p)) by lia.
  replace (Z.log2 (Z.pos p) + 1) with (Z.succ (Z.log2 (Z.pos p))) by lia. done.
Qed.

(** ** Shifting to the right *)

Lemma shr_1_nonneg m r s :
  0 ≤ m → shr_1 {| shr_m := m; shr_r := r; shr_s := s |}
          = {| shr_m := m / 2; shr_r := Z.odd m; shr_s := r || s |}.
Proof.
  intros Hm. destruct m as [|p|p]; [done| |lia].
  destruct p as [p|p|]; simpl; f_equal.
  - rewrite Pos2Z.inj_xI. rewrite (Z.mul_comm 2), Z.div_add_l by lia.
    by rewrite Z.div_small by lia.
  - rewrite Pos2Z.inj_xO. by rewrite (Z.mul_comm 2), Z.div_mul by lia.
Qed.

Lemma shr_1_first m :
  0 ≤ m → shr_1 {| shr_m := m; shr_r := false; shr_s := false |} = shr_state m 1.
Proof.
  intros Hm. rewrite shr_1_nonneg by done. unfold shr_state. simpl.
  rewrite Z.pow_1_r, Z.div_1_r, Z.mod_1_r. done.
Qed.

Lemma shr_1_step m n : 0 ≤ m → 1 ≤ n → shr_1 (shr_state m n) = shr_state m (n + 1).
Proof.
  intros Hm Hn. unfold shr_state.
  pose proof (pow2_pos (n - 1) ltac:(lia)) as Hp.
  rewrite shr_1_nonneg by (apply Z.div_pos; [done | apply pow2_pos; lia]).
  replace (n + 1 - 1) with n by lia. f_equal.
  - rewrite Z.div_div by (try apply pow2_pos; lia).
    by rewrite Z.pow_add_r, Z.pow_1_r by lia.
  - replace (2 ^ n) with (2 ^ (n - 1) * 2)
      by (rewrite Z.mul_comm, <- Z.pow_succ_r by lia; f_equal; lia).
    rewrite Z.rem_mul_r by lia.
    set (a := m / 2 ^ (n - 1)). set (l := m mod 2 ^ (n - 1)).
    pose proof (Z.mod_pos_bound m (2 ^ (n - 1)) Hp). fold l in H.
    rewrite (Zmod_odd a).
    destruct (Z.odd a); simpl.
    + symmetry. apply negb_true_iff, Z.eqb_neq. lia.
    + by rewrite Z.mul_0_r, Z.add_0_r.
Qed.

Lemma iter_pos_nat {A} (f : A → A) p x :
  SpecFloat.iter_pos f p x = Nat.iter (Pos.to_nat p) f x.
Proof.
  revert x. induction p as [p IH|p IH|]; intros x.
  - change (SpecFloat.iter_pos f p~1 x)
      with (SpecFloat.iter_pos f p (SpecFloat.iter_pos f p (f x))).
    rewrite !IH. rewrite Pos2Nat.inj_xI.
    replace (S (2 * Pos.to_nat p)) with (Pos.to_nat p + (Pos.to_nat p + 1))%nat by lia.
    rewrite !Nat.iter_add. done.
  - change (SpecFloat.iter_pos f p~0 x)
      with (SpecFloat.iter_pos f p (SpecFloat.iter_pos f p x)).
    rewrite !IH. rewrite Pos2Nat.inj_xO.
    replace (2 * Pos.to_nat p)%nat with (Pos.to_nat p + Pos.to_nat p)%nat by lia.
    by rewrite Nat.iter_add.
  - done.
Qed.

Lemma iter_shr m k :
  0 ≤ m → (1 ≤ k)%nat →
  Nat.iter k shr_1 {| shr_m := m; shr_r := false; shr_s := false |}
  = shr_state m (Z.of_nat k).
Proof.
  intros Hm Hk. induction k as [|k IH]; [lia|].
  destruct k as [|k].
  - simpl. by apply shr_1_first.
  - rewrite Nat.iter_succ, IH by lia. rewrite shr_1_step by lia.
    f_equal. lia.
Qed.

Lemma shr_pos m e n :
  0 ≤ m → 0 < n →
  shr {| shr_m := m; shr_r := false; shr_s := false |} e n = (shr_state m n, e + n).
Proof.
  intros Hm Hn. destruct n as [|p|p]; [lia| |lia]. simpl.
  rewrite iter_pos_nat, iter_shr by lia. by rewrite positive_nat_Z.
Qed.

Lemma round_shr m n :
  0 ≤ m → 1 ≤ n →
  round_nearest_even (shr_m (shr_state m n)) (loc_of_shr_record (shr_state m n))
  = rne m n.
Proof.
  intros Hm Hn. unfold shr_state, rne. simpl.
  pose proof (pow2_pos (n - 1) ltac:(lia)) as Hp.
  assert (2 ^ n = 2 ^ (n - 1) * 2) as E
    by (rewrite Z.mul_comm, <- Z.pow_succ_r by lia; f_equal; lia).
  assert (m mod 2 ^ n = m mod 2 ^ (n - 1) + 2 ^ (n - 1) * ((m / 2 ^ (n - 1)) mod 2))
    as Em by (rewrite E at 1; by rewrite Z.rem_mul_r by lia).
  assert (m / 2 ^ n = m / 2 ^ (n - 1) / 2) as Eq
    by (rewrite E at 1; by rewrite Z.div_div by lia).
  set (a := m / 2 ^ (n - 1)) in *. set (l := m mod 2 ^ (n - 1)) in *.
  pose proof (Z.mod_pos_bound m (2 ^ (n - 1)) Hp) as Hl. fold l in Hl.
  rewrite Em. rewrite (Zmod_odd a).
  destruct (Z.odd a); simpl.
  - destruct (Z.eqb_spec l 0) as [->|Hne]; simpl.
    + destruct (Z.compare_spec (2 * (0 + 2 ^ (n - 1) * 1)) (2 ^ n)); try lia; done.
    + destruct (Z.compare_spec (2 * (l + 2 ^ (n - 1) * 1)) (2 ^ n)); try lia; done.
  - destruct (Z.compare_spec (2 * (l + 2 ^ (n - 1) * 0)) (2 ^ n)); try lia.
    all: by destruct (l =? 0).
Qed.

(** ** Rounding a mantissa and an exponent *)

Lemma fexp_eq x : fexp prec emax x = Z.max (x - 53) (-1074).
Proof. reflexivity. Qed.

Lemma overflow64_eq : overflow64 = 2 ^ 3172.
Proof. unfold overflow64, emax, unit_exp. by change (1024 + 2148) with 3172. Qed.

Lemma rne_0 m : rne m 0 = m.
Proof. rewrite <- (rne_exact m 0) at 2 by lia. f_equal. rewrite Z.pow_0_r. lia. Qed.

Lemma shr_fexp_exact m e :
  0 ≤ m → e ≤ fexp prec emax (Zdigits2 m + e) →
  ∃ st, shr_fexp prec emax m e loc_Exact = (st, fexp prec emax (Zdigits2 m + e)) ∧
        round_nearest_even (shr_m st) (loc_of_shr_record st)
        = rne m (fexp prec emax (Zdigits2 m + e) - e) ∧
        shr_m st = m / 2 ^ (fexp prec emax (Zdigits2 m + e) - e).
Proof.
  intros Hm He. unfold shr_fexp. cbn [shr_record_of_loc].
  set (f := fexp prec emax (Zdigits2 m + e)) in *.
  destruct (decide (f - e = 0)) as [E|Hne].
  - rewrite E. simpl. eexists. split; [f_equal; lia|].
    simpl. rewrite rne_0, Z.div_1_r. done.
  - rewrite shr_pos by lia. eexists. split; [f_equal; lia|].
    split; [apply round_shr; lia | done].
Qed.

Lemma below_overflow q f :
  0 ≤ q < 2 ^ 53 → 0 ≤ f + 2148 → f ≤ 971 → q * 2 ^ (f + 2148) < overflow64.
Proof.
  intros Hq Hf Hle. rewrite overflow64_eq.
  pose proof (pow2_le (f + 2148) 3119 ltac:(lia)).
  pose proof (pow2_pos (f + 2148) Hf).
  assert (2 ^ 3172 = 2 ^ 53 * 2 ^ 3119) as -> by (rewrite <- Z.pow_add_r by lia; done).
  set (a := 2 ^ (f + 2148)) in *. set (b := 2 ^ 3119) in *. set (c := 2 ^ 53) in *.
  nia.
Qed.

Lemma above_overflow q f : 2 ^ 52 ≤ q → 972 ≤ f → overflow64 ≤ q * 2 ^ (f + 2148).
Proof.
  intros Hq Hf. rewrite overflow64_eq.
  pose proof (pow2_le 3120 (f + 2148) ltac:(lia)).
  assert (2 ^ 3172 = 2 ^ 52 * 2 ^ 3120) as -> by (rewrite <- Z.pow_add_r by lia; done).
  pose proof (pow2_pos 52 ltac:(lia)).
  set (a := 2 ^ (f + 2148)) in *. set (b := 2 ^ 3120) in *. set (c := 2 ^ 52) in *.
  nia.
Qed.

Lemma Zdigits2_log2 m : 0 < m → Zdigits2 m = Z.log2 m + 1.
Proof. intros Hm. destruct m as [|p|p]; [lia| |lia]. apply digits2_log2. Qed.

Lemma Zdigits2_bounds m : 0 < m → 2 ^ (Zdigits2 m - 1) ≤ m < 2 ^ Zdigits2 m.
Proof. intros Hm. destruct m as [|p|p]; [lia| |lia]. apply digits2_bounds. Qed.

Lemma Zdigits2_pos m : 0 < m → 1 ≤ Zdigits2 m.
Proof. intros Hm. rewrite Zdigits2_log2 by done. pose proof (Z.log2_nonneg m). lia. Qed.

Lemma rexp_scaled m e :
  0 < m → 0 ≤ e + unit_exp →
  rexp (m * 2 ^ (e + unit_exp)) = fexp prec emax (Zdigits2 m + e) + unit_exp.
Proof.
  intros Hm He. unfold rexp. rewrite Z.log2_mul_pow2 by lia.
  rewrite fexp_eq, emin_unit, Zdigits2_log2 by done. unfold prec, unit_exp. lia.
Qed.

Lemma shr_nonpos mrs e n : n ≤ 0 → shr mrs e n = (mrs, e).
Proof. intros Hn. destruct n; [done | lia | done]. Qed.

Lemma overflow64_pos : 0 < overflow64.
Proof. rewrite overflow64_eq. by apply pow2_pos. Qed.

Lemma round_aux_spec s m e :
  0 < m → 0 ≤ e + unit_exp → e ≤ fexp prec emax (Zdigits2 m + e) →
  has_sign s (binary_round_aux prec emax s m e loc_Exact) ∧
  ival (binary_round_aux prec emax s m e loc_Exact)
  = signed s (Z.min overflow64 (RN (m * 2 ^ (e + unit_exp)))).
Proof.
  intros Hm He Hn. unfold binary_round_aux.
  destruct (shr_fexp_exact m e ltac:(lia) Hn) as (st & -> & Hq & _).
  rewrite Hq. clear st Hq.
  set (f := fexp prec emax (Zdigits2 m + e)) in *. set (n := f - e).
  set (q := rne m n).
  pose proof (Zdigits2_bounds m Hm) as [Hd1 Hd2].
  pose proof (Zdigits2_pos m Hm) as Hd0.
  assert (f = Z.max (Zdigits2 m + e - 53) (-1074)) as Ef by apply fexp_eq.
  assert (0 ≤ f + 2148) as Hf0 by lia.
  assert (RN (m * 2 ^ (e + unit_exp)) = q * 2 ^ (f + 2148)) as ERN.
  { unfold RN. rewrite rexp_scaled by done. fold f. unfold unit_exp in *.
    replace (f + 2148) with (n + (e + 2148)) at 1 by (unfold n; lia).
    by rewrite rne_scale by (unfold n; lia). }
  rewrite ERN. clear ERN.
  assert (0 ≤ q ≤ 2 ^ 53) as Hq.
  { split.
    - pose proof (rne_bounds m n ltac:(unfold n; lia)).
      pose proof (Z.div_pos m (2 ^ n) ltac:(lia) (pow2_pos n ltac:(unfold n; lia))).
      unfold q. lia.
    - apply rne_le_pow; [unfold n; lia | lia |].
      pose proof (pow2_le (Zdigits2 m) (n + 53) ltac:(unfold n; lia)). lia. }
  assert (972 ≤ f → 2 ^ 52 ≤ q) as Hnorm.
  { intros Hbig. apply rne_ge_pow; [unfold n; lia | lia |].
    replace (n + 52) with (Zdigits2 m - 1) by (unfold n; lia). done. }
  pose proof (pow2_pos (f + 2148) Hf0) as Hpf.
  destruct (decide (q = 2 ^ 53)) as [E53|N53].
  - (* the mantissa overflows: one more shift *)
    assert (Zdigits2 q = 54) as Dq.
    { rewrite Zdigits2_log2 by (rewrite E53; by apply pow2_pos).
      rewrite E53, Z.log2_pow2 by lia. done. }
    unfold shr_fexp. cbn [shr_record_of_loc]. rewrite Dq, fexp_eq.
    replace (Z.max (54 + f - 53) (-1074) - f) with 1 by lia.
    rewrite shr_pos by lia. simpl shr_m.
    replace (q / 2 ^ 1) with (2 ^ 52) by (rewrite E53; done).
    change (2 ^ 52) with (Z.pos (2 ^ 52)%positive).
    destruct (Z.leb_spec (f + 1) (emax - prec)) as [Hle|Hgt];
      unfold emax, prec in *; cbn [has_sign ival]; (split; [done|]); f_equal.
    + change (Z.pos (2 ^ 52)) with (2 ^ 52). unfold unit_exp.
      assert (q * 2 ^ (f + 2148) = 2 ^ 52 * 2 ^ (f + 1 + 2148)) as ->.
      { rewrite E53. replace (f + 1 + 2148) with (1 + (f + 2148)) by lia.
        rewrite (Z.pow_add_r 2 1 (f + 2148)) by lia. change (2 ^ 53) with (2 ^ 52 * 2 ^ 1). ring. }
      assert (0 ≤ 2 ^ 52 < 2 ^ 53) as H52 by done.
      pose proof (below_overflow (2 ^ 52) (f + 1) H52 ltac:(lia) ltac:(lia)). lia.
    + assert (q * 2 ^ (f + 2148) = 2 ^ 52 * 2 ^ (f + 1 + 2148)) as ->.
      { rewrite E53. replace (f + 1 + 2148) with (1 + (f + 2148)) by lia.
        rewrite (Z.pow_add_r 2 1 (f + 2148)) by lia. change (2 ^ 53) with (2 ^ 52 * 2 ^ 1). ring. }
      pose proof (above_overflow (2 ^ 52) (f + 1) ltac:(lia) ltac:(lia)). lia.
  - destruct (decide (q = 0)) as [E0|N0].
    + rewrite E0. unfold shr_fexp. cbn [shr_record_of_loc Zdigits2].
      rewrite shr_nonpos by (rewrite fexp_eq; lia).
      cbn [shr_m has_sign ival]. split; [done|].
      rewrite Z.mul_0_l. pose proof overflow64_pos. rewrite Z.min_r by lia.
      by destruct s.
    + assert (Zdigits2 q ≤ 53) as Dq.
      { rewrite Zdigits2_log2 by lia.
        pose proof (proj1 (Z.log2_lt_pow2 q 53 ltac:(lia)) ltac:(lia)). lia. }
      unfold shr_fexp. cbn [shr_record_of_loc].
      rewrite shr_nonpos by (rewrite fexp_eq; lia). cbn [shr_m].
      destruct q as [|mq|mq] eqn:Eq; [lia| |lia].
      destruct (Z.leb_spec f (emax - prec)) as [Hle|Hgt];
        unfold emax, prec in *; cbn [has_sign ival]; (split; [done|]); f_equal.
      * unfold unit_exp.
        pose proof (below_overflow (Z.pos mq) f ltac:(lia) ltac:(lia) ltac:(lia)). lia.
      * pose proof (above_overflow (Z.pos mq) f ltac:(apply Hnorm; lia) ltac:(lia)). lia.
Qed.

(** ** Alignment and normalisation *)

Lemma iter_xO m d : Z.pos (Pos.iter xO m d) = Z.pos m * 2 ^ Z.pos d.
Proof.
  induction d as [|d IH] using Pos.peano_ind.
  - simpl. lia.
  - rewrite Pos.iter_succ, Pos2Z.inj_xO, IH, Pos2Z.inj_succ.
    rewrite Z.pow_succ_r by lia. ring.
Qed.

Lemma shl_align_spec m e e' :
  ∃ d, 0 ≤ d ∧ shl_align m e e' = (Z.to_pos (Z.pos m * 2 ^ d), e - d) ∧
       e - d = Z.min e e'.
Proof.
  unfold shl_align. destruct (e' - e) as [|p|p] eqn:E.
  - exists 0. split; [done|]. rewrite Z.pow_0_r, Z.mul_1_r, Z.sub_0_r. simpl.
    split; [done | lia].
  - exists 0. split; [done|]. rewrite Z.pow_0_r, Z.mul_1_r, Z.sub_0_r. simpl.
    split; [done | lia].
  - exists (Z.pos p). split; [lia|]. rewrite <- iter_xO. simpl Z.to_pos.
    split; [f_equal; lia | lia].
Qed.

Lemma Zdigits2_shift m d : 0 < m → 0 ≤ d → Zdigits2 (m * 2 ^ d) = Zdigits2 m + d.
Proof.
  intros Hm Hd. pose proof (pow2_pos d Hd).
  rewrite !Zdigits2_log2 by nia. rewrite Z.log2_mul_pow2 by lia. lia.
Qed.

Lemma binary_round_spec s m e :
  0 ≤ e + unit_exp →
  has_sign s (binary_round prec emax s m e) ∧
  ival (binary_round prec emax s m e)
  = signed s (Z.min overflow64 (RN (Z.pos m * 2 ^ (e + unit_exp)))).
Proof.
  intros He. unfold binary_round.
  set (f := fexp prec emax (Z.pos (digits2_pos m) + e)).
  destruct (shl_align_spec m e f) as (d & Hd & -> & Emin).
  pose proof (pow2_pos d Hd) as Hp.
  assert (Z.pos (Z.to_pos (Z.pos m * 2 ^ d)) = Z.pos m * 2 ^ d) as Epos
    by (apply Z2Pos.id; nia).
  rewrite Epos.
  assert (f = Z.max (Z.pos (digits2_pos m) + e - 53) (-1074)) as Ef by apply fexp_eq.
  assert (Zdigits2 (Z.pos m * 2 ^ d) + (e - d) = Z.pos (digits2_pos m) + e) as Ed.
  { rewrite Zdigits2_shift by lia. simpl. lia. }
  assert (Z.pos m * 2 ^ (e + unit_exp) = Z.pos m * 2 ^ d * 2 ^ (e - d + unit_exp)) as ->.
  { rewrite <- Z.mul_assoc, <- Z.pow_add_r by (unfold unit_exp in *; lia).
    do 2 f_equal. lia. }
  apply round_aux_spec; [nia | unfold unit_exp in *; lia |].
  rewrite Ed. fold f. lia.
Qed.

Lemma round64_mono v1 v2 : v1 ≤ v2 → round64 v1 ≤ round64 v2.
Proof.
  intros Hv. unfold round64. pose proof overflow64_pos.
  destruct (Z.leb_spec 0 v1), (Z.leb_spec 0 v2); try lia.
  - pose proof (RN_mono v1 v2 ltac:(lia)). lia.
  - pose proof (RN_nonneg (- v1) ltac:(lia)). pose proof (RN_nonneg v2 ltac:(lia)). lia.
  - pose proof (RN_mono (- v2) (- v1) ltac:(lia)). lia.
Qed.

Lemma round64_0 : round64 0 = 0.
Proof. unfold round64. simpl. rewrite RN_0. pose proof overflow64_pos. lia. Qed.

Lemma binary_normalize_spec m e b :
  0 ≤ e + unit_exp →
  binary_normalize prec emax m e b ≠ S754_nan ∧
  ival (binary_normalize prec emax m e b) = round64 (m * 2 ^ (e + unit_exp)) ∧
  (0 ≤ m → has_sign false (binary_normalize prec emax m e b) ∨
           binary_normalize prec emax m e b = S754_zero b).
Proof.
  intros He. pose proof (pow2_pos _ He) as Hp. destruct m as [|p|p]; simpl binary_normalize.
  - split; [done|]. split; [by rewrite Z.mul_0_l, round64_0 | by right].
  - destruct (binary_round_spec false p e He) as [Hs Hv].
    split; [intros E; by rewrite E in Hs|]. split; [|by left].
    rewrite Hv. unfold round64, signed.
    destruct (Z.leb_spec 0 (Z.pos p * 2 ^ (e + unit_exp))); [done | nia].
  - destruct (binary_round_spec true p e He) as [Hs Hv].
    split; [intros E; by rewrite E in Hs|]. split; [|lia].
    rewrite Hv. unfold round64, signed.
    destruct (Z.leb_spec 0 (Z.neg p * 2 ^ (e + unit_exp))); [nia|].
    do 3 f_equal. lia.
Qed.

(** ** Valid numbers and their order *)

Lemma valid_finite s m e :
  valid_binary (S754_finite s m e) = true →
  -1074 ≤ e ≤ 971 ∧ Z.pos (digits2_pos m) ≤ 53 ∧
  (-1074 < e → Z.pos (digits2_pos m) = 53).
Proof.
  unfold SpecFloat.valid_binary, bounded, canonical_mantissa.
  rewrite andb_true_iff, Z.eqb_eq, Z.leb_le, fexp_eq. unfold emax, prec. lia.
Qed.

Lemma finite_below_overflow m e :
  valid_binary (S754_finite false m e) = true →
  0 < Z.pos m * 2 ^ (e + unit_exp) < overflow64.
Proof.
  intros (He & Hd & _)%valid_finite. pose proof (digits2_bounds m) as [_ Hm].
  pose proof (pow2_le (Z.pos (digits2_pos m)) 53 ltac:(lia)).
  unfold unit_exp. pose proof (pow2_pos (e + 2148) ltac:(lia)).
  split; [nia|]. apply below_overflow; lia.
Qed.

Lemma valid_sign s s' m e :
  valid_binary (S754_finite s m e) = valid_binary (S754_finite s' m e).
Proof. done. Qed.

(** Of two positive valid numbers the one with the smaller exponent is the
    smaller. *)
Lemma exponent_order m1 e1 m2 e2 :
  valid_binary (S754_finite false m1 e1) = true →
  valid_binary (S754_finite false m2 e2) = true → e1 < e2 →
  Z.pos m1 * 2 ^ (e1 + unit_exp) < Z.pos m2 * 2 ^ (e2 + unit_exp).
Proof.
  intros (He1 & Hd1 & _)%valid_finite (He2 & _ & Hn2)%valid_finite Hlt.
  pose proof (digits2_bounds m1) as [_ Hm1].
  pose proof (digits2_bounds m2) as [Hm2 _]. rewrite Hn2 in Hm2 by lia.
  pose proof (pow2_le (Z.pos (digits2_pos m1)) 53 ltac:(lia)).
  unfold unit_exp.
  pose proof (pow2_pos (e1 + 2148) ltac:(lia)).
  assert (2 ^ (e2 + 2148) = 2 ^ (e2 - e1 - 1) * 2 * 2 ^ (e1 + 2148)) as ->.
  { replace (e2 + 2148) with ((e2 - e1 - 1) + 1 + (e1 + 2148)) by lia.
    by rewrite !Z.pow_add_r, Z.pow_1_r by lia. }
  pose proof (pow2_pos (e2 - e1 - 1) ltac:(lia)).
  change (2 ^ (53 - 1)) with (2 ^ 52) in Hm2.
  assert (2 ^ 53 = 2 ^ 52 * 2) as E53 by done.
  set (a := 2 ^ (e1 + 2148)) in *. set (b := 2 ^ (e2 - e1 - 1)) in *.
  set (c := 2 ^ 52) in *. set (t := 2 ^ 53) in *.
  assert (Z.pos m1 < Z.pos m2 * (b * 2)) as Hlt' by nia.
  rewrite Z.mul_assoc. apply Z.mul_lt_mono_pos_r; lia.
Qed.

Lemma compare_cont_Eq p q : Pos.compare_cont Eq p q = (Z.pos p ?= Z.pos q).
Proof. done. Qed.

Lemma SFcompare_ival x y :
  valid_binary x = true → valid_binary y = true →
  x ≠ S754_nan → y ≠ S754_nan →
  SFcompare x y = Some (ival x ?= ival y).
Proof.
  intros Hx Hy Nx Ny. pose proof overflow64_pos as Ht.
  assert (∀ s m e, valid_binary (S754_finite s m e) = true →
                   0 < Z.pos m * 2 ^ (e + unit_exp) < overflow64) as Hfin.
  { intros s m e Hv. rewrite (valid_sign s false) in Hv. by apply finite_below_overflow. }
  destruct x as [sx|sx| |sx mx ex], y as [sy|sy| |sy my ey]; try done;
    cbn [SFcompare ival]; f_equal;
    try (pose proof (Hfin _ _ _ Hx)); try (pose proof (Hfin _ _ _ Hy)).
  1-7: try destruct sx; try destruct sy; cbn [signed];
    match goal with |- _ = (?a ?= ?b) => destruct (Z.compare_spec a b) end;
    first [done | exfalso; lia].
  rewrite (valid_sign sx false) in Hx. rewrite (valid_sign sy false) in Hy.
  assert (0 < 2 ^ (ey + unit_exp)) as Hp.
  { apply pow2_pos. apply valid_finite in Hy. unfold unit_exp. lia. }
  destruct sx, sy; cbn [signed].
  - destruct (Z.compare_spec ex ey) as [->|Hlt|Hgt].
    + rewrite compare_cont_Eq.
      destruct (Z.compare_spec (Z.pos mx) (Z.pos my)); simpl; symmetry;
        first [apply Z.compare_eq_iff | apply Z.compare_lt_iff | apply Z.compare_gt_iff]; nia.
    + symmetry. apply Z.compare_gt_iff.
      pose proof (exponent_order _ _ _ _ Hx Hy Hlt). lia.
    + symmetry. apply Z.compare_lt_iff.
      pose proof (exponent_order _ _ _ _ Hy Hx ltac:(lia)). lia.
  - symmetry. apply Z.compare_lt_iff. lia.
  - symmetry. apply Z.compare_gt_iff. lia.
  - destruct (Z.compare_spec ex ey) as [->|Hlt|Hgt].
    + rewrite compare_cont_Eq.
      destruct (Z.compare_spec (Z.pos mx) (Z.pos my)); simpl; symmetry;
        first [apply Z.compare_eq_iff | apply Z.compare_lt_iff | apply Z.compare_gt_iff]; nia.
    + symmetry. apply Z.compare_lt_iff.
      pose proof (exponent_order _ _ _ _ Hx Hy Hlt). lia.
    + symmetry. apply Z.compare_gt_iff.
      pose proof (exponent_order _ _ _ _ Hy Hx ltac:(lia)). lia.
Qed.

Lemma SFleb_ival x y :
  valid_binary x = true → valid_binary y = true →
  x ≠ S754_nan → y ≠ S754_nan →
  SFleb x y = true ↔ ival x ≤ ival y.
Proof.
  intros Hx Hy Nx Ny. unfold SFleb. rewrite SFcompare_ival by done.
  destruct (Z.compare_spec (ival x) (ival y)); split; (done || lia).
Qed.






(** ** The operations *)

Lemma round64_valid x :
  valid_binary x = true → SF_fin x → round64 (ival x) = ival x.
Proof.
  intros Hv Hf. destruct x as [s|s| |s m e]; [apply round64_0 | done | done |].
  cbn [ival]. rewrite (valid_sign s false) in Hv.
  pose proof (finite_below_overflow _ _ Hv) as Hb.
  pose proof (valid_finite _ _ _ Hv) as (He & Hd & Hn).
  assert (RN (Z.pos m * 2 ^ (e + unit_exp)) = Z.pos m * 2 ^ (e + unit_exp)) as ERN.
  { apply RN_exact; try lia. rewrite rexp_scaled by (unfold unit_exp; lia).
    rewrite fexp_eq. simpl Zdigits2. lia. }
  unfold round64. destruct s; cbn [signed].
  - destruct (Z.leb_spec 0 (- (Z.pos m * 2 ^ (e + unit_exp)))); [lia|].
    rewrite Z.opp_involutive, ERN. lia.
  - destruct (Z.leb_spec 0 (Z.pos m * 2 ^ (e + unit_exp))); [|lia].
    rewrite ERN. lia.
Qed.


Lemma uint_below_overflow n : 0 ≤ n < 4294967296 → n * 2 ^ unit_exp < overflow64.
Proof.
  intros Hn. unfold unit_exp. change 2148 with (0 + 2148).
  apply below_overflow; [|lia..]. split; [lia|].
  pose proof (pow2_lt 32 53 ltac:(lia)). change (2 ^ 32) with 4294967296 in *. lia.
Qed.

Lemma of_uint_spec n :
  0 ≤ n < 4294967296 →
  SF_nonneg_fin (Prim2SF (of_uint63 (Uint63.of_Z n))) ∧
  ival (Prim2SF (of_uint63 (Uint63.of_Z n))) = n * 2 ^ unit_exp.
Proof.
  intros Hn. rewrite of_uint63_spec, Uint63.of_Z_spec.
  assert (wB = 9223372036854775808) as EwB by reflexivity.
  rewrite Z.mod_small by lia.
  destruct (binary_normalize_spec n 0 false ltac:(done)) as (Hnan & Hv & Hs).
  rewrite Z.add_0_l in Hv.
  assert (round64 (n * 2 ^ unit_exp) = n * 2 ^ unit_exp) as Er.
  { destruct (decide (n = 0)) as [->|Hne]; [by rewrite Z.mul_0_l, round64_0|].
    pose proof (pow2_pos unit_exp ltac:(done)) as Hp.
    unfold round64. destruct (Z.leb_spec 0 (n * 2 ^ unit_exp)); [|nia].
    rewrite RN_exact; [| lia |].
    - pose proof (uint_below_overflow n Hn). lia.
    - unfold rexp. rewrite Z.log2_mul_pow2, emin_unit by (unfold unit_exp; lia).
      pose proof (proj1 (Z.log2_lt_pow2 n 32 ltac:(lia))
                    ltac:(change (2 ^ 32) with 4294967296; lia)).
      unfold prec, unit_exp. lia. }
  rewrite Er in Hv. split; [|done].
  destruct (Hs ltac:(lia)) as [Hf| ->]; [|done].
  destruct (binary_normalize prec emax n 0 false) as [s|s| |s m e]; try done.
  - simpl in Hf. subst s. cbn [ival signed] in Hv.
    pose proof (uint_below_overflow n Hn). lia.
  - simpl in Hf. by subst s.
Qed.



(** The product of two non-negative finite numbers is the rounding of the
    product of their values. *)
Lemma mul_spec_nonneg x y :
  valid_binary x = true → valid_binary y = true → SF_nonneg_fin x → SF_nonneg_fin y →
  SF_nonneg (SF64mul x y) ∧
  ival (SF64mul x y) = Z.min overflow64 (RN (ival x * ival y / 2 ^ unit_exp)).
Proof.
  intros Vx Vy Hx Hy. pose proof overflow64_pos as Ht.
  destruct x as [sx|sx| |[] mx ex], y as [sy|sy| |[] my ey];
    try (exfalso; assumption); cbn [SF64mul SFmul ival SF_nonneg signed].
  - split; [done|]. rewrite Z.mul_0_l, Zdiv_0_l, RN_0. lia.
  - split; [done|]. rewrite Z.mul_0_l, Zdiv_0_l, RN_0. lia.
  - split; [done|]. rewrite Z.mul_0_r, Zdiv_0_l, RN_0. lia.
  - pose proof (valid_finite _ _ _ Vx) as (Hex & Hdx & Hnx).
    pose proof (valid_finite _ _ _ Vy) as (Hey & Hdy & Hny).
    pose proof (digits2_bounds mx) as [Bx _]. pose proof (digits2_bounds my) as [By _].
    pose proof (digits2_log2 mx). pose proof (digits2_log2 my).
    pose proof (Z.log2_nonneg (Z.pos mx)). pose proof (Z.log2_nonneg (Z.pos my)).
    assert (Z.pos (digits2_pos mx) + Z.pos (digits2_pos my) - 1
            ≤ Zdigits2 (Z.pos (mx * my))) as HD.
    { rewrite Zdigits2_log2 by lia.
      assert (Z.log2 (Z.pos mx) + Z.log2 (Z.pos my) ≤ Z.log2 (Z.pos (mx * my))); [|lia].
      apply Z.log2_le_pow2; [lia|]. rewrite Z.pow_add_r by lia.
      rewrite Pos2Z.inj_mul.
      replace (Z.pos (digits2_pos mx) - 1) with (Z.log2 (Z.pos mx)) in Bx by lia.
      replace (Z.pos (digits2_pos my) - 1) with (Z.log2 (Z.pos my)) in By by lia.
      pose proof (pow2_pos (Z.log2 (Z.pos mx)) ltac:(lia)).
      pose proof (pow2_pos (Z.log2 (Z.pos my)) ltac:(lia)). nia. }
    destruct (round_aux_spec false (Z.pos (mx * my)) (ex + ey)) as [Hs Hv].
    + lia.
    + unfold unit_exp. lia.
    + rewrite fexp_eq. lia.
    + change (xorb false false) with false. split.
      * destruct (binary_round_aux _ _ _ _ _ _) as [s|s| |s m e]; try done;
          simpl in Hs; by subst s.
      * rewrite Hv. cbn [signed]. do 2 f_equal.
        rewrite Pos2Z.inj_mul. unfold unit_exp in *.
        replace (Z.pos mx * 2 ^ (ex + 2148) * (Z.pos my * 2 ^ (ey + 2148)))
          with (Z.pos mx * Z.pos my * 2 ^ (ex + ey + 2148) * 2 ^ 2148).
        { by rewrite Z.div_mul by (pose proof (pow2_pos 2148 ltac:(lia)); lia). }
        replace (ex + ey + 2148) with ((ex + 2148) + ey) by lia.
        rewrite <- Z.mul_assoc, <- (Z.pow_add_r 2 (ex + 2148 + ey) 2148) by lia.
        replace (ex + 2148 + ey + 2148) with ((ex + 2148) + (ey + 2148)) by lia.
        rewrite Z.pow_add_r by lia. ring.
Qed.


Lemma aligned_value m e ez :
  ez ≤ e → 0 ≤ ez + unit_exp →
  Z.pos (fst (shl_align m e ez)) * 2 ^ (ez + unit_exp) = Z.pos m * 2 ^ (e + unit_exp).
Proof.
  intros Hle Hz. destruct (shl_align_spec m e ez) as (d & Hd & -> & Emin).
  cbn [fst]. pose proof (pow2_pos d Hd).
  rewrite Z2Pos.id by nia. rewrite <- Z.mul_assoc, <- Z.pow_add_r by lia.
  do 2 f_equal. lia.
Qed.

Lemma cond_Zopp_signed s v : cond_Zopp s v = signed s v.
Proof. done. Qed.

Lemma signed_mul s v w : signed s v * w = signed s (v * w).
Proof. destruct s; simpl; lia. Qed.

(** The sum of two finite numbers is the rounding of the sum of their
    values. *)
Lemma add_spec_fin x y :
  valid_binary x = true → valid_binary y = true → SF_fin x → SF_fin y →
  SF64add x y ≠ S754_nan ∧ ival (SF64add x y) = round64 (ival x + ival y).
Proof.
  intros Vx Vy Hx Hy.
  destruct x as [sx|sx| |sx mx ex], y as [sy|sy| |sy my ey];
    try (exfalso; assumption).
  - split; [by destruct sx, sy|]. cbn [ival]. rewrite Z.add_0_l, round64_0.
    by destruct sx, sy.
  - split; [done|]. cbn [SF64add SFadd]. rewrite Z.add_0_l.
    symmetry. by apply round64_valid.
  - split; [done|]. cbn [SF64add SFadd]. cbn [ival]. rewrite Z.add_0_r.
    symmetry. by apply (round64_valid (S754_finite sx mx ex)).
  - pose proof (valid_finite _ _ _ Vx) as (Hex & _).
    pose proof (valid_finite _ _ _ Vy) as (Hey & _).
    cbn [SF64add SFadd]. set (ez := Z.min ex ey).
    destruct (binary_normalize_spec
                (cond_Zopp sx (Z.pos (fst (shl_align mx ex ez))) +
                 cond_Zopp sy (Z.pos (fst (shl_align my ey ez)))) ez false)
      as (Hnan & Hv & _); [unfold unit_exp, ez; lia|].
    split; [done|]. rewrite Hv. f_equal. cbn [ival].
    rewrite !cond_Zopp_signed, Z.mul_add_distr_r, !signed_mul.
    by rewrite !aligned_value by (unfold unit_exp, ez; lia).
Qed.

(** A difference of finite numbers has the sign of the difference of their
    values. *)
Lemma sub_sign x y :
  valid_binary x = true → valid_binary y = true →
  x ≠ S754_nan → y ≠ S754_nan → ival y ≤ ival x →
  match SF64sub x y with S754_finite s _ _ => s = false | _ => True end.
Proof.
  intros Vx Vy Nx Ny Hle. pose proof overflow64_pos.
  assert (∀ s m e, valid_binary (S754_finite s m e) = true →
                   0 < Z.pos m * 2 ^ (e + unit_exp) < overflow64) as Hfin.
  { intros s m e Hv. rewrite (valid_sign s false) in Hv. by apply finite_below_overflow. }
  destruct x as [sx|sx| |sx mx ex], y as [sy|sy| |sy my ey]; try done;
    try (pose proof (Hfin _ _ _ Vx)); try (pose proof (Hfin _ _ _ Vy));
    cbn [SF64sub SFsub]; cbn [ival] in Hle.
  - by destruct sx, sy.
  - destruct sy; cbn [signed] in Hle; [done | lia].
  - by destruct sx, sy.
  - destruct sx; cbn [signed] in Hle; [lia | done].
  - pose proof (valid_finite _ _ _ Vx) as (Hex & _).
    pose proof (valid_finite _ _ _ Vy) as (Hey & _).
    set (ez := Z.min ex ey).
    set (M := cond_Zopp sx (Z.pos (fst (shl_align mx ex ez))) -
              cond_Zopp sy (Z.pos (fst (shl_align my ey ez)))).
    pose proof (pow2_pos (ez + unit_exp) ltac:(unfold unit_exp, ez; lia)) as Hp.
    assert (M * 2 ^ (ez + unit_exp)
            = signed sx (Z.pos mx * 2 ^ (ex + unit_exp))
              - signed sy (Z.pos my * 2 ^ (ey + unit_exp))) as EM.
    { unfold M. rewrite !cond_Zopp_signed, Z.mul_sub_distr_r, !signed_mul.
      by rewrite !aligned_value by (unfold unit_exp, ez; lia). }
    destruct (binary_normalize_spec M ez false) as (_ & _ & Hs);
      [unfold unit_exp, ez; lia|].
    destruct (Hs ltac:(nia)) as [Hf| ->]; [|done].
    destruct (binary_normalize prec emax M ez false); try done.
Qed.

(** What rounding returns has the sign it was given. *)
Lemma round_aux_sign s m e l :
  match binary_round_aux prec emax s m e l with
  | S754_zero s' | S754_infinity s' | S754_finite s' _ _ => s' = s
  | S754_nan => True
  end.
Proof.
  unfold binary_round_aux. destruct (shr_fexp _ _ _ _ _) as [mrs' e'].
  destruct (shr_fexp _ _ _ _ _) as [mrs'' e''].
  destruct (shr_m mrs''); try done. by destruct (_ <=? _).
Qed.

Lemma div_sign x y :
  SF_nonneg_fin y → match x with S754_finite s _ _ => s = false | _ => True end →
  SF_fin (SF64div x y) → SF_nonneg_fin (SF64div x y).
Proof.
  intros Hy Hx Hf.
  destruct x as [sx|sx| |sx mx ex], y as [sy|sy| |[] my ey]; try done.
  subst sx. cbn [SF64div SFdiv] in *.
  destruct (SFdiv_core_binary _ _ _ _ _ _) as [[mz ez] lz].
  pose proof (round_aux_sign (xorb false false) mz ez lz) as Hs.
  destruct (binary_round_aux _ _ _ _ _ _) as [s|s| |s m e]; try done.
  simpl in Hs. by subst s.
Qed.

Lemma add_inf x : SF_fin x → SF64add x (S754_infinity false) = S754_infinity false.
Proof. by destruct x. Qed.

Lemma nonneg_cases x :
  valid_binary x = true → SF_nonneg x →
  (x = S754_infinity false ∧ ival x = overflow64) ∨ (SF_fin x ∧ 0 ≤ ival x < overflow64).
Proof.
  intros Vx Hx. pose proof overflow64_pos.
  destruct x as [s|[]| |[] m e]; try done; cbn [ival signed].
  - right. split; [done | lia].
  - by left.
  - right. split; [done|]. pose proof (finite_below_overflow _ _ Vx). lia.
Qed.



(** A finite stride [(hi - lo) / k] between ordered bounds, [k] a node count
    less one, is not negative, and the lower bound is finite. *)
Lemma stride_nonneg (lo hi : float) (k : Z) :
  0 ≤ k < 4294967296 → (lo <=? hi)%float = true →
  SF_fin (Prim2SF ((hi - lo) / of_uint63 (Uint63.of_Z k))%float) →
  SF_nonneg_fin (Prim2SF ((hi - lo) / of_uint63 (Uint63.of_Z k))%float) ∧
  SF_fin (Prim2SF lo).
Proof.
  intros Hk Hle Hf. destruct (of_uint_spec k Hk) as [Nk _].
  rewrite FloatAxioms.leb_spec in Hle.
  assert (Prim2SF lo ≠ S754_nan ∧ Prim2SF hi ≠ S754_nan) as [Nlo Nhi].
  { split; intros E; rewrite E in Hle; [done|].
    by destruct (Prim2SF lo). }
  apply SFleb_ival in Hle; auto using Prim2SF_valid.
  pose proof (sub_sign _ _ (Prim2SF_valid hi) (Prim2SF_valid lo) Nhi Nlo Hle) as Hs.
  rewrite FloatAxioms.div_spec, FloatAxioms.sub_spec in *.
  split; [by apply div_sign|].
  destruct (Prim2SF hi) as [sh|sh| |sh mh eh], (Prim2SF lo) as [sl|sl| |sl ml el],
    (Prim2SF (of_uint63 (Uint63.of_Z k))) as [sk|sk| |sk mk ek]; try done.
  all: try (by destruct sh, sl).
Qed.

Lemma ival_range x : valid_binary x = true → - overflow64 ≤ ival x ≤ overflow64.
Proof.
  intros Hv. pose proof overflow64_pos. destruct x as [s|s| |s m e]; cbn [ival]; try lia.
  - destruct s; cbn [signed]; lia.
  - rewrite (valid_sign s false) in Hv. apply finite_below_overflow in Hv.
    destruct s; cbn [signed]; lia.
Qed.

(** No node [mn + i * s] of such an axis is below [mn]. *)
Lemma node_above (mn s : float) (i : Z) :
  0 ≤ i < 4294967296 →
  SF_fin (Prim2SF mn) → SF_nonneg_fin (Prim2SF s) →
  (mn <=? mn + of_uint63 (Uint63.of_Z i) * s)%float = true.
Proof.
  intros Hi Hmn Hs. destruct (of_uint_spec i Hi) as [Ni _].
  destruct (mul_spec_nonneg _ _ (Prim2SF_valid (of_uint63 (Uint63.of_Z i)))
              (Prim2SF_valid s) Ni Hs) as [Np _].
  rewrite <- FloatAxioms.mul_spec in Np.
  set (p := (of_uint63 (Uint63.of_Z i) * s)%float) in *.
  assert (Prim2SF (mn + p) ≠ S754_nan ∧ ival (Prim2SF mn) ≤ ival (Prim2SF (mn + p)))
    as [Hn Hle].
  { rewrite FloatAxioms.add_spec.
    destruct (nonneg_cases _ (Prim2SF_valid p) Np) as [[-> _]|[Fp Bp]].
    - rewrite add_inf by done. split; [done|]. cbn [ival signed].
      apply ival_range, Prim2SF_valid.
    - destruct (add_spec_fin _ _ (Prim2SF_valid mn) (Prim2SF_valid p) Hmn Fp)
        as [Hn ->].
      split; [done|]. rewrite <- (round64_valid _ (Prim2SF_valid mn) Hmn) at 1.
      apply round64_mono. lia. }
  rewrite FloatAxioms.leb_spec. apply SFleb_ival; auto using Prim2SF_valid.
  by destruct (Prim2SF mn).
Qed.

Lemma finite64_fin (a : float) : finite64 a = true → SF_fin (Prim2SF a).
Proof. unfold finite64. by destruct (Prim2SF a). Qed.


Lemma finalized_gridUlp : finalized gridUlp.
Proof. exists configUlp. split; [sized_tac | vm_compute; reflexivity]. Qed.


(** X22. In binary64, under the same conditions, no node of the axis is
    below the lower bound. *)
Theorem raster_above_min (g : Grid float) d n lo hi s :
  finalized g → N g !! d = Some n → 2 ≤ n →
  min g !! d = Some lo → max g !! d = Some hi → (lo <=? hi)%float = true →
  stride g !! d = Some s → finite64 s = true →
  ∃ r, raster g !! d = Some r ∧
       ∀ i a, r !! i = Some a → (lo <=? a)%float = true.
Proof.
  intros (g0 & Hs & Hd & ->)%finalized_inv Hn H2 Hlo Hhi Hle Hst Hfin.
  simpl in *.
  assert (is_uint n) as Hu by (destruct Hs; eapply Forall_lookup_1; eauto).
  unfold is_uint in Hu.
  pose proof (raster_closed_lookup g0 d lo s n Hlo Hst Hn) as Hr.
  rewrite (stride_closed_lookup g0 d hi lo n Hhi Hlo Hn) in Hst.
  simpl in Hst. rewrite wrap_uint in Hst by (unfold is_uint; lia).
  injection Hst as <-. apply finite64_fin in Hfin.
  destruct (stride_nonneg lo hi (n - 1) ltac:(lia) Hle Hfin) as [Hnn Hflo].
  eexists. split; [exact Hr|]. intros i a Ha.
  pose proof (lookup_lt_Some _ _ _ Ha) as Hi. rewrite axis_nodes_length in Hi.
  rewrite axis_nodes_lookup in Ha by done. simplify_eq. simpl.
  by apply node_above; [lia|..].
Qed.

Lemma raster_above_min_witness :
  finalized gridUlp ∧ N gridUlp !! 0%nat = Some 3 ∧ 2 ≤ 3 ∧
  min gridUlp !! 0%nat = Some 0x1p53%float ∧
  max gridUlp !! 0%nat = Some 0x1.0000000000001p53%float ∧
  (0x1p53 <=? 0x1.0000000000001p53)%float = true ∧
  stride gridUlp !! 0%nat = Some 1%float ∧ finite64 1%float = true ∧
  ∃ r, raster gridUlp !! 0%nat = Some r ∧
       ∀ i a, r !! i = Some a → (0x1p53 <=? a)%float = true.
Proof.
  assert (2 ≤ 3) as H2 by lia.
  assert (stride gridUlp !! 0%nat = Some 1%float) as Hst by (vm_compute; reflexivity).
  split; [exact finalized_gridUlp|]. split; [reflexivity|]. split; [exact H2|].
  split; [reflexivity|]. split; [reflexivity|]. split; [reflexivity|].
  split; [exact Hst|]. split; [reflexivity|].
  exact (raster_above_min gridUlp 0 3 0x1p53%float 0x1.0000000000001p53%float
           1%float finalized_gridUlp eq_refl H2 eq_refl eq_refl eq_refl Hst eq_refl).
Defined.


(** The stride has to be finite: on the grid of 2 nodes on [-2^1023, 2^1023]
    the extent overflows, the stride is infinite, and the nodes are a NaN
    and the infinity, in no order. *)
Lemma raster_overflow_unordered :
  finalized gridBig ∧ N gridBig = [2] ∧ min gridBig = [-0x1p1023]%float ∧
  max gridBig = [0x1p1023]%float ∧ (-0x1p1023 <=? 0x1p1023)%float = true ∧
  stride gridBig = [infinity] ∧ raster gridBig !! 0%nat = Some [nan; infinity] ∧
  ¬ nondecreasing [nan; infinity] ∧ ¬ strictly_increasing [nan; infinity].
Proof.
  split; [exists configBig; split; [sized_tac | vm_compute; reflexivity]|].
  do 3 (split; [reflexivity|]). do 3 (split; [vm_compute; reflexivity|]).
  split; intros Hinc; specialize (Hinc 0%nat 1%nat nan infinity);
    simpl in Hinc; vm_compute in Hinc;
    specialize (Hinc ltac:(lia) eq_refl eq_refl); discriminate.
Qed.

(** * The rest of the class *)

(** ** More on loops *)

(** A loop whose body is undefined at one of its steps is undefined. *)
Lemma for_loop_None {St} n d body (s : St) k :
  (d ≤ k < d + n)%nat → (∀ s, body k s = None) → for_loop n d body s = None.
Proof.
  revert d s. induction n as [|n IH]; intros d s Hk Hb; simpl; [lia|].
  destruct (decide (k = d)) as [->|Hne]; [by rewrite Hb|].
  destruct (body d s) as [s1|]; simpl; [|done]. apply IH; [lia | done].
Qed.

(** The loop of the setters copies the first [dim] entries of its source,
    and reads outside of a source that is shorter. *)
Lemma copy_loop_spec {A} dim (src v0 : list A) :
  length v0 = dim →
  for_loop dim 0 (λ d m, a ← src !! d; store m d a) v0
  = if decide (dim ≤ length src)%nat then Some (take dim src) else None.
Proof.
  intros Hv. case_decide as Hs.
  - edestruct (for_loop_inv
      (λ k (v : list A), length v = dim ∧ take k v = take k src))
      as (v & -> & Hl & Ht); [done | |].
    + intros k v Hk [Hl Ht].
      destruct (lookup_lt_is_Some_2 src k ltac:(lia)) as [a Ha].
      rewrite Ha. simpl. rewrite store_Some by lia. eexists. split; [done|].
      split; [by rewrite length_insert|]. by apply take_store; [lia|..].
    + f_equal. simpl in Ht. rewrite <- Ht. by rewrite take_ge by lia.
  - apply (for_loop_None _ _ _ _ (length src)); [lia|].
    intros v. by rewrite lookup_ge_None_2.
Qed.

Lemma fill_loop_spec {A} dim (a : A) (v0 : list A) :
  length v0 = dim →
  for_loop dim 0 (λ d v, store v d a) v0 = Some (replicate dim a).
Proof.
  intros Hv.
  edestruct (for_loop_inv
    (λ k (v : list A), length v = dim ∧ take k v = take k (replicate dim a)))
    as (v & -> & Hl & Ht); [done | |].
  - intros k v Hk [Hl Ht]. rewrite store_Some by lia. eexists. split; [done|].
    split; [by rewrite length_insert|].
    apply take_store; [lia | | done]. apply lookup_replicate_2. lia.
  - f_equal. simpl in Ht. eapply take_all_eq; [done | | done].
    by rewrite length_replicate.
Qed.

(** ** The setters *)

Section Setters.
Context {F : Type} `{Double F}.
Implicit Types g : Grid F.

(** X1. On a grid whose vectors have [DIM] entries, each of [setN], [setMin]
    and [setMax] copies the first [DIM] entries of its argument into its
    member and leaves the other members alone; it reads outside of its
    argument, which is undefined, exactly when the argument has fewer than
    [DIM] entries. *)
Theorem setters_copy g (n : list Z) (lo hi : list F) :
  sized g →
  setN g n
  = (if decide (DIM g ≤ length n)%nat
     then Some (mkGrid (DIM g) (take (DIM g) n) (max g) (min g) (raster g)
                       (cumN g) (stride g) (strideinv g) (nodeCount g)
                       (_idx g) (_x g))
     else None) ∧
  setMin g lo
  = (if decide (DIM g ≤ length lo)%nat
     then Some (mkGrid (DIM g) (N g) (max g) (take (DIM g) lo) (raster g)
                       (cumN g) (stride g) (strideinv g) (nodeCount g)
                       (_idx g) (_x g))
     else None) ∧
  setMax g hi
  = (if decide (DIM g ≤ length hi)%nat
     then Some (mkGrid (DIM g) (N g) (take (DIM g) hi) (min g) (raster g)
                       (cumN g) (stride g) (strideinv g) (nodeCount g)
                       (_idx g) (_x g))
     else None).
Proof.
  intros Hs. destruct Hs. unfold setN, setMin, setMax.
  rewrite !copy_loop_spec by done. repeat split; by case_decide.
Qed.

(** X2. [setN(uint)] gives every axis of a grid whose vectors have [DIM]
    entries the same number of nodes, and leaves the other members alone. *)
Theorem setN_all_uniform g (n : Z) :
  sized g →
  setN_all g n
  = Some (mkGrid (DIM g) (replicate (DIM g) n) (max g) (min g) (raster g)
                 (cumN g) (stride g) (strideinv g) (nodeCount g)
                 (_idx g) (_x g)).
Proof.
  intros Hs. destruct Hs. unfold setN_all, setN.
  rewrite fill_loop_spec by by rewrite length_replicate. simpl.
  rewrite copy_loop_spec by done. rewrite length_replicate.
  rewrite decide_True by lia. simpl.
  by rewrite take_ge by (rewrite length_replicate; lia).
Qed.

End Setters.

Lemma setters_copy_witness :
  sized config33 ∧
  setN config33 [5; 7; 9]
  = Some (mkGrid 2 [5; 7] [2; 2]%float [0; 0]%float [[]; []] [0; 0]
                 [0; 0]%float [0; 0]%float 0 [0; 0] [0; 0]%float) ∧
  setMin config33 [1]%float = None.
Proof.
  split; [exact sized_config33|].
  destruct (setters_copy config33 [5; 7; 9] [1]%float [] sized_config33)
    as (H1 & H2 & _).
  split; [exact H1 | exact H2].
Defined.

Lemma setN_all_uniform_witness :
  sized config33 ∧
  setN_all config33 4
  = Some (mkGrid 2 [4; 4] [2; 2]%float [0; 0]%float [[]; []] [0; 0]
                 [0; 0]%float [0; 0]%float 0 [0; 0] [0; 0]%float).
Proof.
  split; [exact sized_config33|].
  exact (setN_all_uniform config33 4 sized_config33).
Defined.

(** ** What [rasterize] computes *)

Section RasterizeMore.
Context {F : Type} `{Double F}.
Implicit Types g : Grid F.

(** X3. On a grid whose vectors have [DIM] entries, [rasterize] is undefined
    exactly when there is no axis (it reads [N[0]]); otherwise it keeps the
    configuration and the scratch vectors, and leaves in [nodeCount] the
    product of the node counts reduced to [uint], and on every axis [d]: in
    [cumN[d]] the product of the node counts of the axes before [d], reduced
    to [uint]; in [stride[d]] the quotient [(max[d]-min[d])/(N[d]-1)]; in
    [strideinv[d]] its inverse; in [raster[d]] the [N[d]] nodes
    [min[d] + n*stride[d]]. *)
Theorem rasterize_members g :
  sized g →
  (rasterize g = None ↔ DIM g = 0%nat) ∧
  ∀ g', rasterize g = Some g' →
    DIM g' = DIM g ∧ N g' = N g ∧ max g' = max g ∧ min g' = min g ∧
    _idx g' = _idx g ∧ _x g' = _x g ∧
    nodeCount g' = wrap (prod (N g)) ∧
    ∀ d n mn mx, N g !! d = Some n → min g !! d = Some mn →
                 max g !! d = Some mx →
      let s := d_div (d_sub mx mn) (d_of_uint (wrap (n - 1))) in
      cumN g' !! d = Some (wrap (prod (take d (N g)))) ∧
      stride g' !! d = Some s ∧
      strideinv g' !! d = Some (d_div d_one s) ∧
      ∃ r, raster g' !! d = Some r ∧ length r = Z.to_nat n ∧
           ∀ i, (i < Z.to_nat n)%nat →
                r !! i = Some (d_add mn (d_mul (d_of_uint (Z.of_nat i)) s)).
Proof.
  intros Hs. split.
  - split.
    + intros Hn. destruct (DIM g) as [|k] eqn:Hd; [done|].
      rewrite rasterize_derived in Hn by (done || lia). done.
    + intros Hd. destruct (rasterize g) as [g'|] eqn:Hr; [|done].
      apply rasterize_inv in Hr as [? _]; [lia | done].
  - intros g' Hr. apply rasterize_inv in Hr as [Hd ->]; [|done]. simpl.
    repeat (split; [done|]). intros d n mn mx Hn Hmn Hmx.
    set (s := d_div (d_sub mx mn) (d_of_uint (wrap (n - 1)))).
    pose proof (stride_closed_lookup g d mx mn n Hmx Hmn Hn) as Hst.
    split; [apply cumN_closed_lookup; by eapply lookup_lt_Some|].
    split; [done|]. split; [by rewrite list_lookup_fmap, Hst|].
    exists (axis_nodes n mn s). split; [by apply raster_closed_lookup|].
    split; [apply axis_nodes_length|]. intros i Hi. by apply axis_nodes_lookup.
Qed.

End RasterizeMore.

Lemma rasterize_members_witness :
  sized config33 ∧ (rasterize config33 = None ↔ DIM config33 = 0%nat) ∧
  nodeCount grid33 = wrap (prod (N config33)).
Proof.
  split; [exact sized_config33|].
  destruct (rasterize_members config33 sized_config33) as [H1 H2].
  split; [exact H1|].
  destruct (H2 grid33 ltac:(vm_compute; reflexivity)) as (_ & _ & _ & _ & _ & _ & H3 & _).
  exact H3.
Defined.

(** ** The class invariant *)

Section Invariant.
Context {F : Type} `{Double F}.
Implicit Types g : Grid F.

Lemma sized_with_idx g ix : sized g → length ix = DIM g → sized (with_idx g ix).
Proof. intros [] Hl. by constructor. Qed.

Lemma sized_with_x g x : sized g → length x = DIM g → sized (with_x g x).
Proof. intros [] Hl. by constructor. Qed.

Lemma advance_length n d (bmin bmax ix ix' : list Z) :
  advance n d bmin bmax ix = Some ix' → length ix' = length ix.
Proof.
  revert d ix. induction n as [|n IH]; intros d ix; simpl; [by intros [= <-]|].
  destruct (ix !! d) as [v|]; simpl; [|done].
  destruct (store ix d (wrap (v + 1))) as [ix1|] eqn:H1; simpl; [|done].
  apply store_inv in H1 as [_ ->].
  destruct (<[d:=wrap (v + 1)]> ix !! d) as [v'|]; simpl; [|done].
  destruct (bmax !! d) as [hi|]; simpl; [|done].
  destruct (v' <=? hi); [intros [= <-]; by rewrite length_insert|].
  destruct (bmin !! d) as [lo|]; simpl; [|done].
  destruct (store _ d lo) as [ix2|] eqn:H2; simpl; [|done].
  apply store_inv in H2 as [_ ->]. intros Ha%IH.
  by rewrite Ha, !length_insert.
Qed.

Lemma reset_idx_length dim (bmin ix ix' : list Z) :
  reset_idx dim bmin ix = Some ix' → length ix' = length ix.
Proof.
  unfold reset_idx. intros Hl.
  refine (for_loop_inv_Some (λ _ v, length v = length ix) _ _ _ _ _ _ _ Hl);
    [done|].
  intros k v v' _ Hv Hb. destruct (bmin !! k); simpl in Hb; [|done].
  apply store_inv in Hb as [_ ->]. by rewrite length_insert.
Qed.

(** The loop of the four lookups of a node keeps the size of [_idx]. *)
Lemma lookup_loop_length (cast : F → option Z) (off : Z) g (x : list F) ix :
  for_loop (DIM g) 0
    (λ d ix,
       xd ← x !! d; mn ← min g !! d; si ← strideinv g !! d; nd ← N g !! d;
       v ← cast (d_mul (d_sub xd mn) si);
       let hi := to_int nd - off in
       if is_intb hi then store ix d (wrap (qBound 0 v hi)) else None)
    (_idx g) = Some ix →
  length ix = length (_idx g).
Proof.
  intros Hl.
  refine (for_loop_inv_Some (λ _ v, length v = length (_idx g)) _ _ _ _ _ _ _ Hl);
    [done|].
  intros k v v' _ Hv Hb.
  destruct (x !! k); simpl in Hb; [|done].
  destruct (min g !! k); simpl in Hb; [|done].
  destruct (strideinv g !! k); simpl in Hb; [|done].
  destruct (N g !! k); simpl in Hb; [|done].
  destruct (cast _); simpl in Hb; [|done].
  destruct (is_intb _); [|done].
  apply store_inv in Hb as [_ ->]. by rewrite length_insert.
Qed.

Lemma convertIndex_flat_length g v g' :
  convertIndex_flat g v = Some g' →
  length (_idx g') = length (_idx g) ∧ g' = with_idx g (_idx g').
Proof.
  unfold convertIndex_flat. intros Hc.
  destruct (for_loop _ _ _ _) as [[v' ix]|] eqn:Hl; simpl in Hc; [|done].
  simplify_eq. simpl. split; [|done].
  refine (for_loop_inv_Some (λ _ (s : Z * list Z), length (s.2) = length (_idx g))
            _ _ _ _ _ _ _ Hl); [done|].
  intros k [w jx] [w' jx'] _ Hv Hb. simpl in *.
  destruct (N g !! k) as [n|]; simpl in Hb; [|done].
  case_decide; [done|].
  destruct (store jx k (w `mod` n)) as [jx1|] eqn:Hst; simpl in Hb; [|done].
  apply store_inv in Hst as [_ ->]. simplify_eq. by rewrite length_insert.
Qed.

Lemma read_nodes_length g idx x :
  read_nodes g idx = Some x → length x = length (_x g).
Proof.
  unfold read_nodes. intros Hl.
  refine (for_loop_inv_Some (λ _ v, length v = length (_x g)) _ _ _ _ _ _ _ Hl);
    [done|].
  intros k v v' _ Hv Hb.
  destruct (idx !! k) as [i|]; simpl in Hb; [|done].
  destruct (raster g !! k) as [rd|]; simpl in Hb; [|done].
  destruct (rd !! Z.to_nat i); simpl in Hb; [|done].
  apply store_inv in Hb as [_ ->]. by rewrite length_insert.
Qed.

End Invariant.

(** ** The odometer *)

Lemma for_loop_ext {St} n d (b1 b2 : nat → St → option St) (s : St) :
  (∀ k s, b1 k s = b2 k s) → for_loop n d b1 s = for_loop n d b2 s.
Proof.
  intros Hb. revert d s. induction n as [|n IH]; intros d s; simpl; [done|].
  rewrite Hb. destruct (b2 d s); simpl; [apply IH | done].
Qed.

Lemma insert_middle {A} (l1 l2 : list A) x y :
  <[length l1 := y]> (l1 ++ x :: l2) = l1 ++ y :: l2.
Proof.
  rewrite <- (Nat.add_0_r (length l1)). by rewrite insert_app_r.
Qed.

Lemma succ_mod_lt k e :
  0 ≤ k → 0 < e → k mod e + 1 < e →
  (k + 1) mod e = k mod e + 1 ∧ (k + 1) / e = k / e.
Proof.
  intros Hk He Hlt. pose proof (Z.mod_pos_bound k e He).
  pose proof (Z.div_mod k e ltac:(lia)) as Hdm.
  split.
  - symmetry. apply (Z.mod_unique _ _ (k / e)); lia.
  - symmetry. apply (Z.div_unique _ _ _ (k mod e + 1)); lia.
Qed.

Lemma succ_mod_carry k e :
  0 ≤ k → 0 < e → k mod e + 1 = e →
  (k + 1) mod e = 0 ∧ (k + 1) / e = k / e + 1.
Proof.
  intros Hk He Hlt.
  pose proof (Z.div_mod k e ltac:(lia)) as Hdm.
  split.
  - symmetry. apply (Z.mod_unique _ _ (k / e + 1)); lia.
  - symmetry. apply (Z.div_unique _ _ _ 0); lia.
Qed.

Lemma box_point_cons l lo e es k :
  box_point (l :: lo) (e :: es) k = (l + k mod e) :: box_point lo es (k / e).
Proof. done. Qed.

Lemma box_point_length lo es k :
  length es = length lo → length (box_point lo es k) = length lo.
Proof.
  intros Hl. unfold box_point. rewrite length_zip_with, digits_length. lia.
Qed.

Lemma extents_length lo hi :
  length hi = length lo → length (extents lo hi) = length lo.
Proof. intros Hl. unfold extents. rewrite length_zip_with. lia. Qed.

Lemma box_point_0 lo es : length es = length lo → box_point lo es 0 = lo.
Proof.
  revert es. induction lo as [|l lo IH]; intros [|e es] Hl; simplify_eq/=; try done.
  rewrite box_point_cons, Zmod_0_l, Zdiv_0_l, IH by done.
  by rewrite Z.add_0_r.
Qed.

(** One step of the odometer leads from the [k]-th node of the box to the
    next, and from the last node back to the first. *)
Lemma advance_digits lo hi :
  Forall2 (λ l h, 0 ≤ l ≤ h ∧ h < 4294967295) lo hi →
  ∀ k plo phi pre, 0 ≤ k →
    length plo = length pre → length phi = length pre →
    advance (length lo) (length pre) (plo ++ lo) (phi ++ hi)
            (pre ++ box_point lo (extents lo hi) k)
    = Some (pre ++ box_point lo (extents lo hi) (k + 1)).
Proof.
  induction 1 as [|l h lo hi [Hl Hh] H2 IH]; intros k plo phi pre Hk Hplo Hphi.
  - done.
  - change (extents (l :: lo) (h :: hi)) with ((h - l + 1) :: extents lo hi).
    rewrite !box_point_cons. set (e := h - l + 1).
    pose proof (Z.mod_pos_bound k e ltac:(lia)) as Hm.
    simpl advance.
    rewrite (list_lookup_middle plo lo l (length pre)) by done.
    rewrite (list_lookup_middle phi hi h (length pre)) by done.
    rewrite (list_lookup_middle pre _ _ (length pre)) by done. simpl.
    rewrite store_Some by (rewrite length_app; simpl; lia). simpl.
    rewrite insert_middle.
    rewrite (list_lookup_middle pre _ _ (length pre)) by done. simpl.
    rewrite (wrap_uint (l + k mod e + 1)) by (unfold is_uint; lia).
    destruct (Z.leb_spec (l + k mod e + 1) h) as [Hle|Hgt].
    + destruct (succ_mod_lt k e) as [-> ->]; [lia..|]. do 3 f_equal. lia.
    + destruct (succ_mod_carry k e) as [-> ->]; [lia..|].
      rewrite store_Some by (rewrite length_app; simpl; lia). simpl.
      rewrite insert_middle. rewrite Z.add_0_r.
      specialize (IH (k / e) (plo ++ [l]) (phi ++ [h]) (pre ++ [l])).
      rewrite !length_app in IH. simpl in IH.
      rewrite <- !app_assoc in IH. simpl in IH.
      replace (length pre + 1)%nat with (S (length pre)) in IH by lia.
      apply IH; [apply Z.div_pos; lia | lia | lia].
Qed.

Section Odometer.
Context {F : Type} `{Double F}.
Implicit Types g : Grid F.

(** The enumeration loop visits the nodes of a box in order, axis 0 running
    fastest, and hands the flat index of each to [push]. *)
Lemma enum_loop_box push g lo hi K :
  (0 < DIM g)%nat → length (N g) = DIM g → cumN g = cumN_closed (N g) →
  length lo = DIM g → Forall2 (λ l h, 0 ≤ l ≤ h ∧ h < 4294967295) lo hi →
  enum_loop push g lo hi K lo
  = Some (foldl push []
            (map (λ k, wrap (horner (box_point lo (extents lo hi) (Z.of_nat k))
                                    (N g)))
                 (seq 0 K)),
          box_point lo (extents lo hi) (Z.of_nat K)).
Proof.
  intros Hd Hn Hc Hlo H2. unfold enum_loop.
  pose proof (Forall2_length _ _ _ H2) as Hlen.
  set (es := extents lo hi).
  assert (length es = length lo) as Hes by (apply extents_length; lia).
  set (f := λ k : nat, wrap (horner (box_point lo es (Z.of_nat k)) (N g))).
  edestruct (for_loop_inv
    (λ k (s : list Z * list Z),
       s = (foldl push [] (map f (seq 0 k)), box_point lo es (Z.of_nat k))))
    as (s & -> & ->); [| | done].
  - simpl. by rewrite box_point_0.
  - intros k s _ ->.
    assert (Forall is_uint (box_point lo es (Z.of_nat k))) as Hu.
    { clear -H2. unfold es. generalize (Z.of_nat k) as j.
      induction H2 as [|l h lo hi [Hl Hh] _ IH]; intros j; [constructor|].
      change (extents (l :: lo) (h :: hi)) with ((h - l + 1) :: extents lo hi).
      rewrite box_point_cons. constructor; [|apply IH].
      pose proof (Z.mod_pos_bound j (h - l + 1) ltac:(lia)).
      unfold is_uint. lia. }
    rewrite convertIndex_dim_closed; try done;
      [|rewrite box_point_length; lia].
    cbn [mbind option_bind].
    pose proof (advance_digits lo hi H2 (Z.of_nat k) [] [] [] ltac:(lia)
                  eq_refl eq_refl) as Ha.
    simpl in Ha. rewrite Hlo in Ha. fold es in Ha. rewrite Ha.
    cbn [mbind option_bind].
    eexists. split; [done|].
    rewrite seq_S, map_app, foldl_app. simpl. do 2 f_equal. lia.
Qed.

End Odometer.

(** ** The nodes of a box *)

Lemma prod_le es ns :
  Forall2 (λ e n, 0 < e ≤ n) es ns → 0 < prod es ≤ prod ns.
Proof.
  induction 1 as [|e n es ns He _ IH]; [rewrite prod_nil; lia|].
  rewrite !prod_cons. nia.
Qed.

Lemma extents_pos lo hi :
  Forall2 (λ l h, l ≤ h) lo hi → Forall (λ e, 0 < e) (extents lo hi).
Proof.
  induction 1 as [|l h lo hi Hl _ IH]; [constructor|].
  constructor; [lia | done].
Qed.

(** Every node of the enumeration lies in the box. *)
Lemma box_point_in_box lo hi k :
  Forall2 (λ l h, l ≤ h) lo hi →
  Forall2 Z.le lo (box_point lo (extents lo hi) k) ∧
  Forall2 Z.le (box_point lo (extents lo hi) k) hi.
Proof.
  intros H2. revert k. induction H2 as [|l h lo hi Hl _ IH]; intros k.
  - split; constructor.
  - change (extents (l :: lo) (h :: hi)) with ((h - l + 1) :: extents lo hi).
    rewrite box_point_cons. destruct (IH (k / (h - l + 1))) as [IH1 IH2].
    pose proof (Z.mod_pos_bound k (h - l + 1) ltac:(lia)).
    split; (constructor; [lia | done]).
Qed.

(** Every node of the box is met, at an index below the size of the box. *)
Lemma box_decode lo hi p :
  Forall2 Z.le lo p → Forall2 Z.le p hi →
  ∃ k, 0 ≤ k < prod (extents lo hi) ∧ box_point lo (extents lo hi) k = p.
Proof.
  intros H1. revert hi. induction H1 as [|l a lo p Hl _ IH]; intros hi H2.
  - inversion_clear H2. exists 0. simpl. rewrite prod_nil. split; [lia | done].
  - inversion H2 as [|? h ? hi' Ha H2']; subst.
    destruct (IH hi' H2') as (k' & Hk' & Hp).
    change (extents (l :: lo) (h :: hi')) with ((h - l + 1) :: extents lo hi').
    set (e := h - l + 1). exists (a - l + k' * e). rewrite prod_cons.
    split; [nia|]. rewrite box_point_cons.
    rewrite Z_mod_plus_full, Z.mod_small by lia.
    rewrite Z.div_add by lia. rewrite Z.div_small by lia. rewrite Z.add_0_l, Hp.
    f_equal. lia.
Qed.

Lemma box_points_elem lo hi p :
  Forall2 (λ l h, l ≤ h) lo hi →
  p ∈ box_points lo (extents lo hi) ↔ Forall2 Z.le lo p ∧ Forall2 Z.le p hi.
Proof.
  intros H2. unfold box_points. rewrite list_elem_of_fmap. split.
  - intros (k & -> & _). by apply box_point_in_box.
  - intros [H1 H3]. destruct (box_decode lo hi p H1 H3) as (k & Hk & Hp).
    exists (Z.to_nat k). split; [by rewrite Z2Nat.id by lia|].
    apply elem_of_seq. lia.
Qed.

(** Different indices below the size of the box give different nodes. *)
Lemma box_point_inj lo hi k1 k2 :
  Forall2 (λ l h, l ≤ h) lo hi →
  0 ≤ k1 < prod (extents lo hi) → 0 ≤ k2 < prod (extents lo hi) →
  box_point lo (extents lo hi) k1 = box_point lo (extents lo hi) k2 → k1 = k2.
Proof.
  intros H2. revert k1 k2. induction H2 as [|l h lo hi Hl H2 IH]; intros k1 k2.
  - simpl. rewrite prod_nil. lia.
  - change (extents (l :: lo) (h :: hi)) with ((h - l + 1) :: extents lo hi).
    set (e := h - l + 1). rewrite prod_cons, !box_point_cons.
    intros Hk1 Hk2 [= Hm Hd].
    assert (0 < prod (extents lo hi)) by (apply prod_pos; by apply extents_pos).
    assert (k1 / e = k2 / e) as Hq.
    { apply IH; [| |done]; (split; [apply Z.div_pos; lia|]);
        apply Z.div_lt_upper_bound; lia. }
    rewrite (Z.div_mod k1 e), (Z.div_mod k2 e) by lia. rewrite Hq. lia.
Qed.

Lemma NoDup_box_points lo hi :
  Forall2 (λ l h, l ≤ h) lo hi → NoDup (box_points lo (extents lo hi)).
Proof.
  intros H2. unfold box_points. apply NoDup_fmap_2_strong; [|apply NoDup_seq].
  intros k1 k2 Hk1%elem_of_seq Hk2%elem_of_seq Heq.
  assert (0 < prod (extents lo hi)) by (apply prod_pos; by apply extents_pos).
  apply box_point_inj in Heq; [lia | done | lia | lia].
Qed.

Lemma box_points_length lo es :
  length (box_points lo es) = Z.to_nat (prod es).
Proof. unfold box_points. by rewrite length_map, length_seq. Qed.

(** Dim indices inside the grid have different flat indices, all below the
    number of nodes, when that number fits a [uint]. *)
Lemma horner_inj p q ns :
  Forall2 (λ i n, 0 ≤ i < n) p ns → Forall2 (λ i n, 0 ≤ i < n) q ns →
  horner p ns = horner q ns → p = q.
Proof.
  intros Hp Hq Heq. rewrite <- (digits_horner p ns), <- (digits_horner q ns) by done.
  by rewrite Heq.
Qed.

Lemma wrap_horner_inj p q ns :
  prod ns ≤ 4294967296 →
  Forall2 (λ i n, 0 ≤ i < n) p ns → Forall2 (λ i n, 0 ≤ i < n) q ns →
  wrap (horner p ns) = wrap (horner q ns) → p = q.
Proof.
  intros Hns Hp Hq. pose proof (horner_bound _ _ Hp). pose proof (horner_bound _ _ Hq).
  rewrite !wrap_uint by (unfold is_uint; lia). by apply horner_inj.
Qed.

(** What the two enumerations do with the flat indices they meet. *)
Lemma foldl_keep (center : Z) acc l :
  foldl (λ nbh c, if decide (c ≠ center) then nbh ++ [c] else nbh) acc l
  = acc ++ filter (λ c, c ≠ center) l.
Proof.
  revert acc. induction l as [|c l IH]; intros acc; simpl.
  - by rewrite app_nil_r.
  - rewrite IH, filter_cons. case_decide; [|done]. by rewrite <- app_assoc.
Qed.

Lemma foldl_all (acc l : list Z) :
  foldl (λ nbh c, nbh ++ [c]) acc l = acc ++ l.
Proof.
  revert acc. induction l as [|c l IH]; intros acc; simpl.
  - by rewrite app_nil_r.
  - by rewrite IH, <- app_assoc.
Qed.

Lemma length_filter_ne (c : Z) l :
  NoDup l → c ∈ l → S (length (filter (λ x, x ≠ c) l)) = length l.
Proof.
  induction 1 as [|x l Hx Hnd IH]; intros Hc; [by apply elem_of_nil in Hc|].
  rewrite filter_cons. apply elem_of_cons in Hc as [<-|Hc].
  - rewrite decide_False by naive_solver. simpl. f_equal.
    clear IH Hnd. induction l as [|y l IH]; [done|].
    apply not_elem_of_cons in Hx as [Hne Hx].
    rewrite filter_cons, decide_True by done. simpl. f_equal. by apply IH.
  - rewrite decide_True by (intros ->; done). simpl. f_equal. by apply IH.
Qed.

Lemma count_box_closed dim lo hi :
  length lo = dim → Forall2 (λ l h, 0 ≤ l ≤ h ∧ h < 4294967295) lo hi →
  count_box dim lo hi = Some (wrap (prod (extents lo hi))).
Proof.
  intros Hlo H2. pose proof (Forall2_length _ _ _ H2) as Hlen.
  unfold count_box.
  edestruct (for_loop_inv (λ k nb, nb = wrap (prod (take k (extents lo hi)))))
    as (nb & -> & ->).
  - rewrite take_0, prod_nil. done.
  - intros k nb Hk ->.
    destruct (lookup_lt_is_Some_2 lo k ltac:(lia)) as [l Hl].
    destruct (lookup_lt_is_Some_2 hi k ltac:(lia)) as [h Hh].
    destruct (Forall2_lookup_lr _ _ _ _ _ _ H2 Hl Hh) as [? ?].
    rewrite Hl, Hh. simpl. eexists. split; [done|].
    rewrite (prod_take_S _ _ (h - l + 1))
      by (unfold extents; by rewrite lookup_zip_with, Hl, Hh).
    rewrite (wrap_uint (h - l)) by (unfold is_uint; lia).
    rewrite (wrap_uint (h - l + 1)) by (unfold is_uint; lia).
    by rewrite wrap_mul_l.
  - simpl. rewrite take_ge; [done|]. rewrite extents_length; lia.
Qed.

(** ** The neighbourhood is the clipped box without its centre *)

(** What the bounds of [enumerateNeighborHood] are when nothing wraps. *)
Lemma nb_box_bounds idx ns r :
  0 ≤ r →
  Forall2 (λ i n, 0 ≤ i < n ∧ n < 4294967296 ∧ i + r < 4294967296) idx ns →
  Forall2 (λ l h, 0 ≤ l ≤ h ∧ h < 4294967295) (nb_bmin idx r) (nb_bmax idx ns r) ∧
  extents (nb_bmin idx r) (nb_bmax idx ns r)
  = zip_with (λ i n, Z.min (i + r) (n - 1) - Z.max 0 (i - r) + 1) idx ns ∧
  Forall2 (λ e n, 0 < e ≤ n) (extents (nb_bmin idx r) (nb_bmax idx ns r)) ns ∧
  ∀ p, Forall2 Z.le (nb_bmin idx r) p ∧ Forall2 Z.le p (nb_bmax idx ns r) ↔
       Forall2 (λ a n, 0 ≤ a < n) p ns ∧
       Forall2 (λ a i, i - r ≤ a ≤ i + r) p idx.
Proof.
  intros Hr. induction 1 as [|i n idx ns (Hi & Hn & Hir) _ (IH1 & IH2 & IH3 & IH4)].
  - split; [constructor|]. split; [done|]. split; [constructor|].
    intros p. split; intros [Hp _]; inversion_clear Hp; split; constructor.
  - assert ((if i <? r then 0 else wrap (i - r)) = Z.max 0 (i - r)) as Hlo.
    { destruct (Z.ltb_spec i r); [lia|].
      rewrite wrap_uint by (unfold is_uint; lia). lia. }
    assert (Z.min (wrap (i + r)) (wrap (n - 1)) = Z.min (i + r) (n - 1)) as Hhi.
    { by rewrite !wrap_uint by (unfold is_uint; lia). }
    unfold nb_bmin, nb_bmax, extents in *. simpl. rewrite Hlo, Hhi.
    split; [constructor; [lia | done]|].
    split; [by rewrite IH2|]. split; [constructor; [lia | done]|].
    intros p. split.
    + intros [Hp1 Hp2]. inversion Hp1 as [|? a ? p' Ha Hp1']; subst.
      inversion_clear Hp2 as [|???? Ha' Hp2'].
      destruct (proj1 (IH4 p') (conj Hp1' Hp2')) as [??].
      split; (constructor; [lia | done]).
    + intros [Hp1 Hp2]. inversion Hp1 as [|a ? p' ? Ha Hp1']; subst.
      inversion_clear Hp2 as [|???? Ha' Hp2'].
      destruct (proj2 (IH4 p') (conj Hp1' Hp2')) as [??].
      split; (constructor; [lia | done]).
Qed.

Section Ball.
Context {F : Type} `{Double F}.
Implicit Types g : Grid F.

Lemma finalized_facts g :
  finalized g →
  sized g ∧ (0 < DIM g)%nat ∧ cumN g = cumN_closed (N g) ∧
  nodeCount g = wrap (prod (N g)).
Proof.
  intros Hg. destruct (finalized_sized g Hg) as [Hs Hd].
  destruct (finalized_inv g Hg) as (g0 & _ & _ & ->). done.
Qed.

(** The flat index of a dim index inside a finalized grid. *)
Lemma convertIndex_dim_in_range g p :
  finalized g → Forall2 (λ a n, 0 ≤ a < n) p (N g) →
  convertIndex_dim g p = Some (wrap (horner p (N g))).
Proof.
  intros (Hs & Hd & Hc & _)%finalized_facts Hp. destruct Hs.
  apply convertIndex_dim_closed; try done.
  - apply Forall2_length in Hp. lia.
  - eapply Forall2_Forall_l; [apply Hp|].
    eapply Forall_impl; [apply sized_uint0|]. unfold is_uint. intros; lia.
Qed.

Lemma nb_loop_enum g (center : Z) bmin bmax K ix0 :
  for_loop K 0
    (λ _ '(neighborhood, ix),
       c ← convertIndex_dim g ix;
       let neighborhood :=
         if decide (c ≠ center) then neighborhood ++ [c] else neighborhood in
       ix ← advance (DIM g) 0 bmin bmax ix;
       Some (neighborhood, ix))
    ([], ix0)
  = enum_loop (λ nbh c, if decide (c ≠ center) then nbh ++ [c] else nbh)
              g bmin bmax K ix0.
Proof.
  unfold enum_loop. apply for_loop_ext. intros k [nbh ix]. simpl.
  destruct (convertIndex_dim g ix); simpl; [|done].
  by destruct (advance _ _ _ _ ix).
Qed.

(** The sequence [enumerateNeighborHood] returns, when nothing wraps. *)
Lemma enumerateNeighborHood_list g idx radius :
  finalized g → in_range g idx → 0 ≤ radius → prod (N g) < 4294967296 →
  (∀ d i, idx !! d = Some i → i + radius < 4294967296) →
  let lo := nb_bmin idx radius in
  let hi := nb_bmax idx (N g) radius in
  Forall2 (λ i n, 0 ≤ i < n ∧ n < 4294967296 ∧ i + radius < 4294967296)
          idx (N g) ∧
  ∃ g', enumerateNeighborHood g idx radius
        = Some (filter (λ c, c ≠ wrap (horner idx (N g)))
                       ((λ p, wrap (horner p (N g))) <$>
                        box_points lo (extents lo hi)), g').
Proof.
  intros Hg Hr Hrad Hp Hwrap lo hi.
  destruct (finalized_facts g Hg) as (Hs & Hd & Hc & _).
  pose proof (in_range_Forall2 _ _ Hr ltac:(by destruct Hs)) as H2.
  assert (Forall2 (λ i n, 0 ≤ i < n ∧ n < 4294967296 ∧ i + radius < 4294967296)
                  idx (N g)) as H3.
  { apply Forall2_same_length_lookup. split; [by eapply Forall2_length|].
    intros d i n Hi Hn. pose proof (Forall2_lookup_lr _ _ _ _ _ _ H2 Hi Hn).
    destruct Hs. pose proof (Forall_lookup_1 _ _ _ _ sized_uint0 Hn) as Hu.
    unfold is_uint in Hu. split; [done|]. split; [lia | by eapply Hwrap]. }
  split; [done|].
  destruct (nb_box_bounds idx (N g) radius Hrad H3) as (Hb & _ & He & _).
  fold lo hi in Hb, He. destruct Hr as [Hl _]. destruct Hs.
  unfold enumerateNeighborHood.
  rewrite (convertIndex_dim_in_range g idx Hg H2). simpl.
  rewrite nb_box_closed by done. simpl. fold lo hi.
  assert (length lo = DIM g) as Hlo by (unfold lo, nb_bmin; by rewrite length_map).
  rewrite count_box_closed by done. cbn [mbind option_bind].
  pose proof (prod_le _ _ He).
  rewrite (wrap_uint (prod (extents lo hi))) by (unfold is_uint; lia).
  rewrite reset_idx_closed by done. cbn [mbind option_bind].
  rewrite nb_loop_enum, enum_loop_box by done. cbn [mbind option_bind].
  rewrite foldl_keep. eexists. rewrite app_nil_l. do 3 f_equal.
  unfold box_points. by rewrite <- list_fmap_compose.
Qed.

(** The neighbourhood as a set: the box clipped to the grid, less the centre. *)
Lemma enumerateNeighborHood_members g idx radius :
  finalized g → in_range g idx → 0 ≤ radius → prod (N g) < 4294967296 →
  (∀ d i, idx !! d = Some i → i + radius < 4294967296) →
  ∃ c nbh g',
    convertIndex_dim g idx = Some c ∧
    enumerateNeighborHood g idx radius = Some (nbh, g') ∧
    NoDup nbh ∧
    (∀ k, k ∈ nbh ↔
          k ≠ c ∧ ∃ p, in_range g p ∧
                       Forall2 (λ a i, i - radius ≤ a ≤ i + radius) p idx ∧
                       convertIndex_dim g p = Some k) ∧
    Z.of_nat (length nbh)
    = prod (zip_with (λ i n, Z.min (i + radius) (n - 1)
                             - Z.max 0 (i - radius) + 1) idx (N g)) - 1.
Proof.
  intros Hg Hr Hrad Hp Hwrap.
  destruct (enumerateNeighborHood_list g idx radius Hg Hr Hrad Hp Hwrap)
    as (H3 & g' & He).
  destruct (finalized_facts g Hg) as (Hs & Hd & Hc & _).
  pose proof (in_range_Forall2 _ _ Hr ltac:(by destruct Hs)) as H2.
  destruct (nb_box_bounds idx (N g) radius Hrad H3) as (Hb & Hes & Hle & Hiff).
  set (lo := nb_bmin idx radius) in *. set (hi := nb_bmax idx (N g) radius) in *.
  assert (Forall2 (λ l h, l ≤ h) lo hi) as Hlh
    by (eapply Forall2_impl; [apply Hb|]; simpl; intros; lia).
  set (flat := λ p, wrap (horner p (N g))).
  assert (∀ p, p ∈ box_points lo (extents lo hi) ↔
               Forall2 (λ a n, 0 ≤ a < n) p (N g) ∧
               Forall2 (λ a i, i - radius ≤ a ≤ i + radius) p idx) as Hbox.
  { intros p. rewrite box_points_elem by done. apply Hiff. }
  assert (NoDup (flat <$> box_points lo (extents lo hi))) as Hnd.
  { apply NoDup_fmap_2_strong; [|by apply NoDup_box_points].
    intros p q [Hp1 _]%Hbox [Hq1 _]%Hbox. apply wrap_horner_inj; [lia | done..]. }
  assert (idx ∈ box_points lo (extents lo hi)) as Hcen.
  { apply Hbox. split; [done|]. apply Forall2_same_length_lookup.
    split; [done|]. intros d a i Ha Hi. simplify_eq. lia. }
  eexists (flat idx), _, g'.
  split; [by apply convertIndex_dim_in_range|]. split; [exact He|].
  split; [by apply NoDup_filter|]. split.
  - intros k. rewrite list_elem_of_filter, list_elem_of_fmap. split.
    + intros [Hne (p & -> & [Hp1 Hp2]%Hbox)]. split; [done|]. exists p.
      split; [|split; [done|by apply convertIndex_dim_in_range]].
      split; [apply Forall2_length in Hp1; destruct Hs; lia|].
      intros d a n Ha Hn. by apply (Forall2_lookup_lr _ _ _ _ _ _ Hp1 Ha Hn).
    + intros [Hne (p & Hpr & Hball & Hk)]. split; [done|]. exists p.
      pose proof (in_range_Forall2 _ _ Hpr ltac:(by destruct Hs)) as Hp1.
      rewrite (convertIndex_dim_in_range g p Hg Hp1) in Hk. simplify_eq.
      split; [done|]. by apply Hbox.
  - pose proof (length_filter_ne (flat idx) _ Hnd
                  ltac:(apply list_elem_of_fmap; by exists idx)) as Hlen.
    rewrite length_map, box_points_length in Hlen.
    pose proof (prod_le _ _ Hle). rewrite <- Hes. unfold flat in *. lia.
Qed.

(** X4. On a finalized grid with fewer than 2^32 nodes, for a centre inside
    the grid and a radius that added to its indices stays in [uint],
    [enumerateNeighborHood] returns, each once, the flat indices of the
    nodes other than the centre that are within the radius of the centre on
    every axis: the box clipped to the grid, not the ball of the Manhattan
    distance its comment names.  Their number is the product of the extents
    of the box, less one. *)
Theorem enumerateNeighborHood_box g idx radius :
  finalized g → in_range g idx → 0 ≤ radius → prod (N g) < 4294967296 →
  (∀ d i, idx !! d = Some i → i + radius < 4294967296) →
  ∃ c nbh g',
    convertIndex_dim g idx = Some c ∧
    enumerateNeighborHood g idx radius = Some (nbh, g') ∧
    NoDup nbh ∧
    (∀ k, k ∈ nbh ↔
          k ≠ c ∧ ∃ p, in_range g p ∧
                       Forall2 (λ a i, i - radius ≤ a ≤ i + radius) p idx ∧
                       convertIndex_dim g p = Some k) ∧
    Z.of_nat (length nbh)
    = prod (zip_with (λ i n, Z.min (i + radius) (n - 1)
                             - Z.max 0 (i - radius) + 1) idx (N g)) - 1.
Proof.
  intros Hg Hr Hrad Hp Hwrap.
  destruct (enumerateNeighborHood_members g idx radius Hg Hr Hrad Hp Hwrap)
    as (c & nbh & g' & Hc & He & Hnd & Hmem & Hlen).
  exists c, nbh, g'. repeat (split; [done|]). done.
Qed.

End Ball.

Lemma enumerateNeighborHood_box_witness :
  finalized grid33 ∧ in_range grid33 [0; 0] ∧ 0 ≤ 1 ∧
  prod (N grid33) < 4294967296 ∧
  (∀ d i, [0; 0] !! d = Some i → i + 1 < 4294967296) ∧
  ∃ c nbh g',
    convertIndex_dim grid33 [0; 0] = Some c ∧
    enumerateNeighborHood grid33 [0; 0] 1 = Some (nbh, g') ∧
    NoDup nbh ∧
    (∀ k, k ∈ nbh ↔
          k ≠ c ∧ ∃ p, in_range grid33 p ∧
                       Forall2 (λ a i, i - 1 ≤ a ≤ i + 1) p [0; 0] ∧
                       convertIndex_dim grid33 p = Some k) ∧
    Z.of_nat (length nbh)
    = prod (zip_with (λ i n, Z.min (i + 1) (n - 1) - Z.max 0 (i - 1) + 1)
                     [0; 0] (N grid33)) - 1.
Proof.
  assert (0 ≤ 1) as H1 by lia.
  assert (prod (N grid33) < 4294967296) as H2 by (vm_compute; reflexivity).
  assert (∀ d i, [0; 0] !! d = Some i → i + 1 < 4294967296) as H3.
  { intros [|[|d]] i; simpl; intros Hi; simplify_eq; lia. }
  split; [exact finalized_grid33|]. split; [exact in_range_grid33_corner|].
  split; [exact H1|]. split; [exact H2|]. split; [exact H3|].
  exact (enumerateNeighborHood_box grid33 [0; 0] 1 finalized_grid33
           in_range_grid33_corner H1 H2 H3).
Defined.

(** ** The node below and the node nearest to a point *)

Section Lookup.
Context {F : Type} `{Double F}.
Implicit Types g : Grid F.

(** The loop of the four lookups clamps every index it writes. *)
Lemma lookup_loop_range (cast : F → option Z) (off : Z) g (x : list F) ix :
  0 ≤ off → Forall is_uint (N g) →
  for_loop (DIM g) 0
    (λ d ix,
       xd ← x !! d; mn ← min g !! d; si ← strideinv g !! d; nd ← N g !! d;
       v ← cast (d_mul (d_sub xd mn) si);
       let hi := to_int nd - off in
       if is_intb hi then store ix d (wrap (qBound 0 v hi)) else None)
    (_idx g) = Some ix →
  ∀ d i n, (d < DIM g)%nat → ix !! d = Some i → N g !! d = Some n →
           0 ≤ i ≤ Z.max 0 (n - off).
Proof.
  intros Hoff Hu Hl.
  assert (∀ d i n, (d < 0 + DIM g)%nat → ix !! d = Some i → N g !! d = Some n →
                   0 ≤ i ≤ Z.max 0 (n - off)) as Hall; [|done].
  refine (for_loop_inv_Some
            (λ k (v : list Z), ∀ d i n, (d < k)%nat → v !! d = Some i →
                                        N g !! d = Some n →
                                        0 ≤ i ≤ Z.max 0 (n - off))
            _ _ _ _ _ _ _ Hl); [intros; lia|].
  intros k v v' _ Hv Hb.
  destruct (x !! k); simpl in Hb; [|done].
  destruct (min g !! k); simpl in Hb; [|done].
  destruct (strideinv g !! k); simpl in Hb; [|done].
  destruct (N g !! k) as [nd|] eqn:Hnd; simpl in Hb; [|done].
  destruct (cast _) as [w|]; simpl in Hb; [|done].
  destruct (is_intb _) eqn:Hint; [|done].
  apply store_inv in Hb as [Hk ->]. intros d i n Hd Hi Hn.
  destruct (decide (d = k)) as [->|Hne].
  - rewrite list_lookup_insert_eq in Hi by done. simplify_eq.
    pose proof (Forall_lookup_1 _ _ _ _ Hu Hnd) as Hnu.
    unfold is_uint in Hnu. unfold is_intb in Hint.
    apply andb_true_iff in Hint as [H1%Z.leb_le H2%Z.ltb_lt].
    unfold qBound, to_int in *. destruct (Z.ltb_spec nd 2147483648).
    + rewrite wrap_uint by (unfold is_uint; lia). lia.
    + rewrite wrap_uint by (unfold is_uint; lia). lia.
  - rewrite list_lookup_insert_ne in Hi by done. apply (Hv d); [lia | done..].
Qed.

Lemma node_lookup_aux (qRound : F → option Z) g (x : list F) :
  sized g →
  (∀ ix,
     for_loop (DIM g) 0
       (λ d ix,
          xd ← x !! d; mn ← min g !! d; si ← strideinv g !! d; nd ← N g !! d;
          v ← d_to_int (d_mul (d_sub xd mn) si);
          let hi := to_int nd - 2 in
          if is_intb hi then store ix d (wrap (qBound 0 v hi)) else None)
       (_idx g) = Some ix →
     length ix = DIM g ∧
     ∀ d i n, ix !! d = Some i → N g !! d = Some n → 0 ≤ i ≤ Z.max 0 (n - 2)) ∧
  (∀ ix,
     for_loop (DIM g) 0
       (λ d ix,
          xd ← x !! d; mn ← min g !! d; si ← strideinv g !! d; nd ← N g !! d;
          v ← qRound (d_mul (d_sub xd mn) si);
          let hi := to_int nd - 1 in
          if is_intb hi then store ix d (wrap (qBound 0 v hi)) else None)
       (_idx g) = Some ix →
     length ix = DIM g ∧
     ∀ d i n, ix !! d = Some i → N g !! d = Some n → 0 ≤ i ≤ Z.max 0 (n - 1)).
Proof.
  intros Hs. destruct Hs. split.
  - intros ix Hl.
    pose proof (lookup_loop_length d_to_int 2 g x ix Hl) as Hlen.
    split; [lia|]. intros d i n Hi Hn.
    apply (lookup_loop_range d_to_int 2 g x ix ltac:(lia) sized_uint0 Hl d);
      [|done..]. apply lookup_lt_Some in Hi. lia.
  - intros ix Hl.
    pose proof (lookup_loop_length qRound 1 g x ix Hl) as Hlen.
    split; [lia|]. intros d i n Hi Hn.
    apply (lookup_loop_range qRound 1 g x ix ltac:(lia) sized_uint0 Hl d);
      [|done..]. apply lookup_lt_Some in Hi. lia.
Qed.

(** X5. On a grid whose vectors have [DIM] entries, where the cast of
    [getNodeIndexBl] is defined the index it leaves in [_idx] lies on every
    axis between 0 and [N[d]-2], so that on an axis with at least 2 nodes
    it and its upper neighbour are nodes of the grid; where [qRound] is
    defined the index [getNodeIndex] leaves lies between 0 and [N[d]-1].
    Points outside of the bounds are clamped to the border, never
    rejected.  Nothing but [_idx] changes. *)
Theorem node_lookup_clamped (qRound : F → option Z) g (x : list F) :
  sized g →
  (∀ g', getNodeIndexBl g x = Some g' →
     g' = with_idx g (_idx g') ∧ length (_idx g') = DIM g ∧
     ∀ d i n, _idx g' !! d = Some i → N g !! d = Some n →
              0 ≤ i ≤ Z.max 0 (n - 2)) ∧
  (∀ g', getNodeIndex qRound g x = Some g' →
     g' = with_idx g (_idx g') ∧ length (_idx g') = DIM g ∧
     ∀ d i n, _idx g' !! d = Some i → N g !! d = Some n →
              0 ≤ i ≤ Z.max 0 (n - 1)).
Proof.
  intros Hs. split.
  - intros g'. unfold getNodeIndexBl.
    destruct (for_loop _ _ _ _) as [ix|] eqn:Hl; simpl; [|done].
    intros [= <-]. simpl. split; [done|].
    exact (proj1 (node_lookup_aux qRound g x Hs) ix Hl).
  - intros g'. unfold getNodeIndex.
    destruct (for_loop _ _ _ _) as [ix|] eqn:Hl; simpl; [|done].
    intros [= <-]. simpl. split; [done|].
    exact (proj2 (node_lookup_aux qRound g x Hs) ix Hl).
Qed.

Lemma clamped_in_range g ix off :
  sized g → Forall (λ n, 1 ≤ n) (N g) → 1 ≤ off → length ix = DIM g →
  (∀ d i n, ix !! d = Some i → N g !! d = Some n → 0 ≤ i ≤ Z.max 0 (n - off)) →
  in_range g ix.
Proof.
  intros Hs Hn Hoff Hl Hall. split; [done|]. intros d i n Hi Hd.
  pose proof (Forall_lookup_1 _ _ _ _ Hn Hd). simpl in *.
  specialize (Hall d i n Hi Hd). lia.
Qed.

(** X6. On a finalized grid with fewer than 2^32 nodes and no empty axis,
    the flat index [getNodeFlatIndexBl] or [getNodeFlatIndex] returns is
    below [nodeCount], is the flat index of the dim index left in [_idx],
    and converts back to that dim index. *)
Theorem node_flat_lookup (qRound : F → option Z) g (x : list F) :
  finalized g → Forall (λ n, 1 ≤ n) (N g) → prod (N g) < 4294967296 →
  (∀ k g', getNodeFlatIndexBl g x = Some (k, g') →
     getNodeIndexBl g x = Some g' ∧ 0 ≤ k < nodeCount g ∧
     convertIndex_dim g' (_idx g') = Some k ∧
     convertIndex_flat g' k = Some g') ∧
  (∀ k g', getNodeFlatIndex qRound g x = Some (k, g') →
     getNodeIndex qRound g x = Some g' ∧ 0 ≤ k < nodeCount g ∧
     convertIndex_dim g' (_idx g') = Some k ∧
     convertIndex_flat g' k = Some g').
Proof.
  intros Hg Hn Hp. destruct (finalized_facts g Hg) as (Hs & Hd & Hc & Hnc).
  pose proof (prod_pos (N g) ltac:(eapply Forall_impl; [done|]; simpl; lia)).
  assert (∀ ix k, length ix = DIM g →
            (∀ d i n, ix !! d = Some i → N g !! d = Some n →
                      0 ≤ i ≤ Z.max 0 (n - 1)) →
            convertIndex_dim g ix = Some k →
            0 ≤ k < nodeCount g ∧
            convertIndex_dim (with_idx g ix) ix = Some k ∧
            convertIndex_flat (with_idx g ix) k = Some (with_idx g ix)) as Hfin.
  { intros ix k Hl Hall Hk.
    pose proof (clamped_in_range g ix 1 Hs Hn ltac:(lia) Hl Hall) as Hr.
    assert (finalized (with_idx g ix)) as Hg' by by apply finalized_with_idx.
    destruct (dim_flat_dim (with_idx g ix) ix Hg' Hr ltac:(simpl; lia))
      as [H1 H2]. simpl in *.
    assert (convertIndex_dim (with_idx g ix) ix = convertIndex_dim g ix) as Heq
      by done.
    rewrite Heq in H1. rewrite Hk in H1. simplify_eq.
    pose proof (horner_bound _ _ (in_range_Forall2 _ _ Hr ltac:(by destruct Hs))).
    rewrite Hnc, wrap_uint by (unfold is_uint; lia).
    split; [lia|]. split; [by rewrite Heq|]. exact H2. }
  split.
  - intros k g'. unfold getNodeFlatIndexBl, getNodeIndexBl.
    destruct (for_loop _ _ _ _) as [ix|] eqn:Hl; simpl; [|done].
    destruct (convertIndex_dim g ix) as [k'|] eqn:Hk; simpl; [|done].
    intros [= <- <-]. split; [done|]. simpl.
    destruct (proj1 (node_lookup_aux qRound g x Hs) ix Hl) as [Hlen Hall].
    apply Hfin; [done | | done].
    intros d i n Hi Hnn. specialize (Hall d i n Hi Hnn). lia.
  - intros k g'. unfold getNodeFlatIndex, getNodeIndex.
    destruct (for_loop _ _ _ _) as [ix|] eqn:Hl; simpl; [|done].
    destruct (convertIndex_dim g ix) as [k'|] eqn:Hk; simpl; [|done].
    intros [= <- <-]. split; [done|]. simpl.
    destruct (proj2 (node_lookup_aux qRound g x Hs) ix Hl) as [Hlen Hall].
    by apply Hfin.
Qed.

End Lookup.

(** ** The nodes around a point *)

(** What the bounds of [getEnvelopingNodes] are when nothing wraps. *)
Lemma env_box_bounds idx ns r :
  0 ≤ r →
  Forall2 (λ i n, 0 ≤ i < n ∧ n < 4294967296 ∧ r ≤ i ∧ i + r + 1 < 4294967296)
          idx ns →
  Forall2 (λ l h, 0 ≤ l ≤ h ∧ h < 4294967295) (env_bmin idx r) (env_bmax idx ns r) ∧
  extents (env_bmin idx r) (env_bmax idx ns r)
  = zip_with (λ i n, Z.min (i + r + 1) (n - 1) - (i - r) + 1) idx ns ∧
  Forall2 (λ e n, 0 < e ≤ n) (extents (env_bmin idx r) (env_bmax idx ns r)) ns ∧
  ∀ p, Forall2 Z.le (env_bmin idx r) p ∧ Forall2 Z.le p (env_bmax idx ns r) ↔
       Forall2 (λ a n, 0 ≤ a < n) p ns ∧
       Forall2 (λ a i, i - r ≤ a ≤ i + r + 1) p idx.
Proof.
  intros Hr.
  induction 1 as [|i n idx ns (Hi & Hn & Hri & Hir) _ (IH1 & IH2 & IH3 & IH4)].
  - split; [constructor|]. split; [done|]. split; [constructor|].
    intros p. split; intros [Hp _]; inversion_clear Hp; split; constructor.
  - assert (Z.max (wrap (i - r)) 0 = i - r) as Hlo.
    { rewrite wrap_uint by (unfold is_uint; lia). lia. }
    assert (Z.min (wrap (wrap (i + r) + 1)) (wrap (n - 1))
            = Z.min (i + r + 1) (n - 1)) as Hhi.
    { by rewrite !wrap_uint by (rewrite ?wrap_uint; unfold is_uint; lia). }
    unfold env_bmin, env_bmax, extents in *. simpl. rewrite Hlo, Hhi.
    split; [constructor; [lia | done]|].
    split; [by rewrite IH2|]. split; [constructor; [lia | done]|].
    intros p. split.
    + intros [Hp1 Hp2]. inversion Hp1 as [|? a ? p' Ha Hp1']; subst.
      inversion_clear Hp2 as [|???? Ha' Hp2'].
      destruct (proj1 (IH4 p') (conj Hp1' Hp2')) as [??].
      split; (constructor; [lia | done]).
    + intros [Hp1 Hp2]. inversion Hp1 as [|a ? p' ? Ha Hp1']; subst.
      inversion_clear Hp2 as [|???? Ha' Hp2'].
      destruct (proj2 (IH4 p') (conj Hp1' Hp2')) as [??].
      split; (constructor; [lia | done]).
Qed.

Lemma prod_replicate_2 (l : list Z) :
  Forall (λ e, e = 2) l → prod l = 2 ^ Z.of_nat (length l).
Proof.
  induction 1 as [|e l -> _ IH]; [done|].
  rewrite prod_cons, IH. simpl length. rewrite Nat2Z.inj_succ, Z.pow_succ_r; lia.
Qed.

Section Envelope.
Context {F : Type} `{Double F}.
Implicit Types g : Grid F.

Lemma env_box_closed g idx radius :
  length idx = DIM g → length (N g) = DIM g →
  for_loop (DIM g) 0
    (λ d '(bmin, bmax),
       i ← idx !! d; n ← N g !! d;
       bmin ← store bmin d (Z.max (wrap (i - radius)) 0);
       bmax ← store bmax d (Z.min (wrap (wrap (i + radius) + 1)) (wrap (n - 1)));
       Some (bmin, bmax))
    (replicate (DIM g) 0, replicate (DIM g) 0)
  = Some (env_bmin idx radius, env_bmax idx (N g) radius).
Proof.
  intros Hi Hn.
  edestruct (for_loop_inv
    (λ k '(bmin, bmax),
       (length bmin = DIM g ∧ take k bmin = take k (env_bmin idx radius)) ∧
       (length bmax = DIM g ∧ take k bmax = take k (env_bmax idx (N g) radius))))
    as ([bmin bmax] & -> & (Hl1 & Ht1) & (Hl2 & Ht2)).
  - cbv beta iota. by rewrite length_replicate.
  - intros k [bmin bmax] Hk ((Hl1 & Ht1) & (Hl2 & Ht2)).
    destruct (lookup_lt_is_Some_2 idx k ltac:(lia)) as [i Hik].
    destruct (lookup_lt_is_Some_2 (N g) k ltac:(lia)) as [n Hnk].
    rewrite Hik, Hnk. simpl. rewrite !store_Some by lia. simpl.
    eexists. split; [done|]. cbv beta iota. rewrite !length_insert.
    split_and!; try done.
    + apply take_store; [lia | | done].
      unfold env_bmin. by rewrite list_lookup_fmap, Hik.
    + apply take_store; [lia | | done].
      unfold env_bmax. by rewrite lookup_zip_with, Hik, Hnk.
  - simpl in Ht1, Ht2. f_equal. f_equal.
    + eapply take_all_eq; [done | | done]. unfold env_bmin. by rewrite length_map.
    + eapply take_all_eq; [done | | done]. unfold env_bmax.
      rewrite length_zip_with. lia.
Qed.

Lemma env_loop_enum g bmin bmax K ix0 :
  for_loop K 0
    (λ _ '(neighborhood, ix),
       c ← convertIndex_dim g ix;
       ix ← advance (DIM g) 0 bmin bmax ix;
       Some (neighborhood ++ [c], ix))
    ([], ix0)
  = enum_loop (λ nbh c, nbh ++ [c]) g bmin bmax K ix0.
Proof.
  unfold enum_loop. apply for_loop_ext. intros k [nbh ix]. simpl.
  destruct (convertIndex_dim g ix); simpl; [|done].
  by destruct (advance _ _ _ _ ix).
Qed.

(** What [getEnvelopingNodes] returns when nothing wraps: the nodes of the
    box, each once. *)
Lemma getEnvelopingNodes_spec g (x : list F) radius gb :
  finalized g → Forall (λ n, 1 ≤ n) (N g) → prod (N g) < 4294967296 →
  0 ≤ radius → getNodeIndexBl g x = Some gb →
  (∀ d i, _idx gb !! d = Some i → radius ≤ i ∧ i + radius + 1 < 4294967296) →
  in_range g (_idx gb) ∧
  ∃ nbh g',
    getEnvelopingNodes g x radius = Some (nbh, g') ∧ NoDup nbh ∧
    (∀ k, k ∈ nbh ↔
          ∃ p, in_range g p ∧
               Forall2 (λ a i, i - radius ≤ a ≤ i + radius + 1) p (_idx gb) ∧
               convertIndex_dim g p = Some k) ∧
    Z.of_nat (length nbh)
    = prod (zip_with (λ i n, Z.min (i + radius + 1) (n - 1) - (i - radius) + 1)
                     (_idx gb) (N g)).
Proof.
  intros Hg Hn Hp Hrad Hbl Hwrap.
  destruct (finalized_facts g Hg) as (Hs & Hd & Hc & _).
  assert (gb = with_idx g (_idx gb) ∧ length (_idx gb) = DIM g ∧
          ∀ d i n, _idx gb !! d = Some i → N g !! d = Some n →
                   0 ≤ i ≤ Z.max 0 (n - 2)) as (Hgb & Hlen & Hall).
  { revert Hbl. unfold getNodeIndexBl.
    destruct (for_loop _ _ _ _) as [ix|] eqn:Hl; simpl; [|done].
    intros [= <-]. simpl. split; [done|].
    exact (proj1 (node_lookup_aux d_to_int g x Hs) ix Hl). }
  set (idx := _idx gb) in *.
  assert (in_range g idx) as Hr.
  { apply (clamped_in_range g idx 1); [done | done | lia | done |].
    intros d i n Hi Hnn. specialize (Hall d i n Hi Hnn). lia. }
  split; [done|].
  pose proof (in_range_Forall2 _ _ Hr ltac:(by destruct Hs)) as H2.
  assert (Forall2 (λ i n, 0 ≤ i < n ∧ n < 4294967296 ∧ radius ≤ i ∧
                          i + radius + 1 < 4294967296) idx (N g)) as H3.
  { apply Forall2_same_length_lookup. split; [by eapply Forall2_length|].
    intros d i n Hi Hnn. pose proof (Forall2_lookup_lr _ _ _ _ _ _ H2 Hi Hnn).
    destruct Hs. pose proof (Forall_lookup_1 _ _ _ _ sized_uint0 Hnn) as Hu.
    unfold is_uint in Hu. destruct (Hwrap d i Hi). split; [done|]. lia. }
  destruct (env_box_bounds idx (N g) radius Hrad H3) as (Hb & Hes & Hle & Hiff).
  set (lo := env_bmin idx radius) in *.
  set (hi := env_bmax idx (N g) radius) in *.
  assert (Forall2 (λ l h, l ≤ h) lo hi) as Hlh
    by (eapply Forall2_impl; [apply Hb|]; simpl; intros; lia).
  set (flat := λ p, wrap (horner p (N g))).
  assert (∀ p, p ∈ box_points lo (extents lo hi) ↔
               Forall2 (λ a n, 0 ≤ a < n) p (N g) ∧
               Forall2 (λ a i, i - radius ≤ a ≤ i + radius + 1) p idx) as Hbox.
  { intros p. rewrite box_points_elem by done. apply Hiff. }
  assert (NoDup (flat <$> box_points lo (extents lo hi))) as Hnd.
  { apply NoDup_fmap_2_strong; [|by apply NoDup_box_points].
    intros p q [Hp1 _]%Hbox [Hq1 _]%Hbox. apply wrap_horner_inj; [lia | done..]. }
  exists (flat <$> box_points lo (extents lo hi)). eexists.
  split; [|split; [done|split]].
  - unfold getEnvelopingNodes. rewrite Hbl. cbn [mbind option_bind].
    fold idx. assert (length lo = DIM g) as Hlo
      by (unfold lo, env_bmin; by rewrite length_map).
    destruct Hs.
    rewrite env_box_closed by done. cbn [mbind option_bind]. fold lo hi.
    rewrite count_box_closed by done. cbn [mbind option_bind].
    pose proof (prod_le _ _ Hle) as Hpe.
    rewrite (wrap_uint (prod (extents lo hi))) by (unfold is_uint; lia).
    rewrite reset_idx_closed by done. cbn [mbind option_bind].
    rewrite env_loop_enum, enum_loop_box by done. cbn [mbind option_bind].
    rewrite foldl_all, app_nil_l. f_equal. f_equal.
    unfold box_points. by rewrite <- list_fmap_compose.
  - intros k. rewrite list_elem_of_fmap. split.
    + intros (p & -> & [Hp1 Hp2]%Hbox). exists p.
      split; [|split; [done|by apply convertIndex_dim_in_range]].
      split; [apply Forall2_length in Hp1; destruct Hs; lia|].
      intros d a n Ha Hnn. by apply (Forall2_lookup_lr _ _ _ _ _ _ Hp1 Ha Hnn).
    + intros (p & Hpr & Hball & Hk). exists p.
      pose proof (in_range_Forall2 _ _ Hpr ltac:(by destruct Hs)) as Hp1.
      rewrite (convertIndex_dim_in_range g p Hg Hp1) in Hk. simplify_eq.
      split; [done|]. by apply Hbox.
  - rewrite length_map, box_points_length. pose proof (prod_le _ _ Hle).
    rewrite <- Hes. lia.
Qed.

End Envelope.

Section EnvelopeTheorems.
Context {F : Type} `{Double F}.
Implicit Types g : Grid F.

(** X7. On a finalized grid with fewer than 2^32 nodes and no empty axis, for
    a point whose bottom left index [idx] is defined and a radius that is at
    most [idx[d]] on every axis (and [idx[d]+radius+1] in [uint]),
    [getEnvelopingNodes] returns, each once, the flat indices of the nodes of
    the grid that lie on every axis between [idx[d]-radius] and
    [idx[d]+radius+1]; their number is the product of the extents of that box. *)
Theorem getEnvelopingNodes_box g (x : list F) radius gb :
  finalized g → Forall (λ n, 1 ≤ n) (N g) → prod (N g) < 4294967296 →
  0 ≤ radius → getNodeIndexBl g x = Some gb →
  (∀ d i, _idx gb !! d = Some i → radius ≤ i ∧ i + radius + 1 < 4294967296) →
  ∃ nbh g',
    getEnvelopingNodes g x radius = Some (nbh, g') ∧ NoDup nbh ∧
    (∀ k, k ∈ nbh ↔
          ∃ p, in_range g p ∧
               Forall2 (λ a i, i - radius ≤ a ≤ i + radius + 1) p (_idx gb) ∧
               convertIndex_dim g p = Some k) ∧
    Z.of_nat (length nbh)
    = prod (zip_with (λ i n, Z.min (i + radius + 1) (n - 1) - (i - radius) + 1)
                     (_idx gb) (N g)).
Proof.
  intros Hg Hn Hp Hrad Hbl Hwrap.
  by destruct (getEnvelopingNodes_spec g x radius gb Hg Hn Hp Hrad Hbl Hwrap)
    as [_ ?].
Qed.

(** X8. On a finalized grid with fewer than 2^32 nodes and at least 2 nodes on
    every axis, for every point whose bottom left index [idx] is defined,
    [getEnvelopingNodes] with radius 0 returns the 2^DIM corners of one cell
    of the grid, each once: the flat indices of the dim indices that are
    [idx[d]] or [idx[d]+1] on every axis. *)
Theorem getEnvelopingNodes_cell g (x : list F) gb :
  finalized g → Forall (λ n, 2 ≤ n) (N g) → prod (N g) < 4294967296 →
  getNodeIndexBl g x = Some gb →
  ∃ nbh g',
    getEnvelopingNodes g x 0 = Some (nbh, g') ∧ NoDup nbh ∧
    Z.of_nat (length nbh) = 2 ^ Z.of_nat (DIM g) ∧
    ∀ k, k ∈ nbh ↔
         ∃ p, Forall2 (λ a i, i ≤ a ≤ i + 1) p (_idx gb) ∧
              convertIndex_dim g p = Some k.
Proof.
  intros Hg Hn Hp Hbl.
  destruct (finalized_facts g Hg) as (Hs & Hd & Hc & _).
  assert (length (_idx gb) = DIM g ∧
          ∀ d i n, _idx gb !! d = Some i → N g !! d = Some n →
                   0 ≤ i ≤ Z.max 0 (n - 2)) as (Hlen & Hall).
  { revert Hbl. unfold getNodeIndexBl.
    destruct (for_loop _ _ _ _) as [ix|] eqn:Hl; simpl; [|done].
    intros [= <-]. simpl.
    exact (proj1 (node_lookup_aux d_to_int g x Hs) ix Hl). }
  assert (Forall2 (λ i n, 0 ≤ i ≤ n - 2 ∧ n < 4294967296) (_idx gb) (N g)) as H2.
  { apply Forall2_same_length_lookup. split; [destruct Hs; lia|].
    intros d i n Hi Hnn. specialize (Hall d i n Hi Hnn).
    pose proof (Forall_lookup_1 _ _ _ _ Hn Hnn). simpl in *.
    destruct Hs. pose proof (Forall_lookup_1 _ _ _ _ sized_uint0 Hnn) as Hu.
    unfold is_uint in Hu. lia. }
  destruct (getEnvelopingNodes_spec g x 0 gb Hg) as (Hr & nbh & g' & He & Hnd & Hm & Hc');
    [eapply Forall_impl; [done|]; simpl; lia | done | lia | done | |].
  { intros d i Hi.
    destruct (lookup_lt_is_Some_2 (N g) d) as [n Hnn];
      [apply lookup_lt_Some in Hi; destruct Hs; lia|].
    pose proof (Forall2_lookup_lr _ _ _ _ _ _ H2 Hi Hnn). simpl in *. lia. }
  exists nbh, g'. split; [done|]. split; [done|]. split.
  - rewrite Hc'. rewrite prod_replicate_2.
    + rewrite length_zip_with. destruct Hs. f_equal. lia.
    + clear -H2. induction H2 as [|i n idx ns Hi _ IH]; [constructor|].
      simpl. constructor; [lia | done].
  - intros k. rewrite Hm. split.
    + intros (p & _ & Hb & Hk). exists p. split; [|done].
      eapply Forall2_impl; [apply Hb|]. simpl. intros; lia.
    + intros (p & Hb & Hk). exists p. split; [|split; [|done]].
      * split; [apply Forall2_length in Hb; lia|]. intros d a n Ha Hnn.
        destruct (lookup_lt_is_Some_2 (_idx gb) d) as [i Hi];
          [apply lookup_lt_Some in Hnn; destruct Hs; lia|].
        pose proof (Forall2_lookup_lr _ _ _ _ _ _ Hb Ha Hi).
        pose proof (Forall2_lookup_lr _ _ _ _ _ _ H2 Hi Hnn). simpl in *. lia.
      * eapply Forall2_impl; [apply Hb|]. simpl. intros; lia.
Qed.

End EnvelopeTheorems.

(** The 3 x 3 grid after the bottom left lookup of (1.5, 1.5). *)
Lemma getNodeIndexBl_grid33 :
  getNodeIndexBl grid33 [1.5; 1.5]%float = Some (with_idx grid33 [1; 1]).
Proof. vm_compute. reflexivity. Qed.

Lemma grid33_nodes :
  Forall (λ n, 2 ≤ n) (N grid33) ∧ Forall (λ n, 1 ≤ n) (N grid33) ∧
  prod (N grid33) < 4294967296.
Proof.
  split; [repeat constructor; lia|]. split; [repeat constructor; lia|].
  vm_compute. reflexivity.
Qed.

Lemma getEnvelopingNodes_box_witness :
  finalized grid33 ∧ Forall (λ n, 1 ≤ n) (N grid33) ∧
  prod (N grid33) < 4294967296 ∧ 0 ≤ 1 ∧
  getNodeIndexBl grid33 [1.5; 1.5]%float = Some (with_idx grid33 [1; 1]) ∧
  (∀ d i, [1; 1] !! d = Some i → 1 ≤ i ∧ i + 1 + 1 < 4294967296) ∧
  ∃ nbh g',
    getEnvelopingNodes grid33 [1.5; 1.5]%float 1 = Some (nbh, g') ∧ NoDup nbh ∧
    (∀ k, k ∈ nbh ↔
          ∃ p, in_range grid33 p ∧
               Forall2 (λ a i, i - 1 ≤ a ≤ i + 1 + 1) p [1; 1] ∧
               convertIndex_dim grid33 p = Some k) ∧
    Z.of_nat (length nbh)
    = prod (zip_with (λ i n, Z.min (i + 1 + 1) (n - 1) - (i - 1) + 1)
                     [1; 1] (N grid33)).
Proof.
  destruct grid33_nodes as (_ & H1 & H2). assert (0 ≤ 1) as H3 by lia.
  assert (∀ d i, [1; 1] !! d = Some i → 1 ≤ i ∧ i + 1 + 1 < 4294967296) as H4.
  { intros [|[|d]] i; simpl; intros Hi; simplify_eq; lia. }
  split; [exact finalized_grid33|]. split; [exact H1|]. split; [exact H2|].
  split; [exact H3|]. split; [exact getNodeIndexBl_grid33|]. split; [exact H4|].
  exact (getEnvelopingNodes_box grid33 [1.5; 1.5]%float 1 _ finalized_grid33
           H1 H2 H3 getNodeIndexBl_grid33 H4).
Defined.

Lemma getEnvelopingNodes_cell_witness :
  finalized grid33 ∧ Forall (λ n, 2 ≤ n) (N grid33) ∧
  prod (N grid33) < 4294967296 ∧
  getNodeIndexBl grid33 [1.5; 1.5]%float = Some (with_idx grid33 [1; 1]) ∧
  ∃ nbh g',
    getEnvelopingNodes grid33 [1.5; 1.5]%float 0 = Some (nbh, g') ∧ NoDup nbh ∧
    Z.of_nat (length nbh) = 2 ^ Z.of_nat (DIM grid33) ∧
    ∀ k, k ∈ nbh ↔
         ∃ p, Forall2 (λ a i, i ≤ a ≤ i + 1) p [1; 1] ∧
              convertIndex_dim grid33 p = Some k.
Proof.
  destruct grid33_nodes as (H1 & _ & H2).
  split; [exact finalized_grid33|]. split; [exact H1|]. split; [exact H2|].
  split; [exact getNodeIndexBl_grid33|].
  exact (getEnvelopingNodes_cell grid33 [1.5; 1.5]%float _ finalized_grid33
           H1 H2 getNodeIndexBl_grid33).
Defined.

Lemma node_lookup_clamped_witness :
  sized grid33 ∧
  ∀ g', getNodeIndexBl grid33 [7; -3]%float = Some g' →
        g' = with_idx grid33 (_idx g') ∧ length (_idx g') = DIM grid33 ∧
        ∀ d i n, _idx g' !! d = Some i → N grid33 !! d = Some n →
                 0 ≤ i ≤ Z.max 0 (n - 2).
Proof.
  pose proof (proj1 (finalized_sized grid33 finalized_grid33)) as Hs.
  split; [exact Hs|].
  exact (proj1 (node_lookup_clamped float_to_int grid33 [7; -3]%float Hs)).
Defined.

Lemma node_flat_lookup_witness :
  finalized grid33 ∧ Forall (λ n, 1 ≤ n) (N grid33) ∧
  prod (N grid33) < 4294967296 ∧
  ∀ k g', getNodeFlatIndexBl grid33 [7; -3]%float = Some (k, g') →
          getNodeIndexBl grid33 [7; -3]%float = Some g' ∧
          0 ≤ k < nodeCount grid33 ∧
          convertIndex_dim g' (_idx g') = Some k ∧
          convertIndex_flat g' k = Some g'.
Proof.
  destruct grid33_nodes as (_ & H1 & H2).
  split; [exact finalized_grid33|]. split; [exact H1|]. split; [exact H2|].
  exact (proj1 (node_flat_lookup float_to_int grid33 [7; -3]%float
                  finalized_grid33 H1 H2)).
Defined.

(** ** The coordinates of a node *)

Section Coordinates.
Context {F : Type} `{Double F}.
Implicit Types g : Grid F.

Lemma read_nodes_closed g idx :
  finalized g → in_range g idx →
  ∃ x, read_nodes g idx = Some x ∧ length x = DIM g ∧
       ∀ d i mn s, idx !! d = Some i → min g !! d = Some mn →
                   stride g !! d = Some s →
                   x !! d = Some (d_add mn (d_mul (d_of_uint i) s)).
Proof.
  intros Hg Hr. destruct (finalized_sized g Hg) as [Hsg _].
  pose proof (in_range_Forall2 _ _ Hr ltac:(by destruct Hsg)) as H2.
  destruct Hr as [Hl _].
  destruct (finalized_inv g Hg) as (g0 & Hs & Hd & ->). simpl in *.
  unfold read_nodes. simpl.
  edestruct (for_loop_inv
    (λ k (x : list F),
       length x = DIM g0 ∧
       ∀ d i mn s, (d < k)%nat → idx !! d = Some i → min g0 !! d = Some mn →
                   stride_closed g0 !! d = Some s →
                   x !! d = Some (d_add mn (d_mul (d_of_uint i) s))))
    as (x & -> & Hlen & Hall).
  - split; [by destruct Hs | intros; lia].
  - intros k x Hk [Hlen Hall]. destruct Hs.
    destruct (lookup_lt_is_Some_2 idx k ltac:(lia)) as [i Hi].
    destruct (lookup_lt_is_Some_2 (N g0) k ltac:(lia)) as [n Hn].
    destruct (lookup_lt_is_Some_2 (min g0) k ltac:(lia)) as [mn Hmn].
    destruct (lookup_lt_is_Some_2 (max g0) k ltac:(lia)) as [mx Hmx].
    pose proof (stride_closed_lookup g0 k mx mn n Hmx Hmn Hn) as Hst.
    pose proof (Forall2_lookup_lr _ _ _ _ _ _ H2 Hi Hn) as Hin. simpl in Hin.
    rewrite Hi. simpl.
    rewrite (raster_closed_lookup g0 k mn _ n Hmn Hst Hn). simpl.
    rewrite axis_nodes_lookup by lia. simpl. rewrite Z2Nat.id by lia.
    rewrite store_Some by lia. eexists. split; [done|].
    split; [by rewrite length_insert|]. intros d j mn' s' Hdk Hj Hmn' Hs'.
    destruct (decide (d = k)) as [->|Hne].
    + rewrite list_lookup_insert_eq by lia. by simplify_eq.
    + rewrite list_lookup_insert_ne by done. apply Hall; [lia | done..].
  - exists x. split; [done|]. split; [done|].
    intros d i mn s Hi Hmn Hst. apply (Hall d i mn s); [|done..].
    apply lookup_lt_Some in Hi. lia.
Qed.

(** X9. On a finalized grid, [getNodeCoordinates] of a dim index inside the
    grid reads inside of the raster and leaves in [_x], and nowhere else,
    the coordinates [min[d] + idx[d]*stride[d]] of the node. *)
Theorem getNodeCoordinates_node g idx :
  finalized g → in_range g idx →
  ∃ g', getNodeCoordinates_dim g idx = Some g' ∧ g' = with_x g (_x g') ∧
        length (_x g') = DIM g ∧
        ∀ d i mn s, idx !! d = Some i → min g !! d = Some mn →
                    stride g !! d = Some s →
                    _x g' !! d = Some (d_add mn (d_mul (d_of_uint i) s)).
Proof.
  intros Hg Hr. destruct (read_nodes_closed g idx Hg Hr) as (x & Hx & Hl & Hall).
  unfold getNodeCoordinates_dim. rewrite Hx. simpl. by eexists.
Qed.

(** X10. On a finalized grid, [getNodeCoordinates] of a flat index below
    [nodeCount] is defined, leaves in [_idx] the dim index of that flat
    index and in [_x] the coordinates of its node: those the other overload
    gives for [convertIndex] of the flat index, as the header comment of
    Grid.cpp has it. *)
Theorem getNodeCoordinates_flat_node g n :
  finalized g → 0 ≤ n < nodeCount g →
  ∃ g1 g2,
    convertIndex_flat g n = Some g1 ∧
    getNodeCoordinates_dim g1 (_idx g1) = Some g2 ∧
    getNodeCoordinates_flat g n = Some g2 ∧
    in_range g (_idx g2) ∧ convertIndex_dim g2 (_idx g2) = Some n ∧
    ∀ d i mn s, _idx g2 !! d = Some i → min g !! d = Some mn →
                stride g !! d = Some s →
                _x g2 !! d = Some (d_add mn (d_mul (d_of_uint i) s)).
Proof.
  intros Hg Hn. destruct (flat_dim_flat g n Hg Hn) as (H2 & Hflat & Hdim).
  destruct (finalized_sized g Hg) as [Hs _].
  set (ix := digits n (N g)) in *. set (g1 := with_idx g ix) in *.
  assert (length ix = DIM g) as Hl
    by (unfold ix; rewrite digits_length; by destruct Hs).
  assert (finalized g1) as Hg1 by by apply finalized_with_idx.
  assert (in_range g1 ix) as Hr1.
  { split; [done|]. intros d i m Hi Hm.
    by apply (Forall2_lookup_lr _ _ _ _ _ _ H2 Hi Hm). }
  destruct (read_nodes_closed g1 ix Hg1 Hr1) as (x & Hx & Hlx & Hall).
  exists g1, (with_x g1 x). unfold getNodeCoordinates_flat, getNodeCoordinates_dim.
  rewrite Hflat. simpl. rewrite Hx. simpl.
  split; [done|]. split; [done|]. split; [done|]. split; [|split; [done|]].
  - split; [done|]. intros d i m Hi Hm.
    by apply (Forall2_lookup_lr _ _ _ _ _ _ H2 Hi Hm).
  - intros d i mn s Hi Hmn Hst. by apply (Hall d i mn s).
Qed.

End Coordinates.

Lemma getNodeCoordinates_node_witness :
  finalized grid33 ∧ in_range grid33 [0; 0] ∧
  ∃ g', getNodeCoordinates_dim grid33 [0; 0] = Some g' ∧
        g' = with_x grid33 (_x g') ∧ length (_x g') = DIM grid33 ∧
        ∀ d i mn s, [0; 0] !! d = Some i → min grid33 !! d = Some mn →
                    stride grid33 !! d = Some s →
                    _x g' !! d = Some (d_add mn (d_mul (d_of_uint i) s)).
Proof.
  split; [exact finalized_grid33|]. split; [exact in_range_grid33_corner|].
  exact (getNodeCoordinates_node grid33 [0; 0] finalized_grid33
           in_range_grid33_corner).
Defined.

Lemma getNodeCoordinates_flat_node_witness :
  finalized grid33 ∧ 0 ≤ 4 < nodeCount grid33 ∧
  ∃ g1 g2,
    convertIndex_flat grid33 4 = Some g1 ∧
    getNodeCoordinates_dim g1 (_idx g1) = Some g2 ∧
    getNodeCoordinates_flat grid33 4 = Some g2 ∧
    in_range grid33 (_idx g2) ∧ convertIndex_dim g2 (_idx g2) = Some 4 ∧
    ∀ d i mn s, _idx g2 !! d = Some i → min grid33 !! d = Some mn →
                stride grid33 !! d = Some s →
                _x g2 !! d = Some (d_add mn (d_mul (d_of_uint i) s)).
Proof.
  assert (0 ≤ 4 < nodeCount grid33) as H4
    by (vm_compute; split; [discriminate | reflexivity]).
  split; [exact finalized_grid33|]. split; [exact H4|].
  exact (getNodeCoordinates_flat_node grid33 4 finalized_grid33 H4).
Defined.

(** ** More on the index conversions *)

Section IndexMore.
Context {F : Type} `{Double F}.
Implicit Types g : Grid F.

(** X11. On a grid whose vectors have [DIM] entries, the conversion of a flat
    index to a dim index divides by zero, which is undefined, exactly when
    some axis has no node; otherwise it is defined for every flat index,
    below [nodeCount] or not, changes nothing but [_idx] and leaves there
    a dim index inside the grid. *)
Theorem convertIndex_flat_defined g v :
  sized g →
  (convertIndex_flat g v = None ↔ ∃ d, N g !! d = Some 0) ∧
  ∀ g', convertIndex_flat g v = Some g' →
        g' = with_idx g (_idx g') ∧ in_range g (_idx g').
Proof.
  intros Hs. destruct Hs.
  assert (Forall (λ n, 0 < n) (N g) →
          convertIndex_flat g v = Some (with_idx g (digits v (N g))) ∧
          in_range g (digits v (N g))) as Hpos.
  { intros Hp. split; [by apply convertIndex_flat_closed|].
    split; [by rewrite digits_length|]. intros d i n Hi Hn.
    by apply (Forall2_lookup_lr _ _ _ _ _ _ (digits_in_range v _ Hp) Hi Hn). }
  assert ((∃ d, N g !! d = Some 0) → convertIndex_flat g v = None) as Hzero.
  { intros [d Hd]. unfold convertIndex_flat.
    rewrite (for_loop_None _ _ _ _ d); [done | |].
    - apply lookup_lt_Some in Hd. lia.
    - intros [w ix]. rewrite Hd. simpl. by destruct (decide (0 = 0)). }
  assert (Forall (λ n, 0 < n) (N g) ∨ ∃ d, N g !! d = Some 0) as [Hp|Hz].
  { destruct (decide (Forall (λ n, 0 < n) (N g))) as [|Hnot]; [by left|right].
    apply not_Forall_Exists in Hnot; [|apply _].
    apply Exists_exists in Hnot as (n & Hin & Hn).
    apply list_elem_of_lookup in Hin as [d Hd]. exists d.
    pose proof (Forall_lookup_1 _ _ _ _ sized_uint0 Hd) as Hu.
    unfold is_uint in Hu. simpl in Hn. rewrite Hd. f_equal. lia. }
  - destruct (Hpos Hp) as [Hc Hr]. split.
    + rewrite Hc. split; [done|]. intros [d Hd].
      pose proof (Forall_lookup_1 _ _ _ _ Hp Hd). simpl in *. lia.
    + intros g'. rewrite Hc. intros [= <-]. done.
  - rewrite (Hzero Hz). split; [done|]. intros; done.
Qed.

(** X12. On a finalized grid without an empty axis, a flat index converted to
    a dim index and back is the flat index reduced modulo the number of
    nodes: the conversions take flat indices at or above the number of nodes
    for nodes of the grid, silently. *)
Theorem convertIndex_flat_wraps g v :
  finalized g → Forall (λ n, 0 < n) (N g) → is_uint v →
  ∃ g', convertIndex_flat g v = Some g' ∧
        convertIndex_dim g' (_idx g') = Some (v mod prod (N g)).
Proof.
  intros Hg Hp Hv. destruct (finalized_facts g Hg) as (Hs & Hd & Hc & _).
  destruct Hs. unfold is_uint in Hv.
  rewrite convertIndex_flat_closed by done. eexists. split; [done|]. simpl.
  pose proof (digits_in_range v _ Hp) as H2.
  assert (convertIndex_dim (with_idx g (digits v (N g))) (digits v (N g))
          = convertIndex_dim g (digits v (N g))) as -> by done.
  rewrite (convertIndex_dim_in_range g _ Hg H2). f_equal.
  rewrite horner_digits by done.
  pose proof (prod_pos _ Hp). pose proof (Z.mod_pos_bound v (prod (N g)) ltac:(lia)).
  pose proof (Z.mod_le v (prod (N g)) ltac:(lia) ltac:(lia)).
  apply wrap_uint. unfold is_uint. lia.
Qed.

(** X13. On a finalized grid with fewer than 2^32 nodes, the flat index of a
    dim index inside the grid is below [nodeCount], and two dim indices
    inside the grid that have the same flat index are equal. *)
Theorem convertIndex_dim_injective g p q :
  finalized g → prod (N g) < 4294967296 → in_range g p → in_range g q →
  (∃ k, convertIndex_dim g p = Some k ∧ 0 ≤ k < nodeCount g) ∧
  (convertIndex_dim g p = convertIndex_dim g q → p = q).
Proof.
  intros Hg Hn Hp Hq. destruct (finalized_facts g Hg) as (Hs & Hd & Hc & Hnc).
  pose proof (in_range_Forall2 _ _ Hp ltac:(by destruct Hs)) as Hp2.
  pose proof (in_range_Forall2 _ _ Hq ltac:(by destruct Hs)) as Hq2.
  rewrite !(convertIndex_dim_in_range g _ Hg) by done.
  pose proof (horner_bound _ _ Hp2). split.
  - eexists. split; [done|]. rewrite Hnc.
    rewrite !wrap_uint by (unfold is_uint; lia). lia.
  - intros [= Heq]. apply (wrap_horner_inj p q (N g)); [lia | done..].
Qed.

End IndexMore.

Lemma sized_grid33 : sized grid33.
Proof. exact (proj1 (finalized_sized grid33 finalized_grid33)). Qed.

Lemma convertIndex_flat_defined_witness :
  sized grid33 ∧
  (convertIndex_flat grid33 7 = None ↔ ∃ d, N grid33 !! d = Some 0) ∧
  ∀ g', convertIndex_flat grid33 7 = Some g' →
        g' = with_idx grid33 (_idx g') ∧ in_range grid33 (_idx g').
Proof.
  split; [exact sized_grid33|].
  exact (convertIndex_flat_defined grid33 7 sized_grid33).
Defined.

Lemma convertIndex_flat_wraps_witness :
  finalized grid33 ∧ Forall (λ n, 0 < n) (N grid33) ∧ is_uint 13 ∧
  ∃ g', convertIndex_flat grid33 13 = Some g' ∧
        convertIndex_dim g' (_idx g') = Some (13 mod prod (N grid33)).
Proof.
  assert (Forall (λ n, 0 < n) (N grid33)) as H1 by (repeat constructor; lia).
  assert (is_uint 13) as H2 by (unfold is_uint; lia).
  split; [exact finalized_grid33|]. split; [exact H1|]. split; [exact H2|].
  exact (convertIndex_flat_wraps grid33 13 finalized_grid33 H1 H2).
Defined.

Lemma in_range_grid33_center : in_range grid33 [1; 1].
Proof.
  split; [reflexivity|]. intros [|[|d]] i n; simpl; intros Hi Hn; simplify_eq; lia.
Qed.

Lemma convertIndex_dim_injective_witness :
  finalized grid33 ∧ prod (N grid33) < 4294967296 ∧ in_range grid33 [0; 0] ∧
  in_range grid33 [1; 1] ∧
  (∃ k, convertIndex_dim grid33 [0; 0] = Some k ∧ 0 ≤ k < nodeCount grid33) ∧
  (convertIndex_dim grid33 [0; 0] = convertIndex_dim grid33 [1; 1] →
   [0; 0] = [1; 1]).
Proof.
  destruct grid33_nodes as (_ & _ & H2).
  split; [exact finalized_grid33|]. split; [exact H2|].
  split; [exact in_range_grid33_corner|]. split; [exact in_range_grid33_center|].
  exact (convertIndex_dim_injective grid33 [0; 0] [1; 1] finalized_grid33 H2
           in_range_grid33_corner in_range_grid33_center).
Defined.

(** ** The class invariant *)

Section InvariantTheorem.
Context {F : Type} `{Double F}.
Implicit Types g : Grid F.

Lemma sized_setter g g' :
  sized g → DIM g' = DIM g → max g' = max g → min g' = min g →
  raster g' = raster g → cumN g' = cumN g → stride g' = stride g →
  strideinv g' = strideinv g → _idx g' = _idx g → _x g' = _x g →
  length (N g') = DIM g → Forall is_uint (N g') → sized g'.
Proof.
  intros [] Hd Hmx Hmn Hr Hc Hst Hsi Hi Hx Hn Hu.
  constructor; rewrite ?Hd, ?Hmx, ?Hmn, ?Hr, ?Hc, ?Hst, ?Hsi, ?Hi, ?Hx; done.
Qed.

Lemma sized_bounds g mx mn :
  sized g → length mx = DIM g → length mn = DIM g →
  sized (mkGrid (DIM g) (N g) mx mn (raster g) (cumN g) (stride g)
                (strideinv g) (nodeCount g) (_idx g) (_x g)).
Proof. intros [] ??. by constructor. Qed.

(** The enumeration loops keep the size of [_idx]. *)
Lemma enum_loop_length (push : list Z → Z → list Z) g (bmin bmax : list Z) nb ix0 l ix :
  for_loop nb 0
    (λ _ '(neighborhood, ix),
       c ← convertIndex_dim g ix;
       ix ← advance (DIM g) 0 bmin bmax ix;
       Some (push neighborhood c, ix))
    ([], ix0) = Some (l, ix) →
  length ix = length ix0.
Proof.
  intros Hl.
  refine (for_loop_inv_Some (λ _ (s : list Z * list Z), length (s.2) = length ix0)
            _ _ _ _ (l, ix) _ _ Hl); [done|].
  intros k [a jx] [a' jx'] _ Hv Hb. simpl in *.
  destruct (convertIndex_dim g jx); simpl in Hb; [|done].
  destruct (advance _ _ _ _ jx) as [jx1|] eqn:Ha; simpl in Hb; [|done].
  apply advance_length in Ha. simplify_eq. lia.
Qed.

Lemma enumerateNeighborHood_sized g idx radius l g' :
  sized g → enumerateNeighborHood g idx radius = Some (l, g') →
  sized g' ∧ DIM g' = DIM g.
Proof.
  intros Hs. unfold enumerateNeighborHood. intros He.
  destruct (convertIndex_dim g idx) as [center|]; simpl in He; [|done].
  destruct (for_loop (DIM g) 0 _ _) as [[bmin bmax]|]; simpl in He; [|done].
  destruct (count_box _ _ _) as [nb|]; simpl in He; [|done].
  destruct (reset_idx _ _ _) as [ix0|] eqn:Hr; simpl in He; [|done].
  apply reset_idx_length in Hr.
  destruct (for_loop (Z.to_nat nb) 0 _ _) as [[l' ix]|] eqn:Hl; simpl in He; [|done].
  simplify_eq. split; [|done]. apply sized_with_idx; [done|].
  pose proof (sized_idx g Hs).
  rewrite (for_loop_ext _ _ _
    (λ _ '(neighborhood, ix),
       c ← convertIndex_dim g ix;
       ix ← advance (DIM g) 0 bmin bmax ix;
       Some ((λ nbh c, if decide (c ≠ center) then nbh ++ [c] else nbh)
               neighborhood c, ix))) in Hl.
  - apply enum_loop_length in Hl. lia.
  - intros _ [a jx]. done.
Qed.

Lemma getNodeIndexBl_sized g x g' :
  sized g → getNodeIndexBl g x = Some g' → sized g' ∧ DIM g' = DIM g.
Proof.
  intros Hs. unfold getNodeIndexBl. intros Hg.
  destruct (for_loop _ _ _ _) as [ix|] eqn:Hl; simpl in Hg; [|done].
  apply (lookup_loop_length d_to_int 2) in Hl. simplify_eq.
  split; [|done]. apply sized_with_idx; [done|]. destruct Hs. lia.
Qed.

Lemma getEnvelopingNodes_sized g x radius l g' :
  sized g → getEnvelopingNodes g x radius = Some (l, g') →
  sized g' ∧ DIM g' = DIM g.
Proof.
  intros Hs. unfold getEnvelopingNodes. intros He.
  destruct (getNodeIndexBl g x) as [gb|] eqn:Hb; simpl in He; [|done].
  apply getNodeIndexBl_sized in Hb as [Hsb Hdb]; [|done].
  destruct (for_loop (DIM g) 0 _ _) as [[bmin bmax]|]; simpl in He; [|done].
  destruct (count_box _ _ _) as [nb|]; simpl in He; [|done].
  destruct (reset_idx _ _ _) as [ix0|] eqn:Hr; simpl in He; [|done].
  apply reset_idx_length in Hr.
  destruct (for_loop (Z.to_nat nb) 0 _ _) as [[l' ix]|] eqn:Hl; simpl in He; [|done].
  simplify_eq. split; [|done]. apply sized_with_idx; [done|].
  pose proof (sized_idx gb Hsb).
  rewrite (for_loop_ext _ _ _
    (λ _ '(neighborhood, ix),
       c ← convertIndex_dim g ix;
       ix ← advance (DIM g) 0 bmin bmax ix;
       Some ((λ nbh c, nbh ++ [c]) neighborhood c, ix))) in Hl.
  - apply enum_loop_length in Hl. lia.
  - intros _ [a jx]. done.
Qed.

Lemma convertIndex_flat_sized g v g' :
  sized g → convertIndex_flat g v = Some g' → sized g' ∧ DIM g' = DIM g.
Proof.
  intros Hs [Hl ->]%convertIndex_flat_length. split; [|done].
  apply sized_with_idx; [done|]. destruct Hs. lia.
Qed.

(** X14. The class invariant, every member vector has [DIM] entries, holds
    after [setDim] on a new grid and is kept, together with [DIM], by every
    method that returns: the setters, [rasterize], the index conversion, the
    lookups of a node, both enumerations and the reads of coordinates. *)
Theorem sized_invariant (qRound : F → option Z) g :
  sized g →
  (∀ d, sized (setDim g d) ∧ DIM (setDim g d) = d) ∧
  (∀ n g', Forall is_uint n → setN g n = Some g' → sized g' ∧ DIM g' = DIM g) ∧
  (∀ n g', is_uint n → setN_all g n = Some g' → sized g' ∧ DIM g' = DIM g) ∧
  (∀ m g', setMin g m = Some g' → sized g' ∧ DIM g' = DIM g) ∧
  (∀ m g', setMax g m = Some g' → sized g' ∧ DIM g' = DIM g) ∧
  (∀ g', rasterize g = Some g' → sized g' ∧ DIM g' = DIM g) ∧
  (∀ v g', convertIndex_flat g v = Some g' → sized g' ∧ DIM g' = DIM g) ∧
  (∀ x g', getNodeIndexBl g x = Some g' → sized g' ∧ DIM g' = DIM g) ∧
  (∀ x g', getNodeIndex qRound g x = Some g' → sized g' ∧ DIM g' = DIM g) ∧
  (∀ x k g', getNodeFlatIndexBl g x = Some (k, g') → sized g' ∧ DIM g' = DIM g) ∧
  (∀ x k g', getNodeFlatIndex qRound g x = Some (k, g') →
             sized g' ∧ DIM g' = DIM g) ∧
  (∀ idx r l g', enumerateNeighborHood g idx r = Some (l, g') →
                 sized g' ∧ DIM g' = DIM g) ∧
  (∀ v r l g', enumerateNeighborHood_flat g v r = Some (l, g') →
               sized g' ∧ DIM g' = DIM g) ∧
  (∀ x r l g', getEnvelopingNodes g x r = Some (l, g') →
               sized g' ∧ DIM g' = DIM g) ∧
  (∀ idx g', getNodeCoordinates_dim g idx = Some g' → sized g' ∧ DIM g' = DIM g) ∧
  (∀ v g', getNodeCoordinates_flat g v = Some g' → sized g' ∧ DIM g' = DIM g).
Proof.
  intros Hs.
  assert (∀ n g', Forall is_uint n → setN g n = Some g' →
                  sized g' ∧ DIM g' = DIM g) as HsetN.
  { intros n g' Hn. unfold setN. intros Hg.
    destruct (for_loop _ _ _ _) as [m|] eqn:Hl; simpl in Hg; [|done].
    apply (copy_loop_inv is_uint) in Hl as [Hlen Hu]; [|done|by destruct Hs].
    simplify_eq. split; [|done].
    apply (sized_setter g); simpl; try done. destruct Hs. lia. }
  split; [|split; [exact HsetN|]].
  { intros d. split; [|done]. apply sized_setDim. by destruct Hs. }
  split.
  { intros n g' Hn. unfold setN_all. rewrite fill_loop_spec
      by by rewrite length_replicate. simpl.
    apply HsetN. by apply Forall_replicate. }
  split.
  { intros m g'. unfold setMin. intros Hg.
    destruct (for_loop _ _ _ _) as [v|] eqn:Hl; simpl in Hg; [|done].
    apply (copy_loop_inv (λ _, True)) in Hl as [Hlen _];
      [| by apply Forall_true | by apply Forall_true].
    simplify_eq. split; [|done]. destruct Hs. apply sized_bounds; [done|lia..]. }
  split.
  { intros m g'. unfold setMax. intros Hg.
    destruct (for_loop _ _ _ _) as [v|] eqn:Hl; simpl in Hg; [|done].
    apply (copy_loop_inv (λ _, True)) in Hl as [Hlen _];
      [| by apply Forall_true | by apply Forall_true].
    simplify_eq. split; [|done]. destruct Hs. apply sized_bounds; [done|lia..]. }
  split.
  { intros g' [_ ->]%rasterize_inv; [|done]. split; [|done]. by apply sized_derived. }
  split; [intros v g'; by apply convertIndex_flat_sized|].
  split; [intros x g'; by apply getNodeIndexBl_sized|].
  split.
  { intros x g'. unfold getNodeIndex. intros Hg.
    destruct (for_loop _ _ _ _) as [ix|] eqn:Hl; simpl in Hg; [|done].
    apply (lookup_loop_length qRound 1) in Hl. simplify_eq.
    split; [|done]. apply sized_with_idx; [done|]. destruct Hs. lia. }
  split.
  { intros x k g'. unfold getNodeFlatIndexBl. intros Hg.
    destruct (for_loop _ _ _ _) as [ix|] eqn:Hl; simpl in Hg; [|done].
    apply (lookup_loop_length d_to_int 2) in Hl.
    destruct (convertIndex_dim g ix); simpl in Hg; [|done]. simplify_eq.
    split; [|done]. apply sized_with_idx; [done|]. destruct Hs. lia. }
  split.
  { intros x k g'. unfold getNodeFlatIndex. intros Hg.
    destruct (for_loop _ _ _ _) as [ix|] eqn:Hl; simpl in Hg; [|done].
    apply (lookup_loop_length qRound 1) in Hl.
    destruct (convertIndex_dim g ix); simpl in Hg; [|done]. simplify_eq.
    split; [|done]. apply sized_with_idx; [done|]. destruct Hs. lia. }
  split; [intros idx r l g'; by apply enumerateNeighborHood_sized|].
  split.
  { intros v r l g'. unfold enumerateNeighborHood_flat. intros Hg.
    destruct (convertIndex_flat g v) as [g1|] eqn:Hc; simpl in Hg; [|done].
    apply convertIndex_flat_sized in Hc as [Hs1 Hd1]; [|done].
    apply enumerateNeighborHood_sized in Hg as [? ?]; [|done].
    split; [done | congruence]. }
  split; [intros x r l g'; by apply getEnvelopingNodes_sized|].
  split.
  { intros idx g'. unfold getNodeCoordinates_dim. intros Hg.
    destruct (read_nodes g idx) as [x|] eqn:Hr; simpl in Hg; [|done].
    apply read_nodes_length in Hr. simplify_eq. split; [|done].
    apply sized_with_x; [done|]. destruct Hs. lia. }
  intros v g'. unfold getNodeCoordinates_flat. intros Hg.
  destruct (convertIndex_flat g v) as [g1|] eqn:Hc; simpl in Hg; [|done].
  apply convertIndex_flat_sized in Hc as [Hs1 Hd1]; [|done].
  destruct (read_nodes g1 (_idx g1)) as [x|] eqn:Hr; simpl in Hg; [|done].
  apply read_nodes_length in Hr. simplify_eq. split; [|done].
  apply sized_with_x; [done|]. destruct Hs1. lia.
Qed.

End InvariantTheorem.

(** ** Lookups and rasters that binary64 leaves without a value *)

Lemma is_nan_SF a : is_nan a = true → Prim2SF a = S754_nan.
Proof.
  unfold is_nan. rewrite FloatAxioms.eqb_spec. intros Hn.
  destruct (Prim2SF a) eqn:E; try done; rewrite SFeqb_refl in Hn; done.
Qed.

Lemma eqb_zero_SF s : (s =? 0)%float = true → ∃ b, Prim2SF s = S754_zero b.
Proof.
  rewrite FloatAxioms.eqb_spec. change (Prim2SF 0) with (S754_zero false).
  destruct (Prim2SF s) as [b|b| |b m e]; try destruct b; try done; by eexists.
Qed.

Lemma cast_nan_coordinate (xd mn si : float) :
  is_nan xd = true → float_to_int ((xd - mn) * si) = None.
Proof.
  intros Hx%is_nan_SF. unfold float_to_int.
  by rewrite FloatAxioms.mul_spec, FloatAxioms.sub_spec, Hx.
Qed.

Lemma cast_zero_stride (xd mn s : float) :
  (s =? 0)%float = true → float_to_int ((xd - mn) * (1 / s)) = None.
Proof.
  intros [b Hs]%eqb_zero_SF. unfold float_to_int.
  rewrite FloatAxioms.mul_spec, FloatAxioms.div_spec, Hs.
  assert (SF64div (Prim2SF 1) (S754_zero b) = S754_infinity b) as ->
    by (destruct b; vm_compute; reflexivity).
  by destruct (Prim2SF (xd - mn)) as [c|c| |c m e].
Qed.

(** A lookup whose cast is undefined on one axis is undefined, and so is
    all that starts with it. *)
Lemma lookup_undefined (g : Grid float) (x : list float) d radius :
  (d < DIM g)%nat →
  (∀ xd mn si, x !! d = Some xd → min g !! d = Some mn →
               strideinv g !! d = Some si →
               float_to_int ((xd - mn) * si) = None) →
  getNodeIndexBl g x = None ∧ getNodeFlatIndexBl g x = None ∧
  getEnvelopingNodes g x radius = None.
Proof.
  intros Hd Hcast.
  assert (∀ ix : list Z,
    (xd ← x !! d; mn ← min g !! d; si ← strideinv g !! d; nd ← N g !! d;
     v ← float_to_int ((xd - mn) * si);
     let hi := to_int nd - 2 in
     if is_intb hi then store ix d (wrap (qBound 0 v hi)) else None) = None) as Hb.
  { intros ix.
    destruct (x !! d) as [xd|]; simpl; [|done].
    destruct (min g !! d) as [mn|]; simpl; [|done].
    destruct (strideinv g !! d) as [si|]; simpl; [|done].
    destruct (N g !! d) as [nd|]; simpl; [|done].
    by rewrite (Hcast xd mn si). }
  assert (getNodeIndexBl g x = None) as Hbl.
  { unfold getNodeIndexBl.
    rewrite (for_loop_None _ _ _ _ d); [done | lia | exact Hb]. }
  split; [done|]. split.
  - unfold getNodeFlatIndexBl.
    rewrite (for_loop_None _ _ _ _ d); [done | lia | exact Hb].
  - unfold getEnvelopingNodes. by rewrite Hbl.
Qed.

(** X15. In binary64, a point with a NaN among its first [DIM] coordinates
    has no bottom-left node: the cast of the scaled coordinate to [int] is
    undefined before [qBound] is reached, in [getNodeIndexBl],
    [getNodeFlatIndexBl] and [getEnvelopingNodes] alike. *)
Theorem lookup_nan_undefined (g : Grid float) (x : list float) d xd radius :
  (d < DIM g)%nat → x !! d = Some xd → is_nan xd = true →
  getNodeIndexBl g x = None ∧ getNodeFlatIndexBl g x = None ∧
  getEnvelopingNodes g x radius = None.
Proof.
  intros Hd Hx Hn. apply (lookup_undefined g x d radius Hd).
  intros xd' mn si Hx' _ _. simplify_eq. by apply cast_nan_coordinate.
Qed.

(** X16. In binary64, on a finalized grid with a stride of zero on some axis
    (bounds that coincide) no point has a bottom-left node: the inverse
    stride is infinite, the scaled coordinate infinite or NaN, and its cast
    to [int] undefined. *)
Theorem lookup_zero_stride_undefined (g : Grid float) (x : list float) d s radius :
  finalized g → stride g !! d = Some s → (s =? 0)%float = true →
  getNodeIndexBl g x = None ∧ getNodeFlatIndexBl g x = None ∧
  getEnvelopingNodes g x radius = None.
Proof.
  intros Hg Hs Hz. destruct (finalized_sized g Hg) as [Hsz _].
  pose proof (lookup_lt_Some _ _ _ Hs) as Hd. rewrite (sized_stride g Hsz) in Hd.
  apply (lookup_undefined g x d radius Hd). intros xd mn si _ _ Hsi.
  destruct (finalized_inv g Hg) as (g0 & _ & _ & ->). simpl in Hs, Hsi.
  rewrite list_lookup_fmap, Hs in Hsi. simpl in Hsi. simplify_eq.
  by apply cast_zero_stride.
Qed.

(** X17. In binary64, the raster of an axis with a single node is one NaN,
    whatever the bounds: the stride is a division by zero, infinite or NaN,
    and zero times it is NaN. *)
Theorem single_node_axis_nan (g : Grid float) d :
  finalized g → N g !! d = Some 1 → raster g !! d = Some [nan].
Proof.
  intros Hg Hn. destruct (finalized_inv g Hg) as (g0 & Hs & _ & ->).
  simpl in *. pose proof (lookup_lt_Some _ _ _ Hn) as Hd. destruct Hs.
  destruct (lookup_lt_is_Some_2 (max g0) d ltac:(lia)) as [mx Hmx].
  destruct (lookup_lt_is_Some_2 (min g0) d ltac:(lia)) as [mn Hmn].
  rewrite (raster_closed_lookup g0 d mn _ 1 Hmn
             (stride_closed_lookup g0 d mx mn 1 Hmx Hmn Hn) Hn).
  f_equal. unfold axis_nodes. simpl. f_equal.
  change (wrap (1 - 1)) with 0.
  apply Prim2SF_inj.
  rewrite FloatAxioms.add_spec, FloatAxioms.mul_spec, FloatAxioms.div_spec.
  change (Prim2SF (of_uint63 (Uint63.of_Z 0))) with (S754_zero false).
  change (Prim2SF nan) with S754_nan.
  destruct (Prim2SF (mx - mn)) as [c|c| |c m e];
    destruct (Prim2SF mn) as [c'|c'| |c' m' e']; reflexivity.
Qed.

Lemma lookup_nan_undefined_witness :
  (0 < DIM grid33)%nat ∧ [nan; 1]%float !! 0%nat = Some nan ∧ is_nan nan = true ∧
  getNodeIndexBl grid33 [nan; 1]%float = None ∧
  getNodeFlatIndexBl grid33 [nan; 1]%float = None ∧
  getEnvelopingNodes grid33 [nan; 1]%float 1 = None.
Proof.
  assert (0 < DIM grid33)%nat as H1 by (simpl; lia).
  split; [exact H1|]. split; [reflexivity|]. split; [reflexivity|].
  exact (lookup_nan_undefined grid33 [nan; 1]%float 0 nan 1 H1 eq_refl eq_refl).
Defined.

Lemma finalized_grid2 : finalized grid2.
Proof. exists config2. split; [sized_tac | vm_compute; reflexivity]. Qed.

Lemma lookup_zero_stride_undefined_witness :
  finalized grid2 ∧ stride grid2 !! 0%nat = Some 0%float ∧
  (0 =? 0)%float = true ∧
  getNodeIndexBl grid2 [0]%float = None ∧
  getNodeFlatIndexBl grid2 [0]%float = None ∧
  getEnvelopingNodes grid2 [0]%float 0 = None.
Proof.
  split; [exact finalized_grid2|]. split; [vm_compute; reflexivity|].
  split; [reflexivity|].
  exact (lookup_zero_stride_undefined grid2 [0]%float 0 0%float 0
           finalized_grid2 eq_refl eq_refl).
Defined.

Lemma finalized_grid1 : finalized grid1.
Proof. exists config1. split; [sized_tac | vm_compute; reflexivity]. Qed.

Lemma single_node_axis_nan_witness :
  finalized grid1 ∧ N grid1 !! 0%nat = Some 1 ∧ raster grid1 !! 0%nat = Some [nan].
Proof.
  split; [exact finalized_grid1|]. split; [reflexivity|].
  exact (single_node_axis_nan grid1 0 finalized_grid1 eq_refl).
Defined.

(** ** The construction of a grid *)

Section Build.
Context {F : Type} `{Double F}.

(** X18. The calls of the header comment, [setDim], [setN], [setMin],
    [setMax] and [rasterize] on a new grid, are defined exactly when there
    is at least one axis and each of the three arrays has [dim] entries or
    more; the grid they leave is finalized, has [dim] axes, and for
    configuration the first [dim] entries of each array. *)
Theorem build_defined dim n (lo hi : list F) :
  Forall is_uint n →
  (build dim n lo hi = None ↔
   dim = 0%nat ∨ (length n < dim)%nat ∨ (length lo < dim)%nat ∨
   (length hi < dim)%nat) ∧
  ∀ g, build dim n lo hi = Some g →
       finalized g ∧ DIM g = dim ∧ N g = take dim n ∧ min g = take dim lo ∧
       max g = take dim hi.
Proof.
  intros Hn.
  assert (build dim n lo hi =
          if decide (dim ≤ length n ∧ dim ≤ length lo ∧ dim ≤ length hi)%nat
          then rasterize (mkGrid dim (take dim n) (take dim hi) (take dim lo)
                 (resize dim [] []) (resize dim 0 []) (resize dim d_zero [])
                 (resize dim d_zero []) 0 (resize dim 0 []) (resize dim d_zero []))
          else None) as Hb.
  { unfold build, setN, setMin, setMax. simpl.
    rewrite copy_loop_spec by by rewrite length_resize.
    destruct (decide (dim ≤ length n)%nat) as [H1|H1]; simpl;
      [|rewrite decide_False by lia; done].
    rewrite copy_loop_spec by by rewrite length_resize.
    destruct (decide (dim ≤ length lo)%nat) as [H2|H2]; simpl;
      [|rewrite decide_False by lia; done].
    rewrite copy_loop_spec by by rewrite length_resize.
    destruct (decide (dim ≤ length hi)%nat) as [H3|H3]; simpl;
      [|rewrite decide_False by lia; done].
    by rewrite decide_True by lia. }
  rewrite Hb. case_decide as Hlen.
  - set (g0 := mkGrid dim _ _ _ _ _ _ _ _ _ _).
    assert (sized g0) as Hs.
    { constructor; simpl; rewrite ?length_resize, ?length_take; try lia.
      by apply Forall_take. }
    destruct (decide (dim = 0%nat)) as [->|Hd].
    + assert (rasterize g0 = None) as ->.
      { destruct (rasterize g0) as [g'|] eqn:Hr; [|done].
        apply rasterize_inv in Hr as [Hlt _]; [|done]. simpl in Hlt. lia. }
      split; [split; [by left | done] | done].
    + assert (rasterize g0 = Some (derived g0)) as Hr
        by (apply rasterize_derived; [done | simpl; lia]).
      rewrite Hr. split; [split; [done | lia]|].
      intros g [= <-]. split; [|done]. exists g0. done.
  - split; [split; [lia | done] | done].
Qed.

End Build.

Lemma build_defined_witness :
  Forall is_uint [3; 3] ∧
  (build 2 [3; 3] [0; 0]%float [2; 2]%float = None ↔
   2%nat = 0%nat ∨ (length [3; 3] < 2)%nat ∨ (length [0; 0]%float < 2)%nat ∨
   (length [2; 2]%float < 2)%nat) ∧
  ∀ g, build 2 [3; 3] [0; 0]%float [2; 2]%float = Some g →
       finalized g ∧ DIM g = 2%nat ∧ N g = take 2 [3; 3] ∧
       min g = take 2 [0; 0]%float ∧ max g = take 2 [2; 2]%float.
Proof.
  assert (Forall is_uint [3; 3]) as Hu by (repeat constructor; unfold is_uint; lia).
  split; [exact Hu|].
  exact (build_defined 2 [3; 3] [0; 0]%float [2; 2]%float Hu).
Defined.

Lemma sized_invariant_witness :
  sized grid33 ∧
  ∀ x g', getNodeIndexBl grid33 x = Some g' → sized g' ∧ DIM g' = DIM grid33.
Proof.
  split; [exact sized_grid33|].
  exact (proj1 (proj2 (proj2 (proj2 (proj2 (proj2 (proj2 (proj2
           (sized_invariant float_to_int grid33 sized_grid33))))))))).
Defined.

(** ** The neighbourhood of a node given by its flat index *)

Section BallFlat.
Context {F : Type} `{Double F}.
Implicit Types g : Grid F.

(** X19. On a finalized grid with fewer than 2^32 nodes, for a node [n] and a
    radius that added to a node count stays in [uint], the overload of
    [enumerateNeighborHood] on flat indices returns, each once, the nodes
    other than [n] whose dim index is within the radius of that of [n] on
    every axis. *)
Theorem enumerateNeighborHood_flat_box g n radius :
  finalized g → prod (N g) < 4294967296 → 0 ≤ n < nodeCount g → 0 ≤ radius →
  Forall (λ nd, nd + radius ≤ 4294967296) (N g) →
  ∃ gc nbh g',
    convertIndex_flat g n = Some gc ∧
    enumerateNeighborHood_flat g n radius = Some (nbh, g') ∧ NoDup nbh ∧
    ∀ k, k ∈ nbh ↔
         k ≠ n ∧ 0 ≤ k < nodeCount g ∧
         ∃ gk, convertIndex_flat g k = Some gk ∧
               Forall2 (λ a i, i - radius ≤ a ≤ i + radius) (_idx gk) (_idx gc).
Proof.
  intros Hg Hp Hn Hrad Hwr.
  destruct (finalized_facts g Hg) as (Hs & Hd & Hc & Hnc).
  destruct (flat_dim_flat g n Hg Hn) as (H2 & Hcf & Hcd).
  set (ix := digits n (N g)) in *. set (g1 := with_idx g ix) in *.
  assert (length ix = DIM g) as Hlen
    by (unfold ix; rewrite digits_length; by destruct Hs).
  pose proof (finalized_with_idx g ix Hg Hlen) as Hg1.
  assert (in_range g1 ix) as Hr1.
  { split; [done|]. intros d i nd Hi Hnd.
    by apply (Forall2_lookup_lr _ _ _ _ _ _ H2 Hi Hnd). }
  assert (∀ d i, ix !! d = Some i → i + radius < 4294967296) as Hwrap.
  { intros d i Hi.
    destruct (Forall2_lookup_l _ _ _ _ _ H2 Hi) as (nd & Hnd & Hlt).
    pose proof (Forall_lookup_1 _ _ _ _ Hwr Hnd) as Hw. simpl in Hw. lia. }
  destruct (enumerateNeighborHood_members g1 ix radius Hg1 Hr1 Hrad Hp Hwrap)
    as (c & nbh & g' & Hcc & He & Hnd & Hmem & _).
  assert (c = n) as -> by congruence.
  exists g1, nbh, g'. split; [done|]. split.
  { unfold enumerateNeighborHood_flat. rewrite Hcf. exact He. }
  split; [done|]. intros k. rewrite Hmem. clear Hmem.
  assert (0 ≤ prod (N g)) as Hp0.
  { apply prod_nonneg. destruct Hs. done. }
  assert (nodeCount g = prod (N g)) as Hnc'
    by (rewrite Hnc; apply wrap_uint; unfold is_uint; lia).
  split.
  - intros (Hne & p & Hpr & Hball & Hk). split; [done|].
    pose proof (in_range_Forall2 g p Hpr ltac:(by destruct Hs)) as Hp2.
    pose proof (horner_bound _ _ Hp2) as Hb.
    assert (convertIndex_dim g p = Some k) as Hk' by exact Hk.
    rewrite (convertIndex_dim_in_range g p Hg Hp2) in Hk'.
    rewrite wrap_uint in Hk' by (unfold is_uint; lia). simplify_eq.
    split; [lia|].
    destruct (flat_dim_flat g (horner p (N g)) Hg ltac:(lia)) as (_ & Hf & _).
    rewrite digits_horner in Hf by done.
    eexists. split; [exact Hf|]. exact Hball.
  - intros (Hne & Hk & gk & Hf & Hball). split; [done|].
    destruct (flat_dim_flat g k Hg Hk) as (Hk2 & Hf' & Hkd).
    rewrite Hf' in Hf. simplify_eq. simpl in Hball.
    exists (digits k (N g)). split; [|split; [exact Hball | exact Hkd]].
    split; [rewrite digits_length; by destruct Hs|].
    intros d i nd Hi Hn'. by apply (Forall2_lookup_lr _ _ _ _ _ _ Hk2 Hi Hn').
Qed.

End BallFlat.

Lemma enumerateNeighborHood_flat_box_witness :
  finalized grid33 ∧ prod (N grid33) < 4294967296 ∧ 0 ≤ 4 < nodeCount grid33 ∧
  0 ≤ 1 ∧ Forall (λ nd, nd + 1 ≤ 4294967296) (N grid33) ∧
  ∃ gc nbh g',
    convertIndex_flat grid33 4 = Some gc ∧
    enumerateNeighborHood_flat grid33 4 1 = Some (nbh, g') ∧ NoDup nbh ∧
    ∀ k, k ∈ nbh ↔
         k ≠ 4 ∧ 0 ≤ k < nodeCount grid33 ∧
         ∃ gk, convertIndex_flat grid33 k = Some gk ∧
               Forall2 (λ a i, i - 1 ≤ a ≤ i + 1) (_idx gk) (_idx gc).
Proof.
  destruct grid33_nodes as (_ & _ & H2).
  assert (0 ≤ 4 < nodeCount grid33) as H3 by (vm_compute; split; [discriminate | reflexivity]).
  assert (0 ≤ 1) as H4 by lia.
  assert (Forall (λ nd, nd + 1 ≤ 4294967296) (N grid33)) as H5
    by (repeat constructor; simpl; lia).
  split; [exact finalized_grid33|]. split; [exact H2|]. split; [exact H3|].
  split; [exact H4|]. split; [exact H5|].
  exact (enumerateNeighborHood_flat_box grid33 4 1 finalized_grid33 H2 H3 H4 H5).
Defined.
